(** * UNO-CLI container log viewer: a shallow embedding of [package logs]

    The embedded program is the log viewer of UNO-CLI: the line classifier
    ([parseLogLine], [parseUniversalLog]), level canonicalization
    ([normalizeLevel]), the error predicate ([isErrorLog]), word wrapping
    ([wrapText]), the Bubble Tea state machine ([model], [Update], the
    slice selection of [View]), the stream pump ([streamLogs]), the event
    loop that [RunLogs] starts, and the screen ([formatTime],
    [extractMessage], [highlightErrorInMessage], [View]).

    A Go [string] is a sequence of bytes; it is modelled as [list ascii].
    A Go [int] is a 64-bit two's complement integer; it is modelled as a
    [Z] with the wrap-around written out ([GoInt.wrap]).  The Go standard
    library functions the program calls ([strings], [unicode/utf8],
    [regexp]) are modelled below from their documented behaviour; the
    Unicode case tables, [encoding/json], the layouts of [time] and the
    renderer of [lipgloss] are taken as parameters. *)

From Stdlib Require Import Ascii String.
From Stdlib Require Import ZArith NArith Bool Lia Arith List.
From Stdlib Require Import Numbers.DecimalString.
Import ListNotations.

Set Implicit Arguments.

(** ** Go strings *)

Definition gostring := list ascii.

Definition go (s : string) : gostring := list_ascii_of_string s.
Arguments go s%_string.

Definition byteN (b : ascii) : N := N_of_ascii b.
Definition byteOf (n : N) : ascii := ascii_of_N n.

Definition dquote : ascii := ascii_of_nat 34.

Fixpoint streq (a b : gostring) : bool :=
  match a, b with
  | [], [] => true
  | x :: a', y :: b' => Ascii.eqb x y && streq a' b'
  | _, _ => false
  end.

(** [len(s)] as a Go int. *)
Definition len {A} (l : list A) : Z := Z.of_nat (length l).

(** ** Go [int] (64 bits) *)

Module GoInt.

Local Open Scope Z_scope.

Definition wrap (z : Z) : Z := (z + 2 ^ 63) mod 2 ^ 64 - 2 ^ 63.
Definition add (a b : Z) : Z := wrap (a + b).
Definition sub (a b : Z) : Z := wrap (a - b).

End GoInt.

(** ** [unicode/utf8] and [unicode] *)

Module Utf8.

Definition rune := N.

Definition RuneError : rune := 0xFFFD%N.

(** Continuation bytes 0x80..0xBF. *)
Definition isCont (b : ascii) : bool :=
  ((0x80 <=? byteN b) && (byteN b <=? 0xBF))%N.

Definition inRangeB (lo hi : N) (b : ascii) : bool :=
  ((lo <=? byteN b) && (byteN b <=? hi))%N.

(** The table [first] of the library: the width that a leading byte
    announces, 0 for a byte that cannot lead. *)
Definition leadWidth (x : N) : nat :=
  if (x <? 0x80)%N then 1
  else if (x <? 0xC2)%N then 0
  else if (x <? 0xE0)%N then 2
  else if (x <? 0xF0)%N then 3
  else if (x <? 0xF5)%N then 4
  else 0.

(** The table [acceptRanges]: the range of the second byte, which
    excludes overlong forms, surrogates and code points above U+10FFFF. *)
Definition acceptLo (x : N) : N :=
  if (x =? 0xE0)%N then 0xA0%N else if (x =? 0xF0)%N then 0x90%N else 0x80%N.

Definition acceptHi (x : N) : N :=
  if (x =? 0xED)%N then 0x9F%N else if (x =? 0xF4)%N then 0x8F%N else 0xBF%N.

(** The six low bits of a continuation byte. *)
Definition payload (b : ascii) : N := (byteN b - 0x80)%N.

(** [utf8.DecodeRuneInString]: the first rune of [s] and its width in
    bytes.  An invalid or truncated encoding gives [(RuneError, 1)], the
    empty string [(RuneError, 0)].  The library assembles the code point
    with masks and shifts; on the accepted byte ranges that is the
    positional arithmetic written here. *)
Definition DecodeRune (s : gostring) : rune * nat :=
  match s with
  | [] => (RuneError, 0)
  | b0 :: t =>
    let x := byteN b0 in
    match leadWidth x, t with
    | 1, _ => (x, 1)
    | 2, b1 :: _ =>
      if inRangeB (acceptLo x) (acceptHi x) b1
      then (((x - 0xC0) * 64 + payload b1)%N, 2)
      else (RuneError, 1)
    | 3, b1 :: b2 :: _ =>
      if inRangeB (acceptLo x) (acceptHi x) b1 && isCont b2
      then ((((x - 0xE0) * 64 + payload b1) * 64 + payload b2)%N, 3)
      else (RuneError, 1)
    | 4, b1 :: b2 :: b3 :: _ =>
      if inRangeB (acceptLo x) (acceptHi x) b1 && isCont b2 && isCont b3
      then (((((x - 0xF0) * 64 + payload b1) * 64 + payload b2) * 64
             + payload b3)%N, 4)
      else (RuneError, 1)
    | _, _ => (RuneError, 1)
    end
  end.

(** [utf8.ValidRune]. *)
Definition ValidRune (r : rune) : bool :=
  ((r <? 0xD800) || ((0xE000 <=? r) && (r <=? 0x10FFFF)))%N.

(** [utf8.AppendRune] on an empty buffer: the UTF-8 encoding of [r];
    an invalid rune is written as U+FFFD. *)
Definition EncodeRune (r : rune) : gostring :=
  if (r <? 0x80)%N then [byteOf r]
  else if (r <? 0x800)%N then
    [byteOf (0xC0 + r / 64); byteOf (0x80 + r mod 64)]%N
  else if negb (ValidRune r) then
    [byteOf 0xEF; byteOf 0xBF; byteOf 0xBD]%N
  else if (r <? 0x10000)%N then
    [byteOf (0xE0 + r / 4096); byteOf (0x80 + (r / 64) mod 64);
     byteOf (0x80 + r mod 64)]%N
  else
    [byteOf (0xF0 + r / 262144); byteOf (0x80 + (r / 4096) mod 64);
     byteOf (0x80 + (r / 64) mod 64); byteOf (0x80 + r mod 64)]%N.

(** A decoded piece of a string: the rune and the bytes it came from. *)
Definition chunk := (rune * gostring)%type.

(** [for i, c := range s]: the runes of [s] in order, each with its
    bytes.  [skip] counts the bytes of the current rune that are still to
    be passed over. *)
Fixpoint chunksFrom (skip : nat) (s : gostring) : list chunk :=
  match s with
  | [] => []
  | _ :: t =>
    match skip with
    | S k => chunksFrom k t
    | O =>
      let '(r, w) := DecodeRune s in
      (r, firstn w s) :: chunksFrom (w - 1) t
    end
  end.

Definition chunks (s : gostring) : list chunk := chunksFrom 0 s.

Definition bytes (cs : list chunk) : gostring := flat_map snd cs.

(** The cases of [DecodeRune], as a relation: the shapes of the valid
    encodings of one to four bytes, and the answer for anything else. *)
Inductive Decoded : gostring -> rune -> nat -> Prop :=
| Decoded_nil : Decoded [] RuneError 0
| Decoded_bad b t : Decoded (b :: t) RuneError 1
| Decoded_1 b t : leadWidth (byteN b) = 1 -> Decoded (b :: t) (byteN b) 1
| Decoded_2 b0 b1 t :
    leadWidth (byteN b0) = 2 ->
    inRangeB (acceptLo (byteN b0)) (acceptHi (byteN b0)) b1 = true ->
    Decoded (b0 :: b1 :: t) ((byteN b0 - 0xC0) * 64 + payload b1)%N 2
| Decoded_3 b0 b1 b2 t :
    leadWidth (byteN b0) = 3 ->
    inRangeB (acceptLo (byteN b0)) (acceptHi (byteN b0)) b1 = true ->
    isCont b2 = true ->
    Decoded (b0 :: b1 :: b2 :: t)
            (((byteN b0 - 0xE0) * 64 + payload b1) * 64 + payload b2)%N 3
| Decoded_4 b0 b1 b2 b3 t :
    leadWidth (byteN b0) = 4 ->
    inRangeB (acceptLo (byteN b0)) (acceptHi (byteN b0)) b1 = true ->
    isCont b2 = true -> isCont b3 = true ->
    Decoded (b0 :: b1 :: b2 :: b3 :: t)
            ((((byteN b0 - 0xF0) * 64 + payload b1) * 64 + payload b2) * 64
             + payload b3)%N 4.

(** [Chunked s cs]: [cs] is the sequence of runes read off [s] from left
    to right, each with its bytes. *)
Inductive Chunked : gostring -> list chunk -> Prop :=
| Chunked_nil : Chunked [] []
| Chunked_cons s r w cs :
    s <> [] -> DecodeRune s = (r, w) -> Chunked (skipn w s) cs ->
    Chunked s ((r, firstn w s) :: cs).

(** [unicode.IsSpace]: the Latin-1 spaces and the code points with the
    White_Space property. *)
Definition IsSpace (r : rune) : bool :=
  ((9 <=? r) && (r <=? 13) || (r =? 32) || (r =? 0x85) || (r =? 0xA0)
   || (r =? 0x1680) || (0x2000 <=? r) && (r <=? 0x200A)
   || (r =? 0x2028) || (r =? 0x2029) || (r =? 0x202F) || (r =? 0x205F)
   || (r =? 0x3000))%N.

(** The case tables of package [unicode] above U+007F
    ([unicode.To(unicode.UpperCase, r)] and [unicode.To(unicode.LowerCase, r)]);
    the tables are data of the Go distribution. *)
Class CaseTables := {
  toUpperTable : rune -> rune;
  toLowerTable : rune -> rune
}.

(** [unicode.ToUpper]: ASCII is handled inline, the rest by the table. *)
Definition ToUpper `{CaseTables} (r : rune) : rune :=
  if (r <=? 0x7F)%N then
    (if (97 <=? r) && (r <=? 122) then r - 32 else r)%N
  else toUpperTable r.

(** [unicode.ToLower]. *)
Definition ToLower `{CaseTables} (r : rune) : rune :=
  if (r <=? 0x7F)%N then
    (if (65 <=? r) && (r <=? 90) then r + 32 else r)%N
  else toLowerTable r.

End Utf8.

(** ** Package [strings] *)

Module Strings.

Import Utf8.

Definition spaceChunk (c : chunk) : bool := IsSpace (fst c).

Fixpoint dropWhile {A} (p : A -> bool) (l : list A) : list A :=
  match l with
  | [] => []
  | x :: t => if p x then dropWhile p t else l
  end.

Fixpoint dropWhileEnd {A} (p : A -> bool) (l : list A) : list A :=
  match l with
  | [] => []
  | x :: t =>
    match dropWhileEnd p t with
    | [] => if p x then [] else [x]
    | rest => x :: rest
    end
  end.

Definition trim {A} (p : A -> bool) (l : list A) : list A :=
  dropWhileEnd p (dropWhile p l).

(** [strings.TrimSpace]: [s] without its leading and trailing white
    space, as defined by Unicode.  (The library reads the trailing runes
    backwards with [utf8.DecodeLastRuneInString]; a rune found that way at
    the end of a string is the last one of the left-to-right reading.) *)
Definition TrimSpace (s : gostring) : gostring :=
  bytes (trim spaceChunk (chunks s)).

(** [strings.Map]: every rune of [s] is replaced by the encoding of its
    image (an invalid byte decodes as U+FFFD and is written as such). *)
Definition Map (mapping : rune -> rune) (s : gostring) : gostring :=
  flat_map (fun c => EncodeRune (mapping (fst c))) (chunks s).

Definition ToUpper `{CaseTables} (s : gostring) : gostring :=
  Map Utf8.ToUpper s.

Definition ToLower `{CaseTables} (s : gostring) : gostring :=
  Map Utf8.ToLower s.

Fixpoint hasPrefix (s prefix : gostring) : bool :=
  match prefix, s with
  | [], _ => true
  | p :: prefix', c :: s' => Ascii.eqb p c && hasPrefix s' prefix'
  | _ :: _, [] => false
  end.

(** [strings.Index]: the byte index of the first instance of [substr]
    in [s], [None] for Go's -1. *)
Fixpoint Index (s substr : gostring) : option nat :=
  if hasPrefix s substr then Some 0
  else match s with
       | [] => None
       | _ :: s' => option_map S (Index s' substr)
       end.

Definition Contains (s substr : gostring) : bool :=
  match Index s substr with Some _ => true | None => false end.

(** [strings.Replace(s, old, new, 1)]: the first instance of [old]
    replaced by [new] (an empty [old] matches at the beginning). *)
Definition Replace1 (s old new : gostring) : gostring :=
  match Index s old with
  | Some i => firstn i s ++ new ++ skipn (i + length old) s
  | None => s
  end.

(** The loop of [strings.FieldsFunc(s, unicode.IsSpace)]: [cur] is the
    field being read, if any. *)
Fixpoint fieldsLoop (cur : option gostring) (cs : list chunk)
  : list gostring :=
  match cs with
  | [] => match cur with Some w => [w] | None => [] end
  | c :: cs' =>
    if spaceChunk c then
      match cur with
      | Some w => w :: fieldsLoop None cs'
      | None => fieldsLoop None cs'
      end
    else
      match cur with
      | Some w => fieldsLoop (Some (w ++ snd c)) cs'
      | None => fieldsLoop (Some (snd c)) cs'
      end
  end.

(** [strings.Fields]: [s] split around each run of white space. *)
Definition Fields (s : gostring) : list gostring :=
  fieldsLoop None (chunks s).

(** [strings.Join]. *)
Fixpoint Join (elems : list gostring) (sep : gostring) : gostring :=
  match elems with
  | [] => []
  | [e] => e
  | e :: rest => e ++ sep ++ Join rest sep
  end.

End Strings.

(** ** Package [regexp]

    The expressions of the program use literals, the classes [\d], [\w],
    [\s] and [.], counted and unbounded greedy repetition of a single
    character class, optional groups, capturing groups and the anchors
    [^] and [$].  Go matches leftmost-first: the match starts as early as
    possible and is the one a backtracking search finds first, which is
    what [run] computes.  All classes but [.] are ASCII-only in Go, and [.]
    is any character but a newline, so matching byte by byte gives the
    same submatches as matching rune by rune. *)

Module Regexp.

Inductive class :=
| Digit            (* \d : [0-9] *)
| Word             (* \w : [0-9A-Za-z_] *)
| Space            (* \s : [\t\n\f\r ] *)
| Any              (* .  : anything but \n *)
| Lit (c : ascii).

Definition inClass (k : class) (b : ascii) : bool :=
  let x := byteN b in
  match k with
  | Digit => ((48 <=? x) && (x <=? 57))%N
  | Word => ((48 <=? x) && (x <=? 57) || (65 <=? x) && (x <=? 90)
             || (97 <=? x) && (x <=? 122) || (x =? 95))%N
  | Space => ((x =? 9) || (x =? 10) || (x =? 12) || (x =? 13)
              || (x =? 32))%N
  | Any => negb (x =? 10)%N
  | Lit c => Ascii.eqb c b
  end.

Inductive regex :=
| One (k : class)
| Rep (k : class) (min : nat) (max : option nat)
| Bol
| Eol
| Empty
| Cat (r1 r2 : regex)
| Alt (r1 r2 : regex)
| Opt (r : regex)
| Grp (i : nat) (r : regex).

(** A compiled expression: its syntax and [NumSubexp()]. *)
Record Regexp := { ast : regex; numSubexp : nat }.

Definition captures := list gostring.

Fixpoint setNth (i : nat) (v : gostring) (l : captures) : captures :=
  match i, l with
  | _, [] => []
  | O, _ :: t => v :: t
  | S j, x :: t => x :: setNth j v t
  end.

(** What is left to match: position in the text, rest of the text and
    submatches so far. *)
Definition cont := nat -> gostring -> captures -> option captures.

(** Greedy repetition of a class, between [min] and [max] times. *)
Fixpoint runRep (k : class) (min : nat) (max : option nat)
         (pos : nat) (s : gostring) (caps : captures) (kont : cont)
  : option captures :=
  let stop := match min with
              | O => kont pos s caps
              | S _ => None
              end in
  match s with
  | [] => stop
  | b :: t =>
    if inClass k b && match max with Some O => false | _ => true end
    then match runRep k (pred min) (option_map pred max)
                     (S pos) t caps kont with
         | Some c => Some c
         | None => stop
         end
    else stop
  end.

Fixpoint run (r : regex) (pos : nat) (s : gostring) (caps : captures)
         (kont : cont) : option captures :=
  match r with
  | One k =>
    match s with
    | b :: t => if inClass k b then kont (S pos) t caps else None
    | [] => None
    end
  | Rep k mn mx => runRep k mn mx pos s caps kont
  | Bol => if Nat.eqb pos 0 then kont pos s caps else None
  | Eol => match s with [] => kont pos s caps | _ :: _ => None end
  | Empty => kont pos s caps
  | Cat r1 r2 =>
    run r1 pos s caps (fun pos' s' caps' => run r2 pos' s' caps' kont)
  | Alt r1 r2 =>
    match run r1 pos s caps kont with
    | Some c => Some c
    | None => run r2 pos s caps kont
    end
  | Opt r1 =>
    match run r1 pos s caps kont with
    | Some c => Some c
    | None => kont pos s caps
    end
  | Grp i r1 =>
    run r1 pos s caps
        (fun pos' s' caps' =>
           kont pos' s' (setNth i (firstn (pos' - pos) s) caps'))
  end.

(** The unanchored search: every start position from the left. *)
Fixpoint search (re : Regexp) (pos : nat) (s : gostring)
  : option captures :=
  match run (Grp 0 (ast re)) pos s (repeat [] (S (numSubexp re)))
            (fun _ _ c => Some c) with
  | Some c => Some c
  | None =>
    match s with
    | [] => None
    | _ :: t => search re (S pos) t
    end
  end.

(** [Regexp.FindStringSubmatch]: [None] is Go's nil; in [Some m],
    [m] has [numSubexp + 1] entries, entry 0 the whole match, and a group
    that took no part in the match is the empty string. *)
Definition FindStringSubmatch (re : Regexp) (s : gostring)
  : option captures :=
  search re 0 s.

(** *** What a match guarantees, read off the expression *)

(** The least number of bytes a match of [r] takes. *)
Fixpoint minLen (r : regex) : nat :=
  match r with
  | One _ => 1
  | Rep _ mn _ => mn
  | Bol | Eol | Empty => 0
  | Cat r1 r2 => minLen r1 + minLen r2
  | Alt r1 r2 => Nat.min (minLen r1) (minLen r2)
  | Opt _ => 0
  | Grp _ r1 => minLen r1
  end.

(** Whether group [g] occurs in [r]. *)
Fixpoint touches (g : nat) (r : regex) : bool :=
  match r with
  | Cat r1 r2 | Alt r1 r2 => touches g r1 || touches g r2
  | Opt r1 => touches g r1
  | Grp i r1 => Nat.eqb g i || touches g r1
  | _ => false
  end.

(** A sufficient condition for group [g] to hold a non-empty submatch
    after every match of [r]. *)
Fixpoint sure (g : nat) (r : regex) : bool :=
  match r with
  | Cat r1 r2 => sure g r2 || (sure g r1 && negb (touches g r2))
  | Alt r1 r2 => sure g r1 && sure g r2
  | Grp i r1 =>
    if Nat.eqb g i then Nat.ltb 0 (minLen r1) else sure g r1
  | _ => false
  end.

(** What a match of [r] does to the state of the matcher. *)
Definition stepOf (r : regex) (pos : nat) (s : gostring) (caps : captures)
           (pos' : nat) (s' : gostring) (caps' : captures) : Prop :=
  length caps' = length caps
  /\ (exists m, s = m ++ s' /\ pos' = (pos + length m)%nat
                /\ (minLen r <= length m)%nat)
  /\ (forall g, touches g r = false -> nth g caps' [] = nth g caps [])
  /\ (forall g, sure g r = true -> (g < length caps)%nat ->
                nth g caps' [] <> []).

(** *** The parser of [regexp.Compile], for the syntax above *)

Definition isDigitB (b : ascii) : bool := inClass Digit b.

Fixpoint readNat (acc : nat) (s : gostring) : nat * gostring :=
  match s with
  | b :: t =>
    if isDigitB b
    then readNat (10 * acc + (N.to_nat (byteN b) - 48)) t
    else (acc, s)
  | [] => (acc, s)
  end.

(** The repetition operator following an atom, if any. *)
Definition quantified (atom : regex) (s : gostring)
  : option (regex * gostring) :=
  let rep mn mx rest :=
      match atom with
      | One k => Some (Rep k mn mx, rest)
      | _ => None
      end in
  match s with
  | "+"%char :: rest => rep 1 None rest
  | "*"%char :: rest => rep 0 None rest
  | "?"%char :: rest => Some (Opt atom, rest)
  | "{"%char :: rest =>
    let '(mn, rest1) := readNat 0 rest in
    match rest1 with
    | "}"%char :: rest2 => rep mn (Some mn) rest2
    | ","%char :: "}"%char :: rest2 => rep mn None rest2
    | ","%char :: rest2 =>
      let '(mx, rest3) := readNat 0 rest2 in
      match rest3 with
      | "}"%char :: rest4 => rep mn (Some mx) rest4
      | _ => None
      end
    | _ => None
    end
  | _ => Some (atom, s)
  end.

Definition escapeClass (c : ascii) : class :=
  match c with
  | "d"%char => Digit
  | "w"%char => Word
  | "s"%char => Space
  | _ => Lit c
  end.

(** Alternation, concatenation and atoms; [g] is the number of the next
    capturing group. *)
Fixpoint parseAlt (fuel : nat) (s : gostring) (g : nat)
  : option (regex * gostring * nat) :=
  match fuel with
  | O => None
  | S f =>
    match parseCat f s g with
    | Some (r1, "|"%char :: rest, g1) =>
      match parseAlt f rest g1 with
      | Some (r2, rest2, g2) => Some (Alt r1 r2, rest2, g2)
      | None => None
      end
    | other => other
    end
  end
with parseCat (fuel : nat) (s : gostring) (g : nat)
  : option (regex * gostring * nat) :=
  match fuel with
  | O => None
  | S f =>
    match s with
    | [] => Some (Empty, s, g)
    | ")"%char :: _ => Some (Empty, s, g)
    | "|"%char :: _ => Some (Empty, s, g)
    | _ =>
      match parseAtom f s g with
      | Some (a, rest, g1) =>
        match quantified a rest with
        | Some (q, rest1) =>
          match parseCat f rest1 g1 with
          | Some (Empty, rest2, g2) => Some (q, rest2, g2)
          | Some (r, rest2, g2) => Some (Cat q r, rest2, g2)
          | None => None
          end
        | None => None
        end
      | None => None
      end
    end
  end
with parseAtom (fuel : nat) (s : gostring) (g : nat)
  : option (regex * gostring * nat) :=
  match fuel with
  | O => None
  | S f =>
    match s with
    | "("%char :: "?"%char :: ":"%char :: rest =>
      match parseAlt f rest g with
      | Some (r, ")"%char :: rest1, g1) => Some (r, rest1, g1)
      | _ => None
      end
    | "("%char :: rest =>
      match parseAlt f rest (S g) with
      | Some (r, ")"%char :: rest1, g1) => Some (Grp g r, rest1, g1)
      | _ => None
      end
    | "\"%char :: c :: rest => Some (One (escapeClass c), rest, g)
    | "."%char :: rest => Some (One Any, rest, g)
    | "^"%char :: rest => Some (Bol, rest, g)
    | "$"%char :: rest => Some (Eol, rest, g)
    | c :: rest => Some (One (Lit c), rest, g)
    | [] => None
    end
  end.

(** [regexp.Compile]. *)
Definition Compile (expr : gostring) : option Regexp :=
  match parseAlt (3 * length expr + 3) expr 1 with
  | Some (r, [], g) => Some {| ast := r; numSubexp := g - 1 |}
  | _ => None
  end.

(** An expression that matches nothing. *)
Definition noMatch : Regexp :=
  {| ast := Cat Eol (One Any); numSubexp := 0 |}.

(** [regexp.MustCompile] panics on a malformed expression.  Every
    expression of the program is a constant that compiles
    ([patterns_compile] below), so the second branch is never taken. *)
Definition MustCompile (expr : gostring) : Regexp :=
  match Compile expr with
  | Some re => re
  | None => noMatch
  end.

End Regexp.

(** ** Package [logs]: data *)

Record LogEntry := { Time : gostring; Level : gostring; Message : gostring;
                     JobID : gostring; Error : gostring; Raw : gostring }.

Definition emptyEntry : LogEntry :=
  {| Time := []; Level := []; Message := []; JobID := []; Error := [];
     Raw := [] |}.

Definition isEmpty (s : gostring) : bool :=
  match s with [] => true | _ :: _ => false end.

(** [json.Unmarshal([]byte(jsonPart), &logEntry)] on a zero [LogEntry]:
    [Some e] when the returned error is nil, [e] being the entry filled in.
    The decoder belongs to the Go distribution. *)
Class JsonDecoder := { Unmarshal : gostring -> option LogEntry }.

(** A Go [error] value: a message, or an error wrapped by
    [fmt.Errorf] with the verb [%w]. *)
Inductive goerror :=
| errorString (s : gostring)
| wrapError (prefix : gostring) (err : goerror).

(** [fmt.Sprintf] with the verb [%d]. *)
Definition itoa (z : Z) : gostring :=
  go (NilZero.string_of_int (Z.to_int z)).

(** ** The line classifier *)

Section Classifier.

Context `{Utf8.CaseTables} `{JsonDecoder}.

Import Strings Regexp.

(** [matches[i]] *)
Definition submatch (matches : captures) (i : nat) : gostring :=
  nth i matches [].

(** The level inferred from key words by the recognizers that look for
    [exception] too. *)
Definition keywordLevelExc (message : gostring) : gostring :=
  let messageLower := ToLower message in
  if Contains messageLower (go "error")
     || Contains messageLower (go "failed")
     || Contains messageLower (go "exception")
  then go "ERROR"
  else if Contains messageLower (go "warn") then go "WARN"
  else if Contains messageLower (go "debug") then go "DEBUG"
  else go "INFO".

(** The level inferred from key words by the other recognizers. *)
Definition keywordLevel (message : gostring) : gostring :=
  let messageLower := ToLower message in
  if Contains messageLower (go "error")
     || Contains messageLower (go "failed")
  then go "ERROR"
  else if Contains messageLower (go "warn") then go "WARN"
  else if Contains messageLower (go "debug") then go "DEBUG"
  else go "INFO".

(** The table [patterns] of [parseUniversalLog], in the order of the
    source: the expression and the function building the entry. *)
Definition patterns : list (Regexp * (captures -> LogEntry)) :=
  [ (MustCompile (go "^(\d{4}-\d{2}-\d{2}T\d{2}:\d{2}:\d{2}(?:\.\d+)?Z)\s+(\d{4}-\d{2}-\d{2} \d{2}:\d{2}:\d{2}\.\d{3}) GMT \[(\d+)\] (\w+):\s*(.+)$"),
     fun matches =>
       {| Time := submatch matches 1; Level := submatch matches 4;
          Message := submatch matches 5; JobID := submatch matches 3;
          Error := []; Raw := [] |});
    (MustCompile (go "^(\d{4}-\d{2}-\d{2}T\d{2}:\d{2}:\d{2}(?:\.\d+)?Z)\s+(\d{4}-\d{2}-\d{2} \d{2}:\d{2}:\d{2}\.\d{3}) GMT \[(\d+)\] (STATEMENT):\s*(.+)$"),
     fun matches =>
       {| Time := submatch matches 1; Level := go "INFO";
          Message := go "SQL: " ++ submatch matches 5; JobID := submatch matches 3;
          Error := []; Raw := [] |});
    (MustCompile (go "^(\d{4}-\d{2}-\d{2} \d{2}:\d{2}:\d{2}\.\d{3}) GMT \[(\d+)\] (\w+):\s*(.+)$"),
     fun matches =>
       {| Time := submatch matches 1; Level := submatch matches 3;
          Message := submatch matches 4; JobID := submatch matches 2;
          Error := []; Raw := [] |});
    (MustCompile (go "^(\d{4}-\d{2}-\d{2}T\d{2}:\d{2}:\d{2}(?:\.\d+)?Z)\s+(\w+)\s+(\d{2}:\d{2}:\d{2}\.\d{2})\s+(\w+)\s+(.+)$"),
     fun matches =>
       {| Time := submatch matches 1; Level := submatch matches 4;
          Message := submatch matches 5; JobID := submatch matches 2;
          Error := []; Raw := [] |});
    (MustCompile (go "^(\w+)\s+(\d{2}:\d{2}:\d{2}\.\d{2})\s+(\w+)\s+(.+)$"),
     fun matches =>
       {| Time := submatch matches 2; Level := submatch matches 3;
          Message := submatch matches 4; JobID := submatch matches 1;
          Error := []; Raw := [] |});
    (MustCompile (go "^(\d{4}-\d{2}-\d{2}T\d{2}:\d{2}:\d{2}(?:\.\d+)?Z)$"),
     fun matches =>
       {| Time := submatch matches 1; Level := go "INFO"; Message := [];
          JobID := []; Error := []; Raw := [] |});
    (MustCompile (go "^(\d{4}-\d{2}-\d{2}T\d{2}:\d{2}:\d{2}(?:\.\d+)?Z)?\s*\[(\w+)\]\s*(.+)$"),
     fun matches =>
       {| Time := submatch matches 1; Level := submatch matches 2;
          Message := submatch matches 3; JobID := []; Error := [];
          Raw := [] |});
    (MustCompile (go "^(\d{2}:\d{2}:\d{2}(?:\.\d{3})?)\s+\[(\w+)\]\s+(.+)$"),
     fun matches =>
       {| Time := submatch matches 1; Level := submatch matches 2;
          Message := submatch matches 3; JobID := []; Error := [];
          Raw := [] |});
    (MustCompile (go "^(\d{4}-\d{2}-\d{2}T\d{2}:\d{2}:\d{2}(?:\.\d+)?Z)\s+(.+)$"),
     fun matches =>
       let message := submatch matches 2 in
       {| Time := submatch matches 1; Level := keywordLevelExc message;
          Message := message; JobID := []; Error := []; Raw := [] |});
    (MustCompile (go "^(\d{4}-\d{2}-\d{2} \d{2}:\d{2}:\d{2})\s+(.+)$"),
     fun matches =>
       let message := submatch matches 2 in
       {| Time := submatch matches 1; Level := keywordLevel message;
          Message := message; JobID := []; Error := []; Raw := [] |});
    (MustCompile (go "^(\d{2}:\d{2}:\d{2}(?:\.\d{2,3})?)\s+(.+)$"),
     fun matches =>
       let message := submatch matches 2 in
       {| Time := submatch matches 1; Level := keywordLevel message;
          Message := message; JobID := []; Error := []; Raw := [] |})
  ].

(** [timePattern] of [parseUniversalLog]. *)
Definition timePattern : Regexp :=
  MustCompile (go "(\d{4}-\d{2}-\d{2}T\d{2}:\d{2}:\d{2}(?:\.\d+)?Z|\d{4}-\d{2}-\d{2} \d{2}:\d{2}:\d{2}(?:\.\d+)?|\d{2}:\d{2}:\d{2}(?:\.\d+)?)").

(** The loop [for _, pattern := range patterns]: the entry of the first
    pattern that matches. *)
Fixpoint tryPatterns (ps : list (Regexp * (captures -> LogEntry)))
         (line : gostring) : option LogEntry :=
  match ps with
  | [] => None
  | (regex, parse) :: rest =>
    match FindStringSubmatch regex line with
    | Some matches => Some (parse matches)
    | None => tryPatterns rest line
    end
  end.

Definition parseUniversalLog (line : gostring) : LogEntry :=
  let line := TrimSpace line in
  match tryPatterns patterns line with
  | Some entry => entry
  | None =>
    match FindStringSubmatch timePattern line with
    | Some timeMatch =>
      let message := TrimSpace (Replace1 line (submatch timeMatch 1) []) in
      {| Time := submatch timeMatch 1; Level := keywordLevel message;
         Message := message; JobID := []; Error := []; Raw := [] |}
    | None =>
      {| Time := []; Level := keywordLevelExc line; Message := line;
         JobID := []; Error := []; Raw := [] |}
    end
  end.

(** The first statement of [parseLogLine]: the 8-byte header of the
    Docker stream is cut off. *)
Definition dropDockerHeader (line : gostring) : gostring :=
  if (8 <=? length line)%nat then
    match line with
    | firstByte :: _ =>
      if (byteN firstByte =? 1)%N || (byteN firstByte =? 2)%N
      then skipn 8 line
      else line
    | [] => line
    end
  else line.

Definition parseLogLine (line : gostring) : LogEntry :=
  let line := dropDockerHeader line in
  let line := TrimSpace line in
  match Index line (go "{") with
  | Some jsonStart =>
    let dockerTimestamp :=
        if (0 <? jsonStart)%nat then TrimSpace (firstn jsonStart line)
        else [] in
    let jsonPart := skipn jsonStart line in
    match Unmarshal jsonPart with
    | Some logEntry =>
      if isEmpty (Time logEntry) && negb (isEmpty dockerTimestamp)
      then {| Time := dockerTimestamp; Level := Level logEntry;
              Message := Message logEntry; JobID := JobID logEntry;
              Error := Error logEntry; Raw := Raw logEntry |}
      else logEntry
    | None => parseUniversalLog line
    end
  | None => parseUniversalLog line
  end.

(** The entry that the JSON decoder gives for a trimmed line, if the
    line holds a brace and what starts there is decoded without error. *)
Definition jsonEntry (line : gostring) : option LogEntry :=
  match Index line (go "{") with
  | Some jsonStart => Unmarshal (skipn jsonStart line)
  | None => None
  end.

(** The sixth pattern: a Docker timestamp and nothing else. *)
Definition bareTimestamp : Regexp :=
  fst (nth 5 patterns (noMatch, fun _ => emptyEntry)).

(** ** Levels and the error predicate *)

(** The [switch] of [normalizeLevel]. *)
Definition levelSwitch (level : gostring) : gostring :=
  if streq level (go "WARNING") || streq level (go "WARN") then go "WARN"
  else if streq level (go "ERR") then go "ERROR"
  else if streq level (go "INFORMATION") then go "INFO"
  else if streq level (go "DBG") then go "DEBUG"
  else if streq level (go "LOG") then go "INFO"
  else if streq level (go "STATEMENT") || streq level (go "STMT")
  then go "INFO"
  else if streq level (go "NOTICE") then go "INFO"
  else if streq level (go "FATAL") || streq level (go "PANIC")
  then go "ERROR"
  else if isEmpty level then go "INFO"
  else level.

Definition normalizeLevel (level : gostring) : gostring :=
  let level := ToUpper (TrimSpace level) in
  levelSwitch level.

(** Two strings differ only in the case of ASCII letters when they are
    equal once every byte [a]..[z] is replaced by its capital. *)
Definition foldByte (b : ascii) : ascii :=
  if ((97 <=? byteN b) && (byteN b <=? 122))%N then byteOf (byteN b - 32)
  else b.

Definition asciiCaseVariant (x y : gostring) : Prop :=
  map foldByte x = map foldByte y.

(** Case variants in general, for the letters of every script: two
    strings that are the same text up to the case of their letters, that
    is, that agree once both are put in upper case or once both are put in
    lower case. *)
Definition caseVariant (x y : gostring) : Prop :=
  ToUpper x = ToUpper y \/ ToLower x = ToLower y.

(** The rune read from a string in which the bytes [a]..[z] have been
    replaced by their capitals. *)
Definition foldRune (r : Utf8.rune) : Utf8.rune :=
  if ((97 <=? r) && (r <=? 122))%N then (r - 32)%N else r.

Definition foldChunk (c : Utf8.chunk) : Utf8.chunk :=
  (foldRune (fst c), map foldByte (snd c)).

(** The rune of a piece in upper case, with its encoding. *)
Definition upperChunk (c : Utf8.chunk) : Utf8.chunk :=
  (Utf8.ToUpper (fst c), Utf8.EncodeRune (Utf8.ToUpper (fst c))).

(** What idempotence needs of the upper-case table of the Go
    distribution, for the code points above U+007F: the image of a code
    point is a code point, the capital of a capital is itself, and white
    space is mapped to white space and nothing else is. *)
Record UpperTableLaws : Prop := {
  upper_valid : forall r, (0x7F < r)%N -> Utf8.ValidRune r = true ->
                          Utf8.ValidRune (Utf8.toUpperTable r) = true;
  upper_idem : forall r, (0x7F < r)%N -> Utf8.ValidRune r = true ->
                         Utf8.ToUpper (Utf8.toUpperTable r)
                         = Utf8.toUpperTable r;
  upper_space : forall r, (0x7F < r)%N -> Utf8.ValidRune r = true ->
                          Utf8.IsSpace (Utf8.toUpperTable r)
                          = Utf8.IsSpace r
}.

Definition errorKeywords : list gostring :=
  [ go "error"; go "exception"; go "failed"; go "failure"; go "panic";
    go "fatal";
    go "ошибка"; go "исключение"; go "сбой"; go "критическая ошибка";
    go "stack trace"; go "traceback"; go "crash";
    go "segmentation fault";
    go "timeout"; go "connection refused"; go "permission denied";
    go "not found"; go "already exists"; go "invalid"; go "malformed" ].

Definition isErrorLog (entry : LogEntry) : bool :=
  if streq (ToUpper (Level entry)) (go "ERROR") then true
  else if negb (isEmpty (Error entry)) then true
  else
    let message := ToLower (Message entry) in
    if existsb (fun keyword => Contains message keyword) errorKeywords
    then true
    else if negb (isEmpty (Raw entry)) then
      let rawLower := ToLower (Raw entry) in
      existsb (fun keyword => Contains rawLower keyword) errorKeywords
    else false.

End Classifier.

(** ** Word wrapping *)

Section Wrap.

Import Strings.
Local Open Scope Z_scope.

(** The inner loop [for len(word) > width] of [wrapText]: pieces of
    [width] bytes are appended to [lines], what is left of the word is
    returned.  [None] is a run that gives no result: for a negative
    [width] the slice [word[:width]] panics, and for [width = 0] the loop
    never ends (the fuel, one more than the length of the word, runs out
    only then).  Lengths of strings in memory stay far below [2^63], so
    the sums of lengths are written without wrap-around. *)
Fixpoint hardSplit (fuel : nat) (lines : list gostring) (word : gostring)
         (width : Z) : option (list gostring * gostring) :=
  if len word >? width then
    match fuel with
    | O => None
    | S fuel' =>
      if width <? 0 then None
      else hardSplit fuel' (lines ++ [firstn (Z.to_nat width) word])
                     (skipn (Z.to_nat width) word) width
    end
  else Some (lines, word).

(** One turn of the loop [for _, word := range words]; the state is
    [lines] and the builder [currentLine]. *)
Definition wrapWord (width : Z) (st : list gostring * gostring)
           (word : gostring) : option (list gostring * gostring) :=
  let '(lines, currentLine) := st in
  if len currentLine + len word + 1 >? width then
    let '(lines, currentLine) :=
        if len currentLine >? 0 then (lines ++ [currentLine], [])
        else (lines, currentLine) in
    if len word >? width then
      match hardSplit (S (length word)) lines word width with
      | Some (lines, word) =>
        if len word >? 0 then Some (lines, currentLine ++ word)
        else Some (lines, currentLine)
      | None => None
      end
    else Some (lines, currentLine ++ word)
  else
    let currentLine :=
        if len currentLine >? 0 then currentLine ++ go " "
        else currentLine in
    Some (lines, currentLine ++ word).

Fixpoint wrapWords (width : Z) (st : list gostring * gostring)
         (words : list gostring) : option (list gostring * gostring) :=
  match words with
  | [] => Some st
  | word :: rest =>
    match wrapWord width st word with
    | Some st' => wrapWords width st' rest
    | None => None
    end
  end.

(** [wrapText]; [None] when the call panics or does not return. *)
Definition wrapText (text : gostring) (width : Z)
  : option (list gostring) :=
  if len text <=? width then Some [text]
  else
    let words := Fields text in
    if len words =? 0 then Some [text]
    else
      match wrapWords width ([], []) words with
      | Some (lines, currentLine) =>
        if len currentLine >? 0 then Some (lines ++ [currentLine])
        else Some lines
      | None => None
      end.

(** The pieces into which [wrapText] cuts a word: pieces of [width]
    bytes as long as more than [width] bytes are left, then the rest. *)
Fixpoint chop (fuel : nat) (width : nat) (word : gostring)
  : list gostring :=
  match fuel with
  | O => [word]
  | S fuel' =>
    if (width <? length word)%nat
    then firstn width word :: chop fuel' width (skipn width word)
    else [word]
  end.

Definition pieces (width : Z) (word : gostring) : list gostring :=
  chop (length word) (Z.to_nat width) word.

(** A line made of the words of [group], single spaces between them. *)
Definition lineOf (group : list gostring) : gostring :=
  Join group (go " ").

(** What the loop of [wrapText] keeps true: [groups] are the lines
    already written, [group] the words of the line being built. *)
Definition wrapped (width : Z) (groups : list (list gostring))
           (group : list gostring) (st : list gostring * gostring) : Prop :=
  fst st = map lineOf groups
  /\ snd st = lineOf group
  /\ Forall (fun g => g <> []) groups
  /\ Forall (fun l => 0 < len l <= width) (fst st)
  /\ len (snd st) <= width
  /\ (group <> [] -> snd st <> []).

End Wrap.

(** ** The viewer: model, [Update] and the slice taken by [View] *)

Record model := {
  logEntries : list LogEntry;
  ready : bool;
  err : option goerror;
  containerID : gostring;
  width : Z;
  height : Z;
  wrapLines : bool;
  showErrorsOnly : bool;
  logCount : Z;
  requestedTail : Z;
  scrollOffset : Z
}.

(** The messages of the Bubble Tea program: [tea.WindowSizeMsg],
    [tea.KeyMsg] (by its [String()]), [logMsg], [errorMsg], [infoMsg], and
    any other message. *)
Inductive Msg :=
| WindowSizeMsg (Width Height : Z)
| KeyMsg (key : gostring)
| logMsg (entry : LogEntry)
| errorMsg (e : goerror)
| infoMsg (message : gostring)
| otherMsg.

(** The command returned by [Update]: [tea.Quit] or nil. *)
Inductive Cmd := Quit | noCmd.

Section Viewer.

Context `{Utf8.CaseTables}.
Local Open Scope Z_scope.

(** [initialModel]; [termSize] is the result of [term.GetSize], [None]
    when it fails. *)
Definition initialModel (termSize : option (Z * Z))
           (containerID : gostring) : model :=
  let '(width, height) :=
      match termSize with
      | Some wh => wh
      | None => (80, 24)
      end in
  {| logEntries := []; ready := false; err := None;
     containerID := containerID; width := width; height := height;
     wrapLines := true; showErrorsOnly := false; logCount := 0;
     requestedTail := 0; scrollOffset := 0 |}.

Definition setScroll (m : model) (v : Z) : model :=
  {| logEntries := logEntries m; ready := ready m; err := err m;
     containerID := containerID m; width := width m; height := height m;
     wrapLines := wrapLines m; showErrorsOnly := showErrorsOnly m;
     logCount := logCount m; requestedTail := requestedTail m;
     scrollOffset := v |}.

Definition keyIs (key : gostring) (names : list gostring) : bool :=
  existsb (streq key) names.

Definition Update (m : model) (msg : Msg) : model * Cmd :=
  match msg with
  | WindowSizeMsg w h =>
    ({| logEntries := logEntries m; ready := ready m; err := err m;
        containerID := containerID m; width := w; height := h;
        wrapLines := wrapLines m; showErrorsOnly := showErrorsOnly m;
        logCount := logCount m; requestedTail := requestedTail m;
        scrollOffset := scrollOffset m |}, noCmd)
  | KeyMsg key =>
    if keyIs key [go "ctrl+c"; go "q"] then (m, Quit)
    else if keyIs key [go "w"] then
      ({| logEntries := logEntries m; ready := ready m; err := err m;
          containerID := containerID m; width := width m;
          height := height m; wrapLines := negb (wrapLines m);
          showErrorsOnly := showErrorsOnly m; logCount := logCount m;
          requestedTail := requestedTail m;
          scrollOffset := scrollOffset m |}, noCmd)
    else if keyIs key [go "e"] then
      ({| logEntries := logEntries m; ready := ready m; err := err m;
          containerID := containerID m; width := width m;
          height := height m; wrapLines := wrapLines m;
          showErrorsOnly := negb (showErrorsOnly m);
          logCount := logCount m; requestedTail := requestedTail m;
          scrollOffset := scrollOffset m |}, noCmd)
    else if keyIs key [go "up"; go "k"] then
      (if scrollOffset m >? 0
       then setScroll m (GoInt.sub (scrollOffset m) 1)
       else m, noCmd)
    else if keyIs key [go "down"; go "j"] then
      (setScroll m (GoInt.add (scrollOffset m) 1), noCmd)
    else if keyIs key [go "home"; go "g"] then (setScroll m 0, noCmd)
    else if keyIs key [go "end"; go "G"] then
      (setScroll m
         (GoInt.add (GoInt.sub (len (logEntries m)) (height m)) 5),
       noCmd)
    else if keyIs key [go "pageup"] then
      (if scrollOffset m >? height m
       then setScroll m (GoInt.sub (scrollOffset m) (height m))
       else setScroll m 0, noCmd)
    else if keyIs key [go "pagedown"] then
      (setScroll m (GoInt.add (scrollOffset m) (height m)), noCmd)
    else (m, noCmd)
  | logMsg v =>
    let entries := logEntries m ++ [v] in
    ({| logEntries := entries; ready := true; err := err m;
        containerID := containerID m; width := width m;
        height := height m; wrapLines := wrapLines m;
        showErrorsOnly := showErrorsOnly m;
        logCount := GoInt.add (logCount m) 1;
        requestedTail := requestedTail m;
        scrollOffset :=
          if len entries >? GoInt.sub (height m) 3
          then GoInt.sub (len entries) (GoInt.sub (height m) 3)
          else scrollOffset m |}, noCmd)
  | errorMsg e =>
    ({| logEntries := logEntries m; ready := true; err := Some e;
        containerID := containerID m; width := width m;
        height := height m; wrapLines := wrapLines m;
        showErrorsOnly := showErrorsOnly m; logCount := logCount m;
        requestedTail := requestedTail m;
        scrollOffset := scrollOffset m |}, noCmd)
  | infoMsg _ => (m, noCmd)
  | otherMsg => (m, noCmd)
  end.

(** The filter loop of [View]: the entries that pass the errors-only
    filter. *)
Definition visibleEntries (m : model) : list LogEntry :=
  filter (fun entry => negb (showErrorsOnly m && negb (isErrorLog entry)))
         (logEntries m).

(** The indices [start] and [end] that [View] computes. *)
Definition viewBounds (m : model) : Z * Z :=
  let n := len (visibleEntries m) in
  let start := scrollOffset m in
  let availableHeight := GoInt.sub (height m) 3 in
  let end_ := GoInt.add start availableHeight in
  let end_ := if end_ >? n then n else end_ in
  let start :=
      if start >=? n then
        let start := GoInt.sub n 1 in
        if start <? 0 then 0 else start
      else start in
  (start, end_).

(** The slice expression [s[low:high]]: it panics ([None]) unless
    [0 <= low <= high <= cap(s)].  [View] never takes [high] above
    [len(s)], which is at most [cap(s)], so the length stands for the
    capacity here. *)
Definition slice {A} (s : list A) (low high : Z) : option (list A) :=
  if (0 <=? low) && (low <=? high) && (high <=? len s)
  then Some (firstn (Z.to_nat (high - low)) (skipn (Z.to_nat low) s))
  else None.

(** [visibleEntries[start:end]], the entries that [View] renders once
    the model is ready and holds no error. *)
Definition visibleSlice (m : model) : option (list LogEntry) :=
  let '(start, end_) := viewBounds m in
  slice (visibleEntries m) start end_.

(** The states the program reaches from [m0] by [Update]. *)
Inductive reachable (m0 : model) : model -> Prop :=
| reach_init : reachable m0 m0
| reach_step m msg : reachable m0 m ->
                     reachable m0 (fst (Update m msg)).

End Viewer.

(** The event loop of the program: [Update] applied to the messages in
    the order of their arrival. *)
Definition runMsgs (m : model) (msgs : list Msg) : model :=
  fold_left (fun m msg => fst (Update m msg)) msgs m.

(** The records among the messages, in order. *)
Definition recordsOf (msgs : list Msg) : list LogEntry :=
  flat_map (fun msg => match msg with logMsg e => [e] | _ => [] end) msgs.

(** The last error among the messages, if any. *)
Definition lastError (msgs : list Msg) : option goerror :=
  fold_left (fun acc msg => match msg with errorMsg e => Some e | _ => acc end)
            msgs None.


(** The model that [RunLogs] hands to the program: the initial model with
    the two options of the command line. *)
Definition startModel (termSize : option (Z * Z)) (containerID : gostring)
           (errorsOnly : bool) (tail : Z) : model :=
  let m := initialModel termSize containerID in
  {| logEntries := logEntries m; ready := ready m; err := err m;
     containerID := containerID; width := width m; height := height m;
     wrapLines := wrapLines m; showErrorsOnly := errorsOnly;
     logCount := logCount m; requestedTail := tail;
     scrollOffset := scrollOffset m |}.

(** ** The stream pump *)

(** What [bufio.Scanner] yields from the log reader: the lines for which
    [Scan()] returns true, then the value of [Err()] (nil at end of
    stream, the read error otherwise). *)
Record LogStream := { scanned : list gostring; scanErr : option goerror }.

(** The answers of the Docker client to the three calls of [streamLogs]:
    [client.NewClientWithOpts], [ContainerInspect] and [ContainerLogs]. *)
Record Docker := {
  newClient : option goerror;
  containerInspect : option goerror;
  containerLogs : goerror + LogStream
}.

(** What [streamLogs] does to the outside: calls of the Docker client,
    messages sent to the program with [p.Send], and lines printed. *)
Inductive effect :=
| CallNewClient
| CallContainerInspect
| CallContainerLogs (tailStr : gostring)
| Send (msg : Msg)
| Printf (text : gostring).

Section Pump.

Context `{Utf8.CaseTables} `{JsonDecoder}.
Local Open Scope Z_scope.

(** The loop [for scanner.Scan()]: [done i] tells whether [ctx.Done()]
    is closed when line number [i] has been scanned.  The result is the
    effects of the loop and the line count with which it ends, [None]
    when the function returned from inside the loop. *)
Fixpoint scanLoop (done : nat -> bool) (i : nat) (lines : list gostring)
         (lineCount : Z) : list effect * option Z :=
  match lines with
  | [] => ([], Some lineCount)
  | line :: rest =>
    if done i then ([], None)
    else
      let logEntry := parseLogLine line in
      let '(effs, r) :=
          scanLoop done (S i) rest (GoInt.add lineCount 1) in
      (Send (logMsg logEntry) :: effs, r)
  end.

Definition streamLogs (docker : Docker) (done : nat -> bool) (tail : Z)
  : list effect :=
  CallNewClient ::
  match newClient docker with
  | Some e =>
    [Send (errorMsg (wrapError (go "failed to create Docker client: ") e))]
  | None =>
    CallContainerInspect ::
    match containerInspect docker with
    | Some e => [Send (errorMsg (wrapError (go "container not found: ") e))]
    | None =>
      let tailStr := if tail >? 0 then itoa tail else go "all" in
      CallContainerLogs tailStr ::
      match containerLogs docker with
      | inl e =>
        [Send (errorMsg
                 (wrapError (go "failed to get container logs: ") e))]
      | inr stream =>
        let '(effs, r) := scanLoop done 0 (scanned stream) 0 in
        match r with
        | None => effs
        | Some lineCount =>
          effs ++
          [Printf (go "DEBUG: Read " ++ itoa lineCount
                      ++ go " lines from Docker API" ++ [ascii_of_nat 10]);
           Send (infoMsg (go "Read " ++ itoa lineCount
                             ++ go " lines from Docker API"))]
          ++ match scanErr stream with
             | Some e =>
               [Send (errorMsg (wrapError (go "error reading logs: ") e))]
             | None => []
             end
        end
      end
    end
  end.

(** The messages among the effects, in order. *)
Definition sent (effs : list effect) : list Msg :=
  flat_map (fun e => match e with Send m => [m] | _ => [] end) effs.

Definition isErrorMsg (m : Msg) : bool :=
  match m with errorMsg _ => true | _ => false end.

Definition isLogMsg (m : Msg) : bool :=
  match m with logMsg _ => true | _ => false end.

Definition isLogsCall (e : effect) : bool :=
  match e with CallContainerLogs _ => true | _ => false end.

(** The line count after [lines] have been read, starting from [n]. *)
Definition countedFrom (n : Z) (lines : list gostring) : Z :=
  fold_left (fun c _ => GoInt.add c 1) lines n.

End Pump.

(** ** Instances for running the program

    On ASCII text the case tables are never consulted, and on a line
    without a brace the JSON decoder is never called.  The two instances
    below let the program be evaluated on such inputs: case tables that
    leave every rune above U+007F alone, and a decoder that accepts
    nothing. *)

Definition asciiCase : Utf8.CaseTables :=
  {| Utf8.toUpperTable := fun r => r; Utf8.toLowerTable := fun r => r |}.

Definition noJson : JsonDecoder := {| Unmarshal := fun _ => None |}.

(** Case tables that know one letter beyond ASCII, with the entries of
    the Go distribution for it: the Kelvin sign U+212A is a capital, and
    its small letter is the ASCII letter k. *)
Definition kelvinCase : Utf8.CaseTables :=
  {| Utf8.toUpperTable := fun r => r;
     Utf8.toLowerTable := fun r => if (r =? 0x212A)%N then 0x6B%N else r |}.

(** The Kelvin sign in UTF-8: the bytes E2 84 AA. *)
Definition kelvinSign : gostring := Utf8.EncodeRune 0x212A%N.

(** Inputs of the examples of the specification. *)

Definition postgresErrorLine : gostring :=
  go "2025-07-19T00:26:54.972365013Z 2025-07-19 00:26:54.972 GMT [100] ERROR: relation "
     ++ [dquote] ++ go "mat_object" ++ [dquote] ++ go " does not exist".

Definition postgresFatalLine : gostring :=
  go "2025-07-19T00:26:48.173730135Z 2025-07-19 00:26:48.173 GMT [1] FATAL:  the database system is shutting down".

Definition refusedLine : gostring :=
  go "something bad happened, connection refused".

Definition bareTimestampLine : gostring :=
  go "2025-07-19T00:26:48.124332552Z".

(** An entry with a message only. *)
Definition plainEntry (message : gostring) : LogEntry :=
  {| Time := []; Level := go "INFO"; Message := message; JobID := [];
     Error := []; Raw := [] |}.

(** A ready model without error, given its buffer, height, filter and
    scroll offset. *)
Definition readyModel (entries : list LogEntry) (h : Z) (errorsOnly : bool)
           (offset : Z) : model :=
  {| logEntries := entries; ready := true; err := None;
     containerID := go "0123456789abcdef"; width := 80; height := h;
     wrapLines := true; showErrorsOnly := errorsOnly;
     logCount := len entries; requestedTail := 0; scrollOffset := offset |}.

(** A stream of two lines that breaks with a read error. *)
Definition brokenDocker : Docker :=
  {| newClient := None; containerInspect := None;
     containerLogs :=
       inr {| scanned := [go "12:00:01 starting"; go "12:00:02 ready"];
              scanErr := Some (errorString (go "unexpected EOF")) |} |}.

(** A Docker daemon that does not know the container. *)
Definition missingDocker : Docker :=
  {| newClient := None;
     containerInspect := Some (errorString (go "No such container: web"));
     containerLogs := inl (errorString (go "No such container: web")) |}.

(** A container that ends without having written a line. *)
Definition silentDocker : Docker :=
  {| newClient := None; containerInspect := None;
     containerLogs := inr {| scanned := []; scanErr := None |} |}.

(** A container that writes two lines and ends. *)
Definition cleanDocker : Docker :=
  {| newClient := None; containerInspect := None;
     containerLogs :=
       inr {| scanned := [go "12:00:01 starting"; go "12:00:02 ready"];
              scanErr := None |} |}.

(** ** What the text of a match looks like

    [Lang r m]: the text [m] is one that the expression [r] can match
    (the anchors match the empty text).  [groupLang g r m]: [r] holds a
    group number [g] whose expression can match [m]. *)

Fixpoint Lang (r : Regexp.regex) (m : gostring) : Prop :=
  match r with
  | Regexp.One k => exists b, m = [b] /\ Regexp.inClass k b = true
  | Regexp.Rep k mn mx =>
    Forall (fun b => Regexp.inClass k b = true) m
    /\ (mn <= length m)%nat
    /\ match mx with Some x => (length m <= x)%nat | None => True end
  | Regexp.Bol | Regexp.Eol | Regexp.Empty => m = []
  | Regexp.Cat r1 r2 => exists m1 m2, m = m1 ++ m2 /\ Lang r1 m1 /\ Lang r2 m2
  | Regexp.Alt r1 r2 => Lang r1 m \/ Lang r2 m
  | Regexp.Opt r1 => Lang r1 m \/ m = []
  | Regexp.Grp _ r1 => Lang r1 m
  end.

Fixpoint groupLang (g : nat) (r : Regexp.regex) (m : gostring) : Prop :=
  match r with
  | Regexp.Cat r1 r2 | Regexp.Alt r1 r2 => groupLang g r1 m \/ groupLang g r2 m
  | Regexp.Opt r1 => groupLang g r1 m
  | Regexp.Grp i r1 => (g = i /\ Lang r1 m) \/ groupLang g r1 m
  | _ => False
  end.

(** ** The text of a record on the screen *)

(** [extractMessage]: the message, the job and the error of a record,
    separated by spaces; the raw text when there is none of them. *)
Definition extractMessage (entry : LogEntry) : gostring :=
  let parts := [] in
  let parts := if negb (isEmpty (Message entry))
               then parts ++ [Message entry] else parts in
  let parts := if negb (isEmpty (JobID entry))
               then parts ++ [go "jobID=" ++ JobID entry] else parts in
  let parts := if negb (isEmpty (Error entry))
               then parts ++ [go "error=" ++ Error entry] else parts in
  if (len parts =? 0)%Z && negb (isEmpty (Raw entry)) then Raw entry
  else Strings.Join parts (go " ").

(** The spellings that [normalizeLevel] replaces. *)
Definition levelAliases : list gostring :=
  [ go "WARNING"; go "ERR"; go "INFORMATION"; go "DBG"; go "LOG";
    go "STATEMENT"; go "STMT"; go "NOTICE"; go "FATAL"; go "PANIC" ].

(** A word in the sense of [\w+]: letters, digits and underscores, at
    least one. *)
Definition isWord (s : gostring) : Prop :=
  s <> [] /\ Forall (fun b => Regexp.inClass Regexp.Word b = true) s.

(** A record of JSON origin, as a decoder may return it. *)
Definition jobEntry : LogEntry :=
  {| Time := []; Level := go "error"; Message := go "job failed";
     JobID := go "42"; Error := go "disk full"; Raw := [] |}.

(** ** The time of a record on the screen *)

(** Package [time], for what [formatTime] asks of it: [ParseFormat layout
    value] is [time.Parse(layout, value)] followed by
    [Format("15:04:05.000")] on the time read, [None] when [Parse] returns
    an error.  The reading of the clock, [time.Now()] in the same format,
    is an argument of [formatTime]. *)
Class TimePkg := { ParseFormat : gostring -> gostring -> option gostring }.

Definition RFC3339Nano : gostring := go "2006-01-02T15:04:05.999999999Z07:00".
Definition RFC3339 : gostring := go "2006-01-02T15:04:05Z07:00".

(** [strings.Split(s, sep)] for a separator that is not empty, the only
    way the program calls it (for an empty separator the library cuts
    after every UTF-8 sequence instead).  Every turn of the loop takes
    [sep] away, so the length of [s] is enough fuel. *)
Fixpoint splitLoop (fuel : nat) (s sep : gostring) : list gostring :=
  match fuel with
  | O => [s]
  | S fuel' =>
    match Strings.Index s sep with
    | Some i => firstn i s :: splitLoop fuel' (skipn (i + length sep) s) sep
    | None => [s]
    end
  end.

Definition Split (s sep : gostring) : list gostring :=
  splitLoop (length s) s sep.

Section FormatTime.

Context `{TimePkg}.

Import Strings Regexp.

Definition formats : list gostring :=
  [ RFC3339Nano;
    RFC3339;
    go "2006-01-02T15:04:05.999999999Z";
    go "2006-01-02T15:04:05Z";
    go "2006-01-02 15:04:05.999";
    go "2006-01-02 15:04:05";
    go "15:04:05.99";
    go "15:04:05" ].

(** The loop [for _, format := range formats]: the first layout that
    reads the text. *)
Fixpoint tryFormats (formats : list gostring) (timeStr : gostring)
  : option gostring :=
  match formats with
  | [] => None
  | format :: rest =>
    match ParseFormat format timeStr with
    | Some t => Some t
    | None => tryFormats rest timeStr
    end
  end.

(** [timePattern] of [formatTime]. *)
Definition formatTime_timePattern : Regexp :=
  MustCompile (go "(\d{2}:\d{2}:\d{2}(?:\.\d{2,3})?)").

(** [formatTime]; [now] is what the clock gives if it is read.  [None]
    would be a panic of the index expression [Split(...)[1]]. *)
Definition formatTime (now timeStr : gostring) : option gostring :=
  if isEmpty timeStr then Some now
  else
    match tryFormats formats timeStr with
    | Some t => Some t
    | None =>
      match FindStringSubmatch formatTime_timePattern timeStr with
      | Some match_ =>
        let timeOnly := submatch match_ 1 in
        if negb (Contains timeOnly (go ".")) then Some (timeOnly ++ go ".000")
        else
          match nth_error (Split timeOnly (go ".")) 1 with
          | Some fraction =>
            if (len fraction =? 2)%Z then Some (timeOnly ++ go "0")
            else Some timeOnly
          | None => None
          end
      | None => Some now
      end
    end.

End FormatTime.

(** A time of day as the screen shows it: [HH:MM:SS.mmm]. *)
Definition clockShape (t : gostring) : bool :=
  match t with
  | [h1; h2; c1; m1; m2; c2; s1; s2; dot; f1; f2; f3] =>
    forallb Regexp.isDigitB [h1; h2; m1; m2; s1; s2; f1; f2; f3]
    && Ascii.eqb c1 ":" && Ascii.eqb c2 ":" && Ascii.eqb dot "."
  | _ => false
  end.

(** A [time] package that reads no text at all. *)
Definition noTime : TimePkg := {| ParseFormat := fun _ _ => None |}.


(** ** The screen *)

(** A [lipgloss.Style] as the program builds them: a foreground colour
    and possibly bold.  [Render] is the method of the library. *)
Record Style := { foreground : gostring; bold : bool }.

Class Lipgloss := { Render : Style -> gostring -> gostring }.

Definition errorStyle : Style := {| foreground := go "#FF0000"; bold := true |}.
Definition loadingStyle : Style :=
  {| foreground := go "#FFFF00"; bold := true |}.
Definition headerStyle : Style := {| foreground := go "#00FFFF"; bold := true |}.
Definition warnStyle : Style := {| foreground := go "#FFAA00"; bold := true |}.
Definition infoStyle : Style := {| foreground := go "#00FF00"; bold := false |}.
Definition debugStyle : Style := {| foreground := go "#888888"; bold := false |}.
Definition timeStyle : Style := {| foreground := go "#00AAFF"; bold := false |}.
Definition footerStyle : Style := {| foreground := go "#888888"; bold := false |}.

Definition newline : gostring := [ascii_of_nat 10].

(** [err.Error()], which the verb [%v] prints. *)
Fixpoint errorText (e : goerror) : gostring :=
  match e with
  | errorString s => s
  | wrapError prefix e' => prefix ++ errorText e'
  end.

(** The expression [(error=.+?)(\s|$)] of [highlightErrorInMessage]
    has a reluctant repetition, which the expressions of the classifier do
    not have.  A match starts at an instance of [error=] that is followed
    by a character other than a newline; after that character it goes on
    up to and including the first white space, or to the end of the text
    if there is none: at every character the search first tries to stop.
    [reluctantEnd s] is the number of bytes that the match takes from
    [s], the text after that first character. *)
Fixpoint reluctantEnd (s : gostring) : nat :=
  match s with
  | [] => 0
  | b :: t =>
    if Regexp.inClass Regexp.Space b then 1 else S (reluctantEnd t)
  end.

(** [errorPattern.ReplaceAllStringFunc(message, repl)]: the matches are
    taken from left to right, each one starting where the one before has
    ended.  The fuel is the length of the text. *)
Fixpoint replaceErrors (fuel : nat) (repl : gostring -> gostring)
         (s : gostring) : gostring :=
  match fuel with
  | O => s
  | S fuel' =>
    match Strings.Index s (go "error=") with
    | None => s
    | Some i =>
      match skipn (i + 6) s with
      | b :: t =>
        if Regexp.inClass Regexp.Any b then
          let n := (6 + 1 + reluctantEnd t)%nat in
          firstn i s ++ repl (firstn n (skipn i s))
                 ++ replaceErrors fuel' repl (skipn (i + n) s)
        else
          firstn (S i) s ++ replaceErrors fuel' repl (skipn (S i) s)
      | [] => s
      end
    end
  end.

Section Screen.

Context `{Utf8.CaseTables} `{TimePkg} `{Lipgloss}.
Local Open Scope Z_scope.

Definition highlightErrorInMessage (message : gostring) (errorStyle : Style)
  : gostring :=
  replaceErrors (length message) (fun match_ => Render errorStyle match_)
                message.

(** The body of the loop of [View] over the entries to show: the lines
    that one entry adds to [logLines].  [now] is the reading of the clock
    for this entry.  [None] when [wrapText] gives no result. *)
Definition renderEntry (m : model) (now : gostring) (entry : LogEntry)
  : option (list gostring) :=
  match formatTime now (Time entry) with
  | None => None
  | Some formattedTime =>
    let line := Render timeStyle formattedTime ++ go " " in
    let level := normalizeLevel (Level entry) in
    let levelStr := go "[" ++ level ++ go "]" in
    let line :=
        line ++ (if streq level (go "ERROR") then Render errorStyle levelStr
                 else if streq level (go "WARN") then Render warnStyle levelStr
                 else if streq level (go "INFO") then Render infoStyle levelStr
                 else if streq level (go "DEBUG")
                      then Render debugStyle levelStr
                 else levelStr) in
    let line := line ++ go " " in
    let message := extractMessage entry in
    let message :=
        if streq level (go "ERROR") && negb (isEmpty (Error entry))
        then highlightErrorInMessage message errorStyle
        else message in
    let finalLine := line ++ message in
    if wrapLines m then wrapText finalLine (GoInt.sub (width m) 2)
    else Some [finalLine]
  end.

(** The loop itself; [clock i] is the reading of the clock while entry
    number [i] of the slice is rendered. *)
Fixpoint renderEntries (m : model) (clock : nat -> gostring) (i : nat)
         (entries : list LogEntry) : option (list gostring) :=
  match entries with
  | [] => Some []
  | entry :: rest =>
    match renderEntry m (clock i) entry with
    | None => None
    | Some lines =>
      match renderEntries m clock (S i) rest with
      | None => None
      | Some logLines => Some (lines ++ logLines)
      end
    end
  end.

(** [logLines] as [View] joins them: the lines of the entries of the
    slice, cut to [availableHeight]. *)
Definition viewLines (m : model) (clock : nat -> gostring)
  : option (list gostring) :=
  match visibleSlice m with
  | None => None
  | Some entries =>
    match renderEntries m clock 0 entries with
    | None => None
    | Some logLines =>
      let availableHeight := GoInt.sub (height m) 3 in
      if len logLines >? availableHeight
      then slice logLines 0 availableHeight
      else Some logLines
    end
  end.

(** [View]; [None] when the call panics or does not return. *)
Definition View (m : model) (clock : nat -> gostring) : option gostring :=
  match err m with
  | Some e =>
    Some (Render errorStyle
                 (go "Error: " ++ errorText e ++ newline ++ newline
                     ++ go "Press 'q' or Ctrl+C to quit"))
  | None =>
    if negb (ready m) then
      Some (Render loadingStyle
                   (go "Loading logs..." ++ newline ++ newline
                       ++ go "Press 'q' or Ctrl+C to quit"))
    else
      match slice (containerID m) 0 12 with
      | None => None
      | Some shortID =>
        let header :=
            Render headerStyle
                   (go "Container logs: " ++ shortID
                       ++ go " | Requested: " ++ itoa (requestedTail m)
                       ++ go " | Loaded: " ++ itoa (logCount m)
                       ++ go " logs") in
        match viewLines m clock with
        | None => None
        | Some logLines =>
          let availableHeight := GoInt.sub (height m) 3 in
          let logs := Strings.Join logLines newline in
          let wrapStatus :=
              if wrapLines m
              then go " | Word wrap: ON (press 'w' to toggle)"
              else go " | Word wrap: OFF (press 'w' to toggle)" in
          let errorFilterStatus :=
              if showErrorsOnly m
              then go " | Error filter: ON (press 'e' to toggle)"
              else go " | Error filter: OFF (press 'e' to toggle)" in
          let scrollStatus :=
              if len (visibleEntries m) >? availableHeight
              then go " | Scroll: " ++ itoa (GoInt.add (scrollOffset m) 1)
                      ++ go "/" ++ itoa (len (visibleEntries m))
                      ++ go " (↑↓ j/k pgup/pgdn home/end)"
              else [] in
          let footer :=
              Render footerStyle
                     (newline ++ go "Press 'q' or Ctrl+C to quit"
                              ++ wrapStatus ++ errorFilterStatus
                              ++ scrollStatus) in
          Some (header ++ newline ++ logs ++ footer)
        end
      end
  end.

End Screen.

(** A renderer that adds nothing to the text. *)
Definition plainRender : Lipgloss := {| Render := fun _ text => text |}.

(** A renderer that puts the text between angle brackets. *)
Definition markRender : Lipgloss :=
  {| Render := fun _ text => go "<" ++ text ++ go ">" |}.

(** The clock of the examples. *)
Definition noon : nat -> gostring := fun _ => go "12:00:00.000".

(** ** Messages that keep the screen safe *)

(** A message that cannot take the model to a state in which [View]
    panics: a resize to at least 3 rows and 3 columns, the key end or G
    only when the buffer is long enough for the offset it sets
    ([len(logEntries) - height + 5]) not to be negative, and any other
    message. *)
Definition safeIn (m : model) (msg : Msg) : bool :=
  match msg with
  | WindowSizeMsg w h =>
    ((2 <? w) && (w <? 2 ^ 31) && (3 <=? h) && (h <? 2 ^ 31))%Z
  | KeyMsg key =>
    if keyIs key [go "end"; go "G"]
    then (height m - 5 <=? len (logEntries m))%Z
    else true
  | _ => true
  end.

(** Every message is safe in the state in which it arrives. *)
Fixpoint allSafe (m : model) (msgs : list Msg) : bool :=
  match msgs with
  | [] => true
  | msg :: rest => safeIn m msg && allSafe (fst (Update m msg)) rest
  end.

(** What such messages keep true, [k] being the number of messages
    received so far. *)
Definition viewerInv (k : Z) (m : model) : Prop :=
  (0 <= scrollOffset m <= k * 2 ^ 31
   /\ 3 <= height m < 2 ^ 31
   /\ 2 < width m < 2 ^ 31
   /\ 12 <= len (containerID m)
   /\ len (logEntries m) <= k)%Z.

(** ** Matches with their anchors

    [Matches r pos m rest]: the expression [r] can match the text [m]
    found at position [pos] and followed by [rest].  Unlike [Lang] it
    keeps what the anchors ask for. *)

Fixpoint Matches (r : Regexp.regex) (pos : nat) (m rest : gostring) : Prop :=
  match r with
  | Regexp.One k => exists b, m = [b] /\ Regexp.inClass k b = true
  | Regexp.Rep k mn mx =>
    Forall (fun b => Regexp.inClass k b = true) m
    /\ (mn <= length m)%nat
    /\ match mx with Some x => (length m <= x)%nat | None => True end
  | Regexp.Bol => m = [] /\ pos = 0%nat
  | Regexp.Eol => m = [] /\ rest = []
  | Regexp.Empty => m = []
  | Regexp.Cat r1 r2 =>
    exists m1 m2, m = m1 ++ m2 /\ Matches r1 pos m1 (m2 ++ rest)
                  /\ Matches r2 (pos + length m1) m2 rest
  | Regexp.Alt r1 r2 => Matches r1 pos m rest \/ Matches r2 pos m rest
  | Regexp.Opt r1 => Matches r1 pos m rest \/ m = []
  | Regexp.Grp _ r1 => Matches r1 pos m rest
  end.

(** Every match of [r] is a match of [r']. *)
Definition subsumes (r r' : Regexp.regex) : Prop :=
  forall pos m rest, Matches r pos m rest -> Matches r' pos m rest.

(** ** The bytes of a match, read off the expression *)

(** All 256 bytes. *)
Definition allBytes : list ascii := map ascii_of_nat (seq 0 256).

(** Every byte of the class [k] satisfies [p]. *)
Definition classWithin (p : ascii -> bool) (k : Regexp.class) : bool :=
  forallb (fun b => implb (Regexp.inClass k b) (p b)) allBytes.

(** A sufficient condition for every match of [r] to hold a byte that
    satisfies [p]. *)
Fixpoint hasByte (p : ascii -> bool) (r : Regexp.regex) : bool :=
  match r with
  | Regexp.One k => classWithin p k
  | Regexp.Rep k mn _ => Nat.ltb 0 mn && classWithin p k
  | Regexp.Cat r1 r2 => hasByte p r1 || hasByte p r2
  | Regexp.Alt r1 r2 => hasByte p r1 && hasByte p r2
  | Regexp.Grp _ r1 => hasByte p r1
  | _ => false
  end.

(** A sufficient condition for every byte of every match of [r] to
    satisfy [p]. *)
Fixpoint onlyBytes (p : ascii -> bool) (r : Regexp.regex) : bool :=
  match r with
  | Regexp.One k | Regexp.Rep k _ _ => classWithin p k
  | Regexp.Cat r1 r2 | Regexp.Alt r1 r2 => onlyBytes p r1 && onlyBytes p r2
  | Regexp.Opt r1 | Regexp.Grp _ r1 => onlyBytes p r1
  | Regexp.Bol | Regexp.Eol | Regexp.Empty => true
  end.

(** The expression begins with [^]; it ends with [$]. *)
Definition startsBol (r : Regexp.regex) : bool :=
  match r with
  | Regexp.Cat Regexp.Bol _ => true
  | _ => false
  end.

Fixpoint endsEol (r : Regexp.regex) : bool :=
  match r with
  | Regexp.Eol => true
  | Regexp.Cat _ r2 => endsEol r2
  | _ => false
  end.

Definition isSpaceByte (b : ascii) : bool := Regexp.inClass Regexp.Space b.

(** A line that is a time of day and nothing else. *)
Definition timeOfDayLine : gostring := go "12:00:01".

(** A line with a time of day in its middle. *)
Definition startedLine : gostring := go "server started at 12:00:01".


(** * Properties *)

(** ** UTF-8 *)

Section Utf8Facts.

Import Utf8.

Lemma byteN_lt b : (byteN b < 256)%N.
Proof. apply N_ascii_bounded. Qed.

Lemma byteN_byteOf n : (n < 256)%N -> byteN (byteOf n) = n.
Proof. apply N_ascii_embedding. Qed.

Lemma byteOf_byteN b : byteOf (byteN b) = b.
Proof. apply ascii_N_embedding. Qed.

Ltac boolN :=
  repeat match goal with
  | H : _ && _ = true |- _ => apply andb_prop in H; destruct H
  | H : (_ <? _)%N = true |- _ => apply N.ltb_lt in H
  | H : (_ <? _)%N = false |- _ => apply N.ltb_ge in H
  | H : (_ <=? _)%N = true |- _ => apply N.leb_le in H
  | H : (_ <=? _)%N = false |- _ => apply N.leb_gt in H
  | H : (_ =? _)%N = true |- _ => apply N.eqb_eq in H
  | H : (_ =? _)%N = false |- _ => apply N.eqb_neq in H
  end.

Ltac evalEqb :=
  repeat match goal with
  | H : context [N.eqb ?a ?b] |- _ =>
    let v := eval vm_compute in (N.eqb a b) in
    match v with
    | true => change (N.eqb a b) with true in H
    | false => change (N.eqb a b) with false in H
    end
  | |- context [N.eqb ?a ?b] =>
    let v := eval vm_compute in (N.eqb a b) in
    match v with
    | true => change (N.eqb a b) with true
    | false => change (N.eqb a b) with false
    end
  end.

Ltac caseEq x v :=
  let E := fresh "E" in
  destruct (N.eq_dec x v) as [E|E];
  [ rewrite ?E in *; evalEqb; cbv iota in *
  | replace (x =? v)%N with false in *
      by (symmetry; apply N.eqb_neq; exact E) ].

Lemma leadWidth_spec x :
  match leadWidth x with
  | 0 => (0x80 <= x < 0xC2 \/ 0xF5 <= x)%N
  | 1 => (x < 0x80)%N
  | 2 => (0xC2 <= x < 0xE0)%N
  | 3 => (0xE0 <= x < 0xF0)%N
  | 4 => (0xF0 <= x < 0xF5)%N
  | _ => False
  end.
Proof.
  unfold leadWidth.
  destruct (x <? 0x80)%N eqn:E1; boolN; [lia|].
  destruct (x <? 0xC2)%N eqn:E2; boolN; [lia|].
  destruct (x <? 0xE0)%N eqn:E3; boolN; [lia|].
  destruct (x <? 0xF0)%N eqn:E4; boolN; [lia|].
  destruct (x <? 0xF5)%N eqn:E5; boolN; lia.
Qed.

Lemma leadWidth_1 x : (x < 0x80)%N -> leadWidth x = 1.
Proof.
  intros Hx. pose proof (leadWidth_spec x) as L.
  destruct (leadWidth x) as [|[|[|[|[|n]]]]]; try reflexivity; lia.
Qed.

Lemma leadWidth_2 x : (0xC2 <= x < 0xE0)%N -> leadWidth x = 2.
Proof.
  intros Hx. pose proof (leadWidth_spec x) as L.
  destruct (leadWidth x) as [|[|[|[|[|n]]]]]; try reflexivity; lia.
Qed.

Lemma leadWidth_3 x : (0xE0 <= x < 0xF0)%N -> leadWidth x = 3.
Proof.
  intros Hx. pose proof (leadWidth_spec x) as L.
  destruct (leadWidth x) as [|[|[|[|[|n]]]]]; try reflexivity; lia.
Qed.

Lemma leadWidth_4 x : (0xF0 <= x < 0xF5)%N -> leadWidth x = 4.
Proof.
  intros Hx. pose proof (leadWidth_spec x) as L.
  destruct (leadWidth x) as [|[|[|[|[|n]]]]]; try reflexivity; lia.
Qed.

Lemma DecodeRune_cases s :
  Decoded s (fst (DecodeRune s)) (snd (DecodeRune s)).
Proof.
  destruct s as [|b0 t]; [constructor|].
  unfold DecodeRune.
  destruct (leadWidth (byteN b0)) as [|[|[|[|[|n]]]]] eqn:Ew; simpl.
  - destruct t; constructor.
  - destruct t; now constructor.
  - destruct t as [|b1 t]; [constructor|].
    destruct (inRangeB _ _ b1) eqn:E1; simpl; now constructor.
  - destruct t as [|b1 [|b2 t]]; try constructor.
    destruct (inRangeB _ _ b1) eqn:E1; simpl; [|constructor].
    destruct (isCont b2) eqn:E2; simpl; now constructor.
  - destruct t as [|b1 [|b2 [|b3 t]]]; try constructor.
    destruct (inRangeB _ _ b1) eqn:E1; simpl; [|constructor].
    destruct (isCont b2) eqn:E2; simpl; [|constructor].
    destruct (isCont b3) eqn:E3; simpl; now constructor.
  - destruct t; constructor.
Qed.

Lemma Decoded_valid s r w : Decoded s r w -> ValidRune r = true.
Proof.
  intros D. unfold ValidRune.
  destruct D as [ | b t | b t Hw | b0 b1 t Hw H1 | b0 b1 b2 t Hw H1 H2
                  | b0 b1 b2 b3 t Hw H1 H2 H3 ].
  - reflexivity.
  - reflexivity.
  - pose proof (leadWidth_spec (byteN b)) as L. rewrite Hw in L.
    apply orb_true_iff. left. apply N.ltb_lt. lia.
  - pose proof (leadWidth_spec (byteN b0)) as L. rewrite Hw in L.
    unfold inRangeB, payload, acceptLo, acceptHi in *.
    caseEq (byteN b0) 0xE0%N; [lia|].
    caseEq (byteN b0) 0xF0%N; [lia|].
    caseEq (byteN b0) 0xF4%N; [lia|].
    caseEq (byteN b0) 0xED%N; [lia|].
    boolN. apply orb_true_iff. left. apply N.ltb_lt. lia.
  - pose proof (leadWidth_spec (byteN b0)) as L. rewrite Hw in L.
    unfold inRangeB, isCont, payload, acceptLo, acceptHi in *.
    caseEq (byteN b0) 0xE0%N;
      [boolN; apply orb_true_iff; left; apply N.ltb_lt; lia|].
    caseEq (byteN b0) 0xF0%N; [lia|].
    caseEq (byteN b0) 0xF4%N; [lia|].
    caseEq (byteN b0) 0xED%N;
      [boolN; apply orb_true_iff; left; apply N.ltb_lt; lia|].
    boolN.
    destruct (N.lt_ge_cases (byteN b0) 0xED).
    { apply orb_true_iff. left. apply N.ltb_lt. lia. }
    apply orb_true_iff. right. apply andb_true_iff.
    split; apply N.leb_le; lia.
  - pose proof (leadWidth_spec (byteN b0)) as L. rewrite Hw in L.
    unfold inRangeB, isCont, payload, acceptLo, acceptHi in *.
    apply orb_true_iff. right. apply andb_true_iff.
    caseEq (byteN b0) 0xE0%N; [lia|].
    caseEq (byteN b0) 0xED%N; [lia|].
    caseEq (byteN b0) 0xF0%N; [boolN; split; apply N.leb_le; lia|].
    caseEq (byteN b0) 0xF4%N; boolN; split; apply N.leb_le; lia.
Qed.

Lemma Decoded_width s r w :
  Decoded s r w -> s <> [] -> (1 <= w <= length s)%nat.
Proof.
  intros D Hs. destruct D; simpl; try lia. congruence.
Qed.

Lemma DecodeRune_valid s r w : DecodeRune s = (r, w) -> ValidRune r = true.
Proof.
  intros E. pose proof (DecodeRune_cases s) as D. rewrite E in D.
  exact (Decoded_valid D).
Qed.

Lemma DecodeRune_width s r w :
  DecodeRune s = (r, w) -> s <> [] -> (1 <= w <= length s)%nat.
Proof.
  intros E. pose proof (DecodeRune_cases s) as D. rewrite E in D.
  exact (Decoded_width D).
Qed.

(** Decoding looks at the bytes of the rune only: what follows them can be
    cut off or replaced. *)
Lemma DecodeRune_app s1 s2 :
  s1 <> [] -> (snd (DecodeRune (s1 ++ s2)) <= length s1)%nat ->
  DecodeRune s1 = DecodeRune (s1 ++ s2).
Proof.
  destruct s1 as [|b0 t1]; [congruence|]. intros _.
  simpl app. unfold DecodeRune.
  destruct (leadWidth (byteN b0)) as [|[|[|[|[|n]]]]] eqn:Ew.
  - destruct t1, s2; reflexivity.
  - reflexivity.
  - destruct t1 as [|b1 t1]; [|reflexivity].
    destruct s2 as [|c1 s2]; [reflexivity|]. simpl.
    destruct (inRangeB _ _ c1); simpl; [lia|reflexivity].
  - destruct t1 as [|b1 [|b2 t1]]; [| |reflexivity].
    + destruct s2 as [|c1 [|c2 s2]]; try reflexivity. simpl.
      destruct (inRangeB _ _ c1 && isCont c2); simpl; [lia|reflexivity].
    + destruct s2 as [|c1 s2]; [reflexivity|]. simpl.
      destruct (inRangeB _ _ b1 && isCont c1); simpl; [lia|reflexivity].
  - destruct t1 as [|b1 [|b2 [|b3 t1]]]; [| | |reflexivity].
    + destruct s2 as [|c1 [|c2 [|c3 s2]]]; try reflexivity. simpl.
      destruct (inRangeB _ _ c1 && isCont c2 && isCont c3); simpl;
        [lia|reflexivity].
    + destruct s2 as [|c1 [|c2 s2]]; try reflexivity. simpl.
      destruct (inRangeB _ _ b1 && isCont c1 && isCont c2); simpl;
        [lia|reflexivity].
    + destruct s2 as [|c1 s2]; [reflexivity|]. simpl.
      destruct (inRangeB _ _ b1 && isCont b2 && isCont c1); simpl;
        [lia|reflexivity].
  - destruct t1, s2; reflexivity.
Qed.

(** The base-64 digits of a code point. *)
Lemma digits64 (r : N) :
  exists q0 m0 q1 m1 q2 m2 : N,
    ((r / 64) mod 64 = m1 /\ r / 4096 = q1 /\ (r / 4096) mod 64 = m2
     /\ r / 262144 = q2 /\ r / 64 = q0 /\ r mod 64 = m0
     /\ r = 64 * q0 + m0 /\ m0 < 64 /\ q0 = 64 * q1 + m1 /\ m1 < 64
     /\ q1 = 64 * q2 + m2 /\ m2 < 64)%N.
Proof.
  exists (r / 64)%N, (r mod 64)%N, (r / 4096)%N, ((r / 64) mod 64)%N,
    (r / 262144)%N, ((r / 4096) mod 64)%N.
  assert (Hdd : (r / 4096 = r / 64 / 64)%N).
  { rewrite N.Div0.div_div. reflexivity. }
  assert (Hddd : (r / 262144 = r / 4096 / 64)%N).
  { rewrite N.Div0.div_div. reflexivity. }
  repeat split.
  - apply N.div_mod. lia.
  - apply N.mod_lt. lia.
  - rewrite Hdd. apply N.div_mod. lia.
  - apply N.mod_lt. lia.
  - rewrite Hddd. apply N.div_mod. lia.
  - apply N.mod_lt. lia.
Qed.

(** Decoding undoes encoding. *)
Lemma DecodeRune_EncodeRune r rest :
  ValidRune r = true ->
  DecodeRune (EncodeRune r ++ rest) = (r, length (EncodeRune r)).
Proof.
  intros Hv. unfold EncodeRune.
  destruct (r <? 0x80)%N eqn:E1; boolN.
  { cbn [app length]. unfold DecodeRune.
    rewrite (byteN_byteOf (n:=r)) by lia.
    rewrite (leadWidth_1 (x:=r)) by lia. reflexivity. }
  destruct (digits64 r)
    as (q0 & m0 & q1 & m1 & q2 & m2 & Hm1 & Hq1 & Hm2 & Hq2 & Hq0 & Hm0
        & D0 & M0 & D1 & M1 & D2 & M2).
  rewrite ?Hm1, ?Hm2, ?Hq1, ?Hq2, ?Hq0, ?Hm0.
  clear Hm1 Hq1 Hm2 Hq2 Hq0 Hm0.
  destruct (r <? 0x800)%N eqn:E2; boolN.
  { cbn [app length]. unfold DecodeRune.
    rewrite (byteN_byteOf (n:=0xC0 + q0)) by lia.
    rewrite (leadWidth_2 (x:=0xC0 + q0)) by lia.
    unfold inRangeB, payload, acceptLo, acceptHi.
    rewrite (byteN_byteOf (n:=0x80 + m0)) by lia.
    replace (0xC0 + q0 =? 0xE0)%N with false
      by (symmetry; apply N.eqb_neq; lia).
    replace (0xC0 + q0 =? 0xF0)%N with false
      by (symmetry; apply N.eqb_neq; lia).
    replace (0xC0 + q0 =? 0xED)%N with false
      by (symmetry; apply N.eqb_neq; lia).
    replace (0xC0 + q0 =? 0xF4)%N with false
      by (symmetry; apply N.eqb_neq; lia).
    replace (0x80 <=? 0x80 + m0)%N with true
      by (symmetry; apply N.leb_le; lia).
    replace (0x80 + m0 <=? 0xBF)%N with true
      by (symmetry; apply N.leb_le; lia).
    cbn [andb]. f_equal. lia. }
  rewrite Hv. cbn [negb].
  unfold ValidRune in Hv.
  destruct (r <? 0x10000)%N eqn:E3; boolN.
  { cbn [app length]. unfold DecodeRune.
    rewrite (byteN_byteOf (n:=0xE0 + q1)) by lia.
    rewrite (leadWidth_3 (x:=0xE0 + q1)) by lia.
    unfold inRangeB, isCont, payload, acceptLo, acceptHi.
    rewrite (byteN_byteOf (n:=0x80 + m1)) by lia.
    rewrite (byteN_byteOf (n:=0x80 + m0)) by lia.
    replace (0xE0 + q1 =? 0xF0)%N with false
      by (symmetry; apply N.eqb_neq; lia).
    replace (0xE0 + q1 =? 0xF4)%N with false
      by (symmetry; apply N.eqb_neq; lia).
    assert (Hlo : ((if (0xE0 + q1 =? 0xE0)%N then 0xA0 else 0x80)
                   <=? 0x80 + m1)%N = true).
    { apply N.leb_le.
      destruct (0xE0 + q1 =? 0xE0)%N eqn:Ee; boolN; lia. }
    assert (Hhi : (0x80 + m1
                   <=? (if (0xE0 + q1 =? 0xED)%N
                        then 0x9F else 0xBF))%N = true).
    { apply N.leb_le.
      destruct (0xE0 + q1 =? 0xED)%N eqn:Ee; boolN; [|lia].
      apply orb_prop in Hv. destruct Hv as [Hv|Hv]; boolN; lia. }
    rewrite Hlo, Hhi.
    replace (0x80 <=? 0x80 + m0)%N with true
      by (symmetry; apply N.leb_le; lia).
    replace (0x80 + m0 <=? 0xBF)%N with true
      by (symmetry; apply N.leb_le; lia).
    cbn [andb]. f_equal. lia. }
  assert (Hr : (r <= 0x10FFFF)%N).
  { apply orb_prop in Hv. destruct Hv as [Hv|Hv]; boolN; lia. }
  cbn [app length]. unfold DecodeRune.
  rewrite (byteN_byteOf (n:=0xF0 + q2)) by lia.
  rewrite (leadWidth_4 (x:=0xF0 + q2)) by lia.
  unfold inRangeB, isCont, payload, acceptLo, acceptHi.
  rewrite (byteN_byteOf (n:=0x80 + m2)) by lia.
  rewrite (byteN_byteOf (n:=0x80 + m1)) by lia.
  rewrite (byteN_byteOf (n:=0x80 + m0)) by lia.
  replace (0xF0 + q2 =? 0xE0)%N with false
    by (symmetry; apply N.eqb_neq; lia).
  replace (0xF0 + q2 =? 0xED)%N with false
    by (symmetry; apply N.eqb_neq; lia).
  assert (Hlo : ((if (0xF0 + q2 =? 0xF0)%N then 0x90 else 0x80)
                 <=? 0x80 + m2)%N = true).
  { apply N.leb_le.
    destruct (0xF0 + q2 =? 0xF0)%N eqn:Ee; boolN; lia. }
  assert (Hhi : (0x80 + m2
                 <=? (if (0xF0 + q2 =? 0xF4)%N then 0x8F else 0xBF))%N
                = true).
  { apply N.leb_le.
    destruct (0xF0 + q2 =? 0xF4)%N eqn:Ee; boolN; lia. }
  rewrite Hlo, Hhi.
  replace (0x80 <=? 0x80 + m1)%N with true
    by (symmetry; apply N.leb_le; lia).
  replace (0x80 + m1 <=? 0xBF)%N with true
    by (symmetry; apply N.leb_le; lia).
  replace (0x80 <=? 0x80 + m0)%N with true
    by (symmetry; apply N.leb_le; lia).
  replace (0x80 + m0 <=? 0xBF)%N with true
    by (symmetry; apply N.leb_le; lia).
  cbn [andb]. f_equal. lia.
Qed.

Lemma EncodeRune_length r : (1 <= length (EncodeRune r))%nat.
Proof.
  unfold EncodeRune.
  destruct (r <? 0x80)%N, (r <? 0x800)%N, (negb (ValidRune r)),
    (r <? 0x10000)%N; simpl; lia.
Qed.

(** *** Reading a string rune by rune *)

Lemma chunksFrom_skip k : forall s,
  (k <= length s)%nat -> chunksFrom k s = chunks (skipn k s).
Proof.
  induction k as [|k IH]; intros s Hk.
  - reflexivity.
  - destruct s as [|b t]; simpl in *; [lia|].
    apply IH. lia.
Qed.

Lemma chunks_cons b t :
  chunks (b :: t)
  = (fst (DecodeRune (b :: t)),
     firstn (snd (DecodeRune (b :: t))) (b :: t))
      :: chunks (skipn (snd (DecodeRune (b :: t))) (b :: t)).
Proof.
  unfold chunks at 1. cbn [chunksFrom].
  destruct (DecodeRune (b :: t)) as [r w] eqn:E.
  pose proof (DecodeRune_width E ltac:(discriminate)) as Hw.
  cbn [fst snd]. f_equal.
  destruct w as [|w]; [lia|].
  cbn [skipn]. replace (S w - 1)%nat with w by lia.
  apply chunksFrom_skip. simpl in Hw. lia.
Qed.

Lemma chunks_Chunked s : Chunked s (chunks s).
Proof.
  remember (length s) as n eqn:Hn. revert s Hn.
  induction n as [n IH] using lt_wf_ind. intros s Hn.
  destruct s as [|b t]; [constructor|].
  rewrite chunks_cons.
  destruct (DecodeRune (b :: t)) as [r w] eqn:E.
  pose proof (DecodeRune_width E ltac:(discriminate)) as Hw.
  cbn [fst snd]. constructor; [discriminate|exact E|].
  apply (IH (length (skipn w (b :: t)))); [|reflexivity].
  rewrite length_skipn. subst n. lia.
Qed.

Lemma Chunked_cons_eq s r w bs cs :
  s <> [] -> DecodeRune s = (r, w) -> bs = firstn w s ->
  Chunked (skipn w s) cs -> Chunked s ((r, bs) :: cs).
Proof. intros Hs E -> Hc. now constructor. Qed.

Lemma Chunked_unique s cs : Chunked s cs -> forall cs', Chunked s cs' -> cs = cs'.
Proof.
  induction 1 as [|s r w cs Hs E Hc IH]; intros cs' H'.
  - inversion H'; subst; [reflexivity|congruence].
  - inversion H' as [|s' r' w' cs2 Hs' E' Hc']; subst; [congruence|].
    rewrite E in E'. inversion E'; subst. f_equal. apply IH. exact Hc'.
Qed.

Lemma Chunked_chunks s cs : Chunked s cs -> chunks s = cs.
Proof.
  intros Hc. symmetry. exact (Chunked_unique Hc (chunks_Chunked s)).
Qed.

Lemma bytes_app a b : bytes (a ++ b) = bytes a ++ bytes b.
Proof. unfold bytes. apply flat_map_app. Qed.

Lemma Chunked_bytes s cs : Chunked s cs -> bytes cs = s.
Proof.
  induction 1 as [|s r w cs Hs E Hc IH]; [reflexivity|].
  unfold bytes in *. cbn [flat_map snd]. rewrite IH.
  apply firstn_skipn.
Qed.

Lemma Chunked_valid s cs :
  Chunked s cs -> Forall (fun c => ValidRune (fst c) = true) cs.
Proof.
  induction 1 as [|s r w cs Hs E Hc IH]; constructor; [|exact IH].
  exact (DecodeRune_valid _ E).
Qed.

Lemma Chunked_nonempty s cs :
  Chunked s cs -> Forall (fun c => snd c <> []) cs.
Proof.
  induction 1 as [|s r w cs Hs E Hc IH]; constructor; [|exact IH].
  pose proof (DecodeRune_width E Hs) as Hw. cbn [snd].
  destruct s; [congruence|]. destruct w; [lia|]. discriminate.
Qed.

(** A run of consecutive runes of a string is read the same way when the
    run stands alone. *)
Lemma Chunked_app_r cs1 : forall s cs2,
  Chunked s (cs1 ++ cs2) -> Chunked (bytes cs2) cs2.
Proof.
  induction cs1 as [|c cs1 IH]; intros s cs2 Hc.
  - cbn [app] in Hc. now rewrite (Chunked_bytes Hc).
  - inversion Hc; subst. eapply IH; eassumption.
Qed.

Lemma Chunked_app_l cs1 : forall s cs2,
  Chunked s (cs1 ++ cs2) -> Chunked (bytes cs1) cs1.
Proof.
  induction cs1 as [|c cs1 IH]; intros s cs2 Hc.
  - constructor.
  - inversion Hc as [|s' r w cs Hs E Ht]; subst.
    pose proof (IH _ _ Ht) as Hl.
    pose proof (DecodeRune_width E Hs) as Hw.
    pose proof (Chunked_bytes Ht) as Hb. rewrite bytes_app in Hb.
    assert (Hlen : length (firstn w s) = w) by (rewrite length_firstn; lia).
    assert (Hsplit : s = (firstn w s ++ bytes cs1) ++ bytes cs2).
    { rewrite <- app_assoc, Hb. symmetry. apply firstn_skipn. }
    assert (Hne : firstn w s ++ bytes cs1 <> []).
    { destruct (firstn w s); [simpl in Hlen; lia|discriminate]. }
    assert (Hd : DecodeRune (firstn w s ++ bytes cs1) = (r, w)).
    { rewrite (@DecodeRune_app (firstn w s ++ bytes cs1) (bytes cs2) Hne).
      - rewrite <- Hsplit. exact E.
      - rewrite <- Hsplit, E. cbn [snd]. rewrite length_app. lia. }
    unfold bytes at 1. cbn [flat_map snd]. fold (bytes cs1).
    apply Chunked_cons_eq with (w := w).
    + exact Hne.
    + exact Hd.
    + rewrite firstn_app, Hlen, Nat.sub_diag, firstn_O, app_nil_r.
      rewrite <- Hlen at 2. symmetry. apply firstn_all.
    + rewrite skipn_app, Hlen, Nat.sub_diag. cbn [skipn].
      rewrite <- Hlen at 1. rewrite skipn_all. exact Hl.
Qed.

Lemma Chunked_infix s pre mid post :
  Chunked s (pre ++ mid ++ post) -> Chunked (bytes mid) mid.
Proof.
  intros Hc. apply Chunked_app_r in Hc. now apply Chunked_app_l in Hc.
Qed.

(** The runes of a sequence of encodings are the runes encoded. *)
Lemma Chunked_encoded (rs : list rune) :
  Forall (fun r => ValidRune r = true) rs ->
  Chunked (flat_map EncodeRune rs) (map (fun r => (r, EncodeRune r)) rs).
Proof.
  induction 1 as [|r rs Hr Hrs IH]; [constructor|].
  cbn [flat_map map].
  pose proof (EncodeRune_length r) as Hl.
  pose proof (@DecodeRune_EncodeRune r (flat_map EncodeRune rs) Hr) as Hd.
  apply Chunked_cons_eq with (w := length (EncodeRune r)).
  - destruct (EncodeRune r); [simpl in Hl; lia|discriminate].
  - exact Hd.
  - rewrite firstn_app, Nat.sub_diag, firstn_O, app_nil_r.
    symmetry. apply firstn_all.
  - rewrite skipn_app, Nat.sub_diag, skipn_all. exact IH.
Qed.

End Utf8Facts.


(** ** Trimming *)

Section TrimFacts.

Import Strings.

Variable A : Type.
Variable p : A -> bool.

Lemma dropWhile_suffix (l : list A) : exists pre, l = pre ++ dropWhile p l.
Proof.
  induction l as [|x t IH]; [exists []; reflexivity|].
  cbn [dropWhile]. destruct (p x).
  - destruct IH as [pre Hpre]. exists (x :: pre). cbn [app]. now f_equal.
  - exists []. reflexivity.
Qed.

Lemma dropWhileEnd_prefix (l : list A) :
  exists post, l = dropWhileEnd p l ++ post.
Proof.
  induction l as [|x t IH]; [exists []; reflexivity|].
  destruct IH as [post Hpost]. cbn [dropWhileEnd].
  destruct (dropWhileEnd p t) as [|y r] eqn:E.
  - destruct (p x).
    + exists (x :: t). reflexivity.
    + exists post. cbn [app] in *. now f_equal.
  - exists post. cbn [app] in *. now f_equal.
Qed.

Lemma trim_infix (l : list A) :
  exists pre post, l = pre ++ trim p l ++ post.
Proof.
  unfold trim.
  destruct (dropWhile_suffix l) as [pre Hpre].
  destruct (dropWhileEnd_prefix (dropWhile p l)) as [post Hpost].
  exists pre, post. now rewrite <- Hpost.
Qed.

(** A list is trimmed when neither its first nor its last element
    satisfies [p]. *)
Lemma dropWhile_head (l : list A) :
  match dropWhile p l with [] => True | x :: _ => p x = false end.
Proof.
  induction l as [|x t IH]; cbn [dropWhile]; [exact I|].
  destruct (p x) eqn:E; [exact IH|exact E].
Qed.

Lemma dropWhile_fixed (l : list A) :
  match l with [] => True | x :: _ => p x = false end ->
  dropWhile p l = l.
Proof.
  destruct l as [|x t]; [reflexivity|]. cbn [dropWhile]. now intros ->.
Qed.

Lemma dropWhileEnd_head (l : list A) :
  match l with [] => True | x :: _ => p x = false end ->
  match dropWhileEnd p l with [] => True | x :: _ => p x = false end.
Proof.
  destruct l as [|x t]; [intros _; exact I|]. intros Hx.
  cbn [dropWhileEnd]. destruct (dropWhileEnd p t); [rewrite Hx|]; exact Hx.
Qed.

Lemma dropWhileEnd_idem (l : list A) :
  dropWhileEnd p (dropWhileEnd p l) = dropWhileEnd p l.
Proof.
  induction l as [|x t IH]; [reflexivity|].
  cbn [dropWhileEnd]. destruct (dropWhileEnd p t) as [|y r] eqn:E.
  - destruct (p x) eqn:Ex; [reflexivity|].
    cbn [dropWhileEnd]. now rewrite Ex.
  - cbn [dropWhileEnd]. fold (dropWhileEnd p (y :: r)).
    change (match dropWhileEnd p (y :: r) with
            | [] => if p x then [] else [x]
            | a :: l0 => x :: a :: l0 end = x :: y :: r).
    now rewrite IH.
Qed.

Lemma trim_idem (l : list A) : trim p (trim p l) = trim p l.
Proof.
  unfold trim.
  rewrite (dropWhile_fixed (dropWhileEnd p (dropWhile p l))).
  - apply dropWhileEnd_idem.
  - apply dropWhileEnd_head. apply dropWhile_head.
Qed.

End TrimFacts.

Section TrimMap.

Import Strings.

Variables A B : Type.
Variable f : A -> B.
Variable p : A -> bool.
Variable q : B -> bool.

Lemma dropWhile_map (l : list A) :
  Forall (fun x => q (f x) = p x) l ->
  dropWhile q (map f l) = map f (dropWhile p l).
Proof.
  induction 1 as [|x t Hx Ht IH]; [reflexivity|].
  cbn [map dropWhile]. rewrite Hx. destruct (p x); [exact IH|reflexivity].
Qed.

Lemma dropWhileEnd_map (l : list A) :
  Forall (fun x => q (f x) = p x) l ->
  dropWhileEnd q (map f l) = map f (dropWhileEnd p l).
Proof.
  induction 1 as [|x t Hx Ht IH]; [reflexivity|].
  cbn [map dropWhileEnd]. rewrite IH, Hx.
  destruct (dropWhileEnd p t); cbn [map]; [destruct (p x)|]; reflexivity.
Qed.

Lemma Forall_dropWhile (P : A -> Prop) (l : list A) :
  Forall P l -> Forall P (dropWhile p l).
Proof.
  induction 1 as [|x t Hx Ht IH]; [constructor|].
  cbn [dropWhile]. destruct (p x); [exact IH|now constructor].
Qed.

Lemma Forall_dropWhileEnd (P : A -> Prop) (l : list A) :
  Forall P l -> Forall P (dropWhileEnd p l).
Proof.
  induction 1 as [|x t Hx Ht IH]; [constructor|].
  cbn [dropWhileEnd]. destruct (dropWhileEnd p t).
  - destruct (p x); constructor; [exact Hx|constructor].
  - now constructor.
Qed.

Lemma Forall_trim (P : A -> Prop) (l : list A) :
  Forall P l -> Forall P (trim p l).
Proof.
  intros Hl. unfold trim. apply Forall_dropWhileEnd.
  now apply Forall_dropWhile.
Qed.

Lemma trim_map (l : list A) :
  Forall (fun x => q (f x) = p x) l ->
  trim q (map f l) = map f (trim p l).
Proof.
  intros Hl. unfold trim. rewrite (dropWhile_map Hl).
  apply dropWhileEnd_map. now apply Forall_dropWhile.
Qed.

End TrimMap.

(** ** [strings.TrimSpace] and [strings.Map] on runes *)

Section StringsFacts.

Import Utf8 Strings.

Lemma TrimSpace_Chunked s :
  Chunked (TrimSpace s) (trim spaceChunk (chunks s)).
Proof.
  unfold TrimSpace.
  destruct (trim_infix spaceChunk (chunks s)) as (pre & post & Hc).
  pose proof (chunks_Chunked s) as Hs. rewrite Hc in Hs.
  exact (Chunked_infix _ _ _ Hs).
Qed.

Lemma TrimSpace_chunks s :
  chunks (TrimSpace s) = trim spaceChunk (chunks s).
Proof. apply Chunked_chunks, TrimSpace_Chunked. Qed.

Lemma TrimSpace_idem s : TrimSpace (TrimSpace s) = TrimSpace s.
Proof.
  unfold TrimSpace at 1. rewrite TrimSpace_chunks, trim_idem. reflexivity.
Qed.

Lemma Map_Chunked (f : rune -> rune) s :
  Forall (fun c => ValidRune (f (fst c)) = true) (chunks s) ->
  Chunked (Map f s)
          (map (fun c => (f (fst c), EncodeRune (f (fst c)))) (chunks s)).
Proof.
  intros Hv. unfold Map.
  assert (E1 : flat_map (fun c => EncodeRune (f (fst c))) (chunks s)
               = flat_map EncodeRune (map (fun c => f (fst c)) (chunks s))).
  { induction (chunks s) as [|c cs IH]; [reflexivity|].
    cbn [flat_map map]. rewrite IH; [reflexivity|]. now inversion Hv. }
  assert (E2 : map (fun c => (f (fst c), EncodeRune (f (fst c)))) (chunks s)
               = map (fun r => (r, EncodeRune r))
                     (map (fun c => f (fst c)) (chunks s))).
  { rewrite map_map. reflexivity. }
  rewrite E1, E2. apply Chunked_encoded.
  rewrite Forall_map. exact Hv.
Qed.

End StringsFacts.

(** ** Level canonicalization *)

Section LevelFacts.

Import Utf8 Strings.

Context `{CaseTables}.

Ltac decideN :=
  repeat match goal with
  | |- context [(?a <=? ?b)%N] =>
    first [ replace (a <=? b)%N with true
              by (symmetry; apply N.leb_le; lia)
          | replace (a <=? b)%N with false
              by (symmetry; apply N.leb_gt; lia) ]
  | |- context [(?a <? ?b)%N] =>
    first [ replace (a <? b)%N with true
              by (symmetry; apply N.ltb_lt; lia)
          | replace (a <? b)%N with false
              by (symmetry; apply N.ltb_ge; lia) ]
  | |- context [(?a =? ?b)%N] =>
    first [ replace (a =? b)%N with true
              by (symmetry; apply N.eqb_eq; lia)
          | replace (a =? b)%N with false
              by (symmetry; apply N.eqb_neq; lia) ]
  end.

Lemma asciiUpper_cases (r : rune) :
  (r <= 0x7F)%N ->
  (97 <= r <= 122 /\ Utf8.ToUpper r = r - 32 \/
   ~ (97 <= r <= 122) /\ Utf8.ToUpper r = r)%N.
Proof.
  intros Hr. unfold Utf8.ToUpper.
  replace (r <=? 0x7F)%N with true by (symmetry; apply N.leb_le; lia).
  destruct (N.le_gt_cases 97 r) as [H1|H1];
    destruct (N.le_gt_cases r 122) as [H2|H2].
  - left. split; [lia|]. decideN. reflexivity.
  - right. split; [lia|]. decideN. cbn [andb]. reflexivity.
  - right. split; [lia|]. decideN. reflexivity.
  - lia.
Qed.

Lemma foldRune_cases (r : rune) :
  (97 <= r <= 122 /\ foldRune r = r - 32 \/
   ~ (97 <= r <= 122) /\ foldRune r = r)%N.
Proof.
  unfold foldRune.
  destruct (N.le_gt_cases 97 r) as [H1|H1];
    destruct (N.le_gt_cases r 122) as [H2|H2].
  - left. split; [lia|]. decideN. reflexivity.
  - right. split; [lia|]. decideN. cbn [andb]. reflexivity.
  - right. split; [lia|]. decideN. reflexivity.
  - lia.
Qed.

Lemma IsSpace_capital (r : rune) :
  (97 <= r <= 122)%N -> IsSpace (r - 32)%N = false /\ IsSpace r = false.
Proof.
  intros Hr. unfold IsSpace. split; decideN; reflexivity.
Qed.

Lemma ToUpper_foldRune (r : rune) : Utf8.ToUpper (foldRune r) = Utf8.ToUpper r.
Proof.
  destruct (foldRune_cases r) as [[Hr ->]|[Hr ->]]; [|reflexivity].
  unfold Utf8.ToUpper. decideN. reflexivity.
Qed.

Lemma IsSpace_foldRune (r : rune) : IsSpace (foldRune r) = IsSpace r.
Proof.
  destruct (foldRune_cases r) as [[Hr ->]|[Hr ->]]; [|reflexivity].
  destruct (IsSpace_capital Hr) as [-> ->]. reflexivity.
Qed.

(** *** Case variants *)

Lemma foldByte_high (b : ascii) : (0x80 <= byteN b)%N -> foldByte b = b.
Proof. intros Hb. unfold foldByte. decideN. reflexivity. Qed.

Lemma foldByte_low (b : ascii) :
  (byteN b < 0x80)%N ->
  byteN (foldByte b) = foldRune (byteN b) /\ (byteN (foldByte b) < 0x80)%N.
Proof.
  intros Hb. unfold foldByte, foldRune.
  destruct ((97 <=? byteN b) && (byteN b <=? 122))%N eqn:E.
  - apply andb_prop in E. destruct E as [E1 E2].
    apply N.leb_le in E1. apply N.leb_le in E2.
    rewrite byteN_byteOf by lia. lia.
  - split; [reflexivity|exact Hb].
Qed.

Lemma leadWidth_foldByte (b : ascii) :
  leadWidth (byteN (foldByte b)) = leadWidth (byteN b).
Proof.
  destruct (N.lt_ge_cases (byteN b) 0x80) as [Hb|Hb].
  - destruct (@foldByte_low b Hb) as [_ Hf].
    now rewrite !leadWidth_1.
  - now rewrite foldByte_high.
Qed.

Lemma inRangeB_foldByte (lo hi : N) (b : ascii) :
  (0x80 <= lo)%N -> inRangeB lo hi (foldByte b) = inRangeB lo hi b.
Proof.
  intros Hlo. destruct (N.lt_ge_cases (byteN b) 0x80) as [Hb|Hb].
  - destruct (@foldByte_low b Hb) as [_ Hf]. unfold inRangeB.
    decideN. reflexivity.
  - now rewrite foldByte_high.
Qed.

Lemma isCont_foldByte (b : ascii) : isCont (foldByte b) = isCont b.
Proof. apply (@inRangeB_foldByte 0x80 0xBF). lia. Qed.

Lemma inRangeB_high (lo hi : N) (b : ascii) :
  (0x80 <= lo)%N -> inRangeB lo hi b = true -> foldByte b = b.
Proof.
  intros Hlo Hr. apply foldByte_high. unfold inRangeB in Hr.
  apply andb_prop in Hr. destruct Hr as [Hr _]. apply N.leb_le in Hr. lia.
Qed.

Lemma acceptLo_high (x : N) : (0x80 <= acceptLo x)%N.
Proof.
  unfold acceptLo. destruct (x =? 0xE0)%N, (x =? 0xF0)%N; lia.
Qed.

Lemma foldRune_high (r : rune) : (0x80 <= r)%N -> foldRune r = r.
Proof. intros Hr. unfold foldRune. decideN. reflexivity. Qed.

Lemma Decoded_wide s r w : Decoded s r w -> (w <> 1)%nat -> (0x80 <= r)%N.
Proof.
  intros D Hw.
  destruct D as [ | b t | b t Hl | b0 b1 t Hl H1 | b0 b1 b2 t Hl H1 H2
                  | b0 b1 b2 b3 t Hl H1 H2 H3 ]; try congruence.
  - unfold RuneError. lia.
  - pose proof (leadWidth_spec (byteN b0)) as L. rewrite Hl in L. lia.
  - pose proof (leadWidth_spec (byteN b0)) as L. rewrite Hl in L.
    pose proof (acceptLo_high (byteN b0)) as A.
    unfold inRangeB, payload, acceptLo in *.
    apply andb_prop in H1. destruct H1 as [H1 _]. apply N.leb_le in H1.
    destruct (byteN b0 =? 0xE0)%N eqn:E; [|apply N.eqb_neq in E]; lia.
  - pose proof (leadWidth_spec (byteN b0)) as L. rewrite Hl in L.
    pose proof (acceptLo_high (byteN b0)) as A.
    unfold inRangeB, payload, acceptLo in *.
    apply andb_prop in H1. destruct H1 as [H1 _]. apply N.leb_le in H1.
    replace (byteN b0 =? 0xE0)%N with false in *
      by (symmetry; apply N.eqb_neq; lia).
    destruct (byteN b0 =? 0xF0)%N eqn:E; [|apply N.eqb_neq in E]; lia.
Qed.

(** Reading a rune off the folded string gives the folded rune. *)
Lemma DecodeRune_fold (s : gostring) :
  DecodeRune (map foldByte s)
  = (foldRune (fst (DecodeRune s)), snd (DecodeRune s)).
Proof.
  destruct s as [|b0 t]; [reflexivity|].
  pose proof (DecodeRune_cases (b0 :: t)) as D.
  destruct (Nat.eq_dec (snd (DecodeRune (b0 :: t))) 1) as [W1|W1].
  2:{ rewrite (@foldRune_high _ (@Decoded_wide _ _ _ D W1)).
      revert W1. clear D. cbn [map]. unfold DecodeRune.
      rewrite leadWidth_foldByte.
      pose proof (leadWidth_spec (byteN b0)) as L.
      pose proof (acceptLo_high (byteN b0)) as A.
      destruct (leadWidth (byteN b0)) as [|[|[|[|[|n]]]]] eqn:Ew.
      - destruct t; cbn [map fst snd]; congruence.
      - cbn [fst snd]. congruence.
      - rewrite (@foldByte_high b0) by lia.
        destruct t as [|b1 t]; cbn [map fst snd]; [congruence|].
        rewrite inRangeB_foldByte by exact A.
        destruct (inRangeB _ _ b1) eqn:E1; cbn [fst snd]; [|congruence].
        now rewrite (@inRangeB_high _ _ b1 A E1).
      - rewrite (@foldByte_high b0) by lia.
        destruct t as [|b1 [|b2 t]]; cbn [map fst snd]; try congruence.
        rewrite inRangeB_foldByte by exact A. rewrite isCont_foldByte.
        destruct (inRangeB _ _ b1) eqn:E1; cbn [andb fst snd];
          [|congruence].
        destruct (isCont b2) eqn:E2; cbn [fst snd]; [|congruence].
        rewrite (@inRangeB_high _ _ b1 A E1).
        now rewrite (@inRangeB_high 0x80 0xBF b2 ltac:(lia) E2).
      - rewrite (@foldByte_high b0) by lia.
        destruct t as [|b1 [|b2 [|b3 t]]]; cbn [map fst snd];
          try congruence.
        rewrite inRangeB_foldByte by exact A. rewrite !isCont_foldByte.
        destruct (inRangeB _ _ b1) eqn:E1; cbn [andb fst snd];
          [|congruence].
        destruct (isCont b2) eqn:E2; cbn [andb fst snd]; [|congruence].
        destruct (isCont b3) eqn:E3; cbn [fst snd]; [|congruence].
        rewrite (@inRangeB_high _ _ b1 A E1).
        rewrite (@inRangeB_high 0x80 0xBF b2 ltac:(lia) E2).
        now rewrite (@inRangeB_high 0x80 0xBF b3 ltac:(lia) E3).
      - destruct t; cbn [map fst snd]; congruence. }
  clear D. revert W1. cbn [map]. unfold DecodeRune.
  rewrite leadWidth_foldByte.
  pose proof (leadWidth_spec (byteN b0)) as L.
  pose proof (acceptLo_high (byteN b0)) as A.
  destruct (leadWidth (byteN b0)) as [|[|[|[|[|n]]]]] eqn:Ew.
  - destruct t; reflexivity.
  - intros _. cbn [fst snd]. destruct (@foldByte_low b0 L) as [-> _].
    reflexivity.
  - rewrite (@foldByte_high b0) by lia.
    destruct t as [|b1 t]; cbn [map fst snd]; [reflexivity|].
    rewrite inRangeB_foldByte by exact A.
    destruct (inRangeB _ _ b1); cbn [fst snd]; [discriminate|reflexivity].
  - rewrite (@foldByte_high b0) by lia.
    destruct t as [|b1 [|b2 t]]; cbn [map fst snd]; try reflexivity.
    rewrite inRangeB_foldByte by exact A. rewrite isCont_foldByte.
    destruct (inRangeB _ _ b1 && isCont b2); cbn [fst snd];
      [discriminate|reflexivity].
  - rewrite (@foldByte_high b0) by lia.
    destruct t as [|b1 [|b2 [|b3 t]]]; cbn [map fst snd]; try reflexivity.
    rewrite inRangeB_foldByte by exact A. rewrite !isCont_foldByte.
    destruct (inRangeB _ _ b1 && isCont b2 && isCont b3); cbn [fst snd];
      [discriminate|reflexivity].
  - destruct t; reflexivity.
Qed.

Lemma Chunked_fold s cs :
  Chunked s cs -> Chunked (map foldByte s) (map foldChunk cs).
Proof.
  induction 1 as [|s r w cs Hs E Hc IH]; [constructor|].
  cbn [map]. unfold foldChunk at 1. cbn [fst snd].
  apply Chunked_cons_eq with (w := w).
  - destruct s; [congruence|discriminate].
  - rewrite DecodeRune_fold, E. reflexivity.
  - symmetry. apply firstn_map.
  - rewrite skipn_map. exact IH.
Qed.

Lemma bytes_foldChunk cs : bytes (map foldChunk cs) = map foldByte (bytes cs).
Proof.
  induction cs as [|c cs IH]; [reflexivity|].
  unfold bytes in *. cbn [map flat_map]. rewrite IH, map_app. reflexivity.
Qed.

Lemma TrimSpace_fold s :
  TrimSpace (map foldByte s) = map foldByte (TrimSpace s).
Proof.
  unfold TrimSpace.
  rewrite (Chunked_chunks (Chunked_fold (chunks_Chunked s))).
  rewrite (trim_map foldChunk spaceChunk spaceChunk).
  - apply bytes_foldChunk.
  - apply Forall_forall. intros c _. unfold spaceChunk, foldChunk.
    cbn [fst]. apply IsSpace_foldRune.
Qed.

Lemma ToUpper_fold s : ToUpper (map foldByte s) = ToUpper s.
Proof.
  unfold ToUpper, Map.
  rewrite (Chunked_chunks (Chunked_fold (chunks_Chunked s))).
  rewrite !flat_map_concat_map, map_map. f_equal.
  apply map_ext. intros c. unfold foldChunk. cbn [fst].
  now rewrite ToUpper_foldRune.
Qed.

Hypothesis laws : UpperTableLaws.

Lemma ToUpper_rune_valid (r : rune) :
  ValidRune r = true -> ValidRune (Utf8.ToUpper r) = true.
Proof.
  intros Hv. destruct (N.le_gt_cases r 0x7F) as [Hr|Hr].
  - destruct (asciiUpper_cases Hr) as [[Ha ->]|[Ha ->]]; [|exact Hv].
    unfold ValidRune. decideN. reflexivity.
  - unfold Utf8.ToUpper. decideN. now apply (upper_valid laws).
Qed.

Lemma ToUpper_rune_idem (r : rune) :
  ValidRune r = true -> Utf8.ToUpper (Utf8.ToUpper r) = Utf8.ToUpper r.
Proof.
  intros Hv. destruct (N.le_gt_cases r 0x7F) as [Hr|Hr].
  - destruct (asciiUpper_cases Hr) as [[Ha ->]|[Ha E]].
    + unfold Utf8.ToUpper. decideN. reflexivity.
    + now rewrite !E.
  - unfold Utf8.ToUpper at 2 3. decideN. now apply (upper_idem laws).
Qed.

Lemma ToUpper_rune_space (r : rune) :
  ValidRune r = true -> IsSpace (Utf8.ToUpper r) = IsSpace r.
Proof.
  intros Hv. destruct (N.le_gt_cases r 0x7F) as [Hr|Hr].
  - destruct (asciiUpper_cases Hr) as [[Ha ->]|[Ha ->]]; [|reflexivity].
    destruct (IsSpace_capital Ha) as [-> ->]. reflexivity.
  - unfold Utf8.ToUpper. decideN. now apply (upper_space laws).
Qed.

Lemma ToUpper_bytes (cs : list chunk) :
  flat_map (fun c => EncodeRune (Utf8.ToUpper (fst c))) cs
  = bytes (map upperChunk cs).
Proof.
  unfold bytes. rewrite flat_map_concat_map, flat_map_concat_map, map_map.
  reflexivity.
Qed.

Lemma ToUpper_chunks s :
  chunks (ToUpper s) = map upperChunk (chunks s).
Proof.
  apply Chunked_chunks. unfold ToUpper. apply Map_Chunked.
  pose proof (Chunked_valid (chunks_Chunked s)) as Hv.
  eapply Forall_impl; [|exact Hv]. intros c Hc.
  now apply ToUpper_rune_valid.
Qed.

(** Trimming and upper-casing can be done in either order. *)
Lemma ToUpper_TrimSpace_comm s : ToUpper (TrimSpace s) = TrimSpace (ToUpper s).
Proof.
  pose proof (Chunked_valid (chunks_Chunked s)) as Hv.
  unfold ToUpper at 1, Map. rewrite TrimSpace_chunks, ToUpper_bytes.
  unfold TrimSpace. rewrite ToUpper_chunks.
  rewrite (trim_map upperChunk spaceChunk spaceChunk); [reflexivity|].
  eapply Forall_impl; [|exact Hv]. intros c Hc.
  unfold spaceChunk, upperChunk. cbn [fst].
  now apply ToUpper_rune_space.
Qed.

(** Upper-casing a trimmed string gives a string that trimming and
    upper-casing leave alone. *)
Lemma ToUpper_TrimSpace_fixed s :
  let u := ToUpper (TrimSpace s) in
  TrimSpace u = u /\ ToUpper u = u.
Proof.
  intros u.
  pose proof (Chunked_valid (TrimSpace_Chunked s)) as Hv.
  assert (Hu : u = bytes (map upperChunk (trim spaceChunk (chunks s)))).
  { unfold u, ToUpper, Map. rewrite TrimSpace_chunks. apply ToUpper_bytes. }
  assert (Hcu : chunks u = map upperChunk (trim spaceChunk (chunks s))).
  { unfold u. rewrite ToUpper_chunks, TrimSpace_chunks. reflexivity. }
  split.
  - unfold TrimSpace. rewrite Hcu.
    rewrite (trim_map upperChunk spaceChunk spaceChunk).
    + rewrite trim_idem. now rewrite Hu.
    + eapply Forall_impl; [|exact Hv]. intros c Hc.
      unfold spaceChunk, upperChunk. cbn [fst].
      now apply ToUpper_rune_space.
  - unfold ToUpper at 1, Map. rewrite Hcu, Hu.
    rewrite ToUpper_bytes. f_equal. rewrite map_map.
    apply map_ext_Forall.
    eapply Forall_impl; [|exact Hv]. intros c Hc.
    unfold upperChunk. cbn [fst]. now rewrite (ToUpper_rune_idem _ Hc).
Qed.

Lemma levelSwitch_cases (u : gostring) :
  levelSwitch u = u
  \/ In (levelSwitch u) [go "WARN"; go "ERROR"; go "INFO"; go "DEBUG"].
Proof.
  unfold levelSwitch.
  repeat match goal with
  | |- context [if ?c then _ else _] =>
    destruct c; [right; cbn [In]; auto 6|]
  end.
  left. reflexivity.
Qed.

Lemma normalizeLevel_canonical (k : gostring) :
  In k [go "WARN"; go "ERROR"; go "INFO"; go "DEBUG"] ->
  normalizeLevel k = k.
Proof.
  cbn [In]. intros [<-|[<-|[<-|[<-|[]]]]]; vm_compute; reflexivity.
Qed.

(** C9 as amended: with an upper-case table that satisfies
    [UpperTableLaws] (the hypothesis [laws] of this section), level
    canonicalization is idempotent, and it gives the same level for two
    strings that have the same upper-case form, [strings.ToUpper] being
    what the code compares: so for two strings that differ only in the
    case of ASCII letters, and for any two that the table takes to the
    same capitals.  It is not so for every pair of case variants: a
    capital that is not the capital of its own small letter, like the
    Kelvin sign, is kept apart from it. *)
Theorem normalizeLevel_idempotent_case_insensitive :
  (forall x, normalizeLevel (normalizeLevel x) = normalizeLevel x)
  /\ (forall x y, ToUpper x = ToUpper y ->
                  normalizeLevel x = normalizeLevel y)
  /\ (forall x y, asciiCaseVariant x y ->
                  normalizeLevel x = normalizeLevel y).
Proof.
  split; [|split].
  - intros x. unfold normalizeLevel at 2 3.
    destruct (ToUpper_TrimSpace_fixed x) as [Ht Hu].
    destruct (levelSwitch_cases (ToUpper (TrimSpace x))) as [E|E].
    + rewrite E. unfold normalizeLevel. rewrite Ht, Hu. exact E.
    + now apply normalizeLevel_canonical.
  - intros x y Hxy. unfold normalizeLevel.
    rewrite !ToUpper_TrimSpace_comm. now rewrite Hxy.
  - assert (Hf : forall x, normalizeLevel (map foldByte x)
                           = normalizeLevel x).
    { intros x. unfold normalizeLevel.
      now rewrite TrimSpace_fold, ToUpper_fold. }
    intros x y Hxy. rewrite <- (Hf x), <- (Hf y).
    unfold asciiCaseVariant in Hxy. now rewrite Hxy.
Qed.

End LevelFacts.

(** Tables that leave every code point alone satisfy the laws. *)
Lemma asciiCase_laws : @UpperTableLaws asciiCase.
Proof.
  constructor; intros r Hr Hv.
  - exact Hv.
  - unfold Utf8.ToUpper. cbn [Utf8.toUpperTable asciiCase].
    replace (r <=? 0x7F)%N with false
      by (symmetry; apply N.leb_gt; exact Hr).
    reflexivity.
  - reflexivity.
Qed.

(** So do the tables that know the Kelvin sign: their upper-case table
    leaves every code point alone. *)
Lemma kelvinCase_laws : @UpperTableLaws kelvinCase.
Proof.
  constructor; intros r Hr Hv.
  - exact Hv.
  - unfold Utf8.ToUpper. cbn [Utf8.toUpperTable kelvinCase].
    replace (r <=? 0x7F)%N with false
      by (symmetry; apply N.leb_gt; exact Hr).
    reflexivity.
  - reflexivity.
Qed.

(** The theorem on a level written in three ways, and on the Kelvin
    sign. *)
Lemma normalizeLevel_witness :
  @normalizeLevel kelvinCase (@normalizeLevel kelvinCase (go " Warning "))
  = @normalizeLevel kelvinCase (go " Warning ")
  /\ @normalizeLevel kelvinCase (@normalizeLevel kelvinCase kelvinSign)
     = @normalizeLevel kelvinCase kelvinSign
  /\ @normalizeLevel kelvinCase (go "warning")
     = @normalizeLevel kelvinCase (go "WARNING")
  /\ @normalizeLevel kelvinCase (go "fatal")
     = @normalizeLevel kelvinCase (go "FaTaL").
Proof.
  destruct (@normalizeLevel_idempotent_case_insensitive kelvinCase
              kelvinCase_laws) as (Hi & Hu & Hc).
  split; [apply Hi|]. split; [apply Hi|].
  split; [apply Hu; reflexivity|apply Hc; reflexivity].
Defined.

(** C9, counterexample: the Kelvin sign and the letter k are case
    variants of each other (the small letter of the Kelvin sign is k), but
    [strings.ToUpper] leaves the Kelvin sign as it is and takes k to the
    ASCII capital K, so the two are given different levels. *)
Lemma normalizeLevel_kelvin_counterexample :
  @caseVariant kelvinCase kelvinSign (go "k")
  /\ @normalizeLevel kelvinCase kelvinSign = kelvinSign
  /\ @normalizeLevel kelvinCase (go "k") = go "K"
  /\ @normalizeLevel kelvinCase kelvinSign
     <> @normalizeLevel kelvinCase (go "k").
Proof.
  split; [right; vm_compute; reflexivity|].
  vm_compute. repeat split; try reflexivity. discriminate.
Qed.

(** ** Submatches *)

Section RegexpFacts.

Import Regexp.

Lemma setNth_length i v : forall l, length (setNth i v l) = length l.
Proof.
  induction i as [|i IH]; intros [|x t]; cbn [setNth length]; auto.
Qed.

Lemma setNth_same i v : forall l,
  (i < length l)%nat -> nth i (setNth i v l) [] = v.
Proof.
  induction i as [|i IH]; intros [|x t] Hl; cbn [setNth nth length] in *;
    try lia; auto. apply IH. lia.
Qed.

Lemma setNth_other i g v : forall l,
  g <> i -> nth g (setNth i v l) [] = nth g l [].
Proof.
  revert g. induction i as [|i IH]; intros g [|x t] Hg;
    cbn [setNth]; try reflexivity.
  - destruct g; [congruence|reflexivity].
  - destruct g; [reflexivity|]. cbn [nth]. apply IH. congruence.
Qed.

Lemma runRep_inv k : forall s mn mx pos caps kont c,
  runRep k mn mx pos s caps kont = Some c ->
  exists m s', s = m ++ s' /\ kont (pos + length m)%nat s' caps = Some c
               /\ (mn <= length m)%nat.
Proof.
  induction s as [|b t IH]; intros mn mx pos caps kont c Hr.
  - cbn [runRep] in Hr. destruct mn; [|discriminate].
    exists [], []. rewrite Nat.add_0_r. auto.
  - cbn [runRep] in Hr.
    assert (Hstop : match mn with
                    | O => kont pos (b :: t) caps
                    | S _ => None
                    end = Some c ->
                    exists m s', b :: t = m ++ s'
                                 /\ kont (pos + length m)%nat s' caps = Some c
                                 /\ (mn <= length m)%nat).
    { intros Hk. destruct mn; [|discriminate].
      exists [], (b :: t). rewrite Nat.add_0_r. auto. }
    destruct (inClass k b && match mx with Some 0 => false | _ => true end);
      [|now apply Hstop].
    destruct (runRep k (pred mn) (option_map pred mx) (S pos) t caps kont)
      as [c'|] eqn:E; [|now apply Hstop].
    inversion Hr; subst c'.
    destruct (IH _ _ _ _ _ _ E) as (m & s' & Hs & Hk & Hm).
    exists (b :: m), s'. cbn [app length]. subst t.
    replace (pos + S (length m))%nat with (S pos + length m)%nat by lia.
    repeat split; auto. lia.
Qed.

Lemma run_inv r : forall pos s caps kont c,
  run r pos s caps kont = Some c ->
  exists pos' s' caps',
    kont pos' s' caps' = Some c /\ stepOf r pos s caps pos' s' caps'.
Proof.
  induction r as [k|k mn mx| | | |r1 IH1 r2 IH2|r1 IH1 r2 IH2|r1 IH1|i r1 IH1];
    intros pos s caps kont c Hr; cbn [run] in Hr.
  - destruct s as [|b t]; [discriminate|].
    destruct (inClass k b); [|discriminate].
    exists (S pos), t, caps. split; [exact Hr|].
    repeat split; auto; try discriminate.
    exists [b]. cbn [app length minLen]. repeat split; auto; lia.
  - destruct (runRep_inv _ _ _ _ _ _ _ Hr) as (m & s' & Hs & Hk & Hm).
    exists (pos + length m)%nat, s', caps. split; [exact Hk|].
    repeat split; auto; try discriminate.
    exists m. auto.
  - destruct (Nat.eqb pos 0); [|discriminate].
    exists pos, s, caps. split; [exact Hr|].
    repeat split; auto; try discriminate.
    exists []. cbn [app length minLen]. repeat split; auto; lia.
  - destruct s; [|discriminate].
    exists pos, [], caps. split; [exact Hr|].
    repeat split; auto; try discriminate.
    exists []. cbn [app length minLen]. repeat split; auto; lia.
  - exists pos, s, caps. split; [exact Hr|].
    repeat split; auto; try discriminate.
    exists []. cbn [app length minLen]. repeat split; auto; lia.
  - destruct (IH1 _ _ _ _ _ Hr)
      as (p1 & s1 & c1 & Hk1 & Hl1 & (m1 & Hs1 & Hp1 & Hm1) & Ht1 & Hg1).
    destruct (IH2 _ _ _ _ _ Hk1)
      as (p2 & s2 & c2 & Hk2 & Hl2 & (m2 & Hs2 & Hp2 & Hm2) & Ht2 & Hg2).
    exists p2, s2, c2. split; [exact Hk2|].
    split; [congruence|]. split.
    { exists (m1 ++ m2). rewrite length_app, <- app_assoc. cbn [minLen].
      repeat split; [congruence|lia|lia]. }
    cbn [touches sure]. split.
    + intros g Hg. apply orb_false_iff in Hg. destruct Hg as [G1 G2].
      rewrite (Ht2 g G2). apply Ht1. exact G1.
    + intros g Hg Hlen. apply orb_true_iff in Hg. destruct Hg as [G|G].
      * apply Hg2; [exact G|congruence].
      * apply andb_prop in G. destruct G as [G1 G2].
        apply negb_true_iff in G2. rewrite (Ht2 g G2). now apply Hg1.
  - cbn [minLen touches sure].
    destruct (run r1 pos s caps kont) as [c'|] eqn:E.
    + inversion Hr; subst c'.
      destruct (IH1 _ _ _ _ _ E)
        as (p1 & s1 & c1 & Hk1 & Hl1 & (m1 & Hs1 & Hp1 & Hm1) & Ht1 & Hg1).
      exists p1, s1, c1. split; [exact Hk1|]. split; [exact Hl1|]. split.
      { exists m1. cbn [minLen]. repeat split; auto.
        etransitivity; [apply Nat.le_min_l|exact Hm1]. }
      split.
      * intros g Hg. apply orb_false_iff in Hg. now apply Ht1.
      * intros g Hg. apply andb_prop in Hg. now apply Hg1.
    + destruct (IH2 _ _ _ _ _ Hr)
        as (p1 & s1 & c1 & Hk1 & Hl1 & (m1 & Hs1 & Hp1 & Hm1) & Ht1 & Hg1).
      exists p1, s1, c1. split; [exact Hk1|]. split; [exact Hl1|]. split.
      { exists m1. cbn [minLen]. repeat split; auto.
        etransitivity; [apply Nat.le_min_r|exact Hm1]. }
      split.
      * intros g Hg. apply orb_false_iff in Hg. now apply Ht1.
      * intros g Hg. apply andb_prop in Hg. now apply Hg1.
  - cbn [minLen touches sure].
    destruct (run r1 pos s caps kont) as [c'|] eqn:E.
    + inversion Hr; subst c'.
      destruct (IH1 _ _ _ _ _ E)
        as (p1 & s1 & c1 & Hk1 & Hl1 & (m1 & Hs1 & Hp1 & Hm1) & Ht1 & Hg1).
      exists p1, s1, c1. split; [exact Hk1|]. split; [exact Hl1|]. split.
      { exists m1. cbn [minLen]. repeat split; auto. lia. }
      split; [exact Ht1|discriminate].
    + exists pos, s, caps. split; [exact Hr|].
      repeat split; auto; try discriminate.
      exists []. cbn [app length minLen]. repeat split; auto; lia.
  - destruct (IH1 _ _ _ _ _ Hr)
      as (p1 & s1 & c1 & Hk1 & Hl1 & (m1 & Hs1 & Hp1 & Hm1) & Ht1 & Hg1).
    exists p1, s1, (setNth i (firstn (p1 - pos) s) c1).
    split; [exact Hk1|].
    split; [rewrite setNth_length; exact Hl1|]. split.
    { exists m1. cbn [minLen]. auto. }
    cbn [touches sure]. split.
    + intros g Hg. apply orb_false_iff in Hg. destruct Hg as [G1 G2].
      apply Nat.eqb_neq in G1. rewrite setNth_other by exact G1.
      now apply Ht1.
    + intros g Hg Hlen. destruct (Nat.eqb g i) eqn:Egi.
      * apply Nat.eqb_eq in Egi. subst g.
        rewrite setNth_same by lia.
        apply Nat.ltb_lt in Hg.
        replace (p1 - pos)%nat with (length m1) by lia.
        rewrite Hs1, firstn_app, Nat.sub_diag, firstn_O, app_nil_r.
        rewrite firstn_all. destruct m1; [simpl in Hm1; lia|discriminate].
      * apply Nat.eqb_neq in Egi. rewrite setNth_other by exact Egi.
        now apply Hg1.
Qed.

Lemma search_sure re g : forall s pos c,
  search re pos s = Some c ->
  sure g (Grp 0 (ast re)) = true -> (g <= numSubexp re)%nat ->
  nth g c [] <> [].
Proof.
  induction s as [|b t IH]; intros pos c Hs Hg Hn; cbn [search] in Hs.
  - destruct (run _ _ _ _ _) as [c'|] eqn:E; [|discriminate].
    inversion Hs; subst c'.
    destruct (run_inv _ _ _ _ _ E) as (p1 & s1 & c1 & Hk & _ & _ & _ & Hs1).
    inversion Hk; subst c1. apply Hs1; [exact Hg|].
    rewrite repeat_length. lia.
  - destruct (run _ _ _ _ _) as [c'|] eqn:E.
    + inversion Hs; subst c'.
      destruct (run_inv _ _ _ _ _ E) as (p1 & s1 & c1 & Hk & _ & _ & _ & Hs1).
      inversion Hk; subst c1. apply Hs1; [exact Hg|].
      rewrite repeat_length. lia.
    + eapply IH; eassumption.
Qed.

Lemma FindStringSubmatch_sure re s m g :
  FindStringSubmatch re s = Some m ->
  sure g (Grp 0 (ast re)) = true -> (g <= numSubexp re)%nat ->
  nth g m [] <> [].
Proof. unfold FindStringSubmatch. apply search_sure. Qed.

End RegexpFacts.

(** ** The classifier *)

Section ClassifierFacts.

Import Strings Regexp.

Context `{Utf8.CaseTables} `{JsonDecoder}.

Ltac firstPattern t :=
  match goal with
  | |- context [FindStringSubmatch ?re t] =>
    let m := fresh "m" in
    let E := fresh "E" in
    destruct (FindStringSubmatch re t) as [m|] eqn:E
  end.

Ltac groupFilled E :=
  unfold submatch; apply (@FindStringSubmatch_sure _ _ _ _ E);
  [vm_compute; reflexivity|vm_compute; lia].

(** An entry built by one of the patterns has no raw text, and it has a
    message unless the pattern is the one for a bare Docker timestamp. *)
Lemma tryPatterns_entry t e :
  tryPatterns patterns t = Some e ->
  Raw e = []
  /\ (FindStringSubmatch bareTimestamp t = None -> Message e <> []).
Proof.
  unfold patterns. cbn [tryPatterns].
  firstPattern t.
  { intros Q; inversion Q; subst e. split; [reflexivity|]. intros _.
    cbn [Message]. groupFilled E. }
  firstPattern t.
  { intros Q; inversion Q; subst e. split; [reflexivity|]. intros _.
    cbn [Message]. discriminate. }
  firstPattern t.
  { intros Q; inversion Q; subst e. split; [reflexivity|]. intros _.
    cbn [Message]. groupFilled E1. }
  firstPattern t.
  { intros Q; inversion Q; subst e. split; [reflexivity|]. intros _.
    cbn [Message]. groupFilled E2. }
  firstPattern t.
  { intros Q; inversion Q; subst e. split; [reflexivity|]. intros _.
    cbn [Message]. groupFilled E3. }
  firstPattern t.
  { intros Q; inversion Q; subst e. split; [reflexivity|]. intros Hb.
    unfold bareTimestamp, patterns in Hb. cbn [nth fst] in Hb.
    congruence. }
  firstPattern t.
  { intros Q; inversion Q; subst e. split; [reflexivity|]. intros _.
    cbn [Message]. groupFilled E5. }
  firstPattern t.
  { intros Q; inversion Q; subst e. split; [reflexivity|]. intros _.
    cbn [Message]. groupFilled E6. }
  firstPattern t.
  { intros Q; inversion Q; subst e. split; [reflexivity|]. intros _.
    cbn [Message]. groupFilled E7. }
  firstPattern t.
  { intros Q; inversion Q; subst e. split; [reflexivity|]. intros _.
    cbn [Message]. groupFilled E8. }
  firstPattern t.
  { intros Q; inversion Q; subst e. split; [reflexivity|]. intros _.
    cbn [Message]. groupFilled E9. }
  discriminate.
Qed.

Lemma parseUniversalLog_entry t :
  TrimSpace t = t ->
  Raw (parseUniversalLog t) = []
  /\ (t <> [] ->
      FindStringSubmatch bareTimestamp t = None ->
      tryPatterns patterns t <> None
      \/ FindStringSubmatch timePattern t = None ->
      Message (parseUniversalLog t) <> []).
Proof.
  intros Ht. unfold parseUniversalLog. rewrite Ht.
  destruct (tryPatterns patterns t) as [e|] eqn:Ep.
  - destruct (@tryPatterns_entry _ _ Ep) as [Hr Hm].
    split; [exact Hr|]. intros _ Hb _. now apply Hm.
  - destruct (FindStringSubmatch timePattern t) as [m|] eqn:Et.
    + split; [reflexivity|]. intros _ _ [Hc|Hc]; congruence.
    + split; [reflexivity|]. intros Hne _ _. exact Hne.
Qed.

Lemma parseLogLine_json line :
  parseLogLine line
  = let t := TrimSpace (dropDockerHeader line) in
    match jsonEntry t with
    | Some logEntry =>
      if isEmpty (Time logEntry)
         && negb (isEmpty
                    (match Index t (go "{") with
                     | Some jsonStart =>
                       if (0 <? jsonStart)%nat
                       then TrimSpace (firstn jsonStart t) else []
                     | None => []
                     end))
      then {| Time := match Index t (go "{") with
                      | Some jsonStart =>
                        if (0 <? jsonStart)%nat
                        then TrimSpace (firstn jsonStart t) else []
                      | None => []
                      end;
              Level := Level logEntry; Message := Message logEntry;
              JobID := JobID logEntry; Error := Error logEntry;
              Raw := Raw logEntry |}
      else logEntry
    | None => parseUniversalLog t
    end.
Proof.
  unfold parseLogLine, jsonEntry. cbv zeta.
  destruct (Index (TrimSpace (dropDockerHeader line)) (go "{"));
    reflexivity.
Qed.

End ClassifierFacts.

(** ** Word wrapping *)

Section WrapFacts.

Import Utf8 Strings.
Local Open Scope Z_scope.

Lemma fieldsLoop_nonempty cs : forall cur,
  Forall (fun c : chunk => snd c <> []) cs ->
  (forall w, cur = Some w -> w <> []) ->
  Forall (fun w => w <> []) (fieldsLoop cur cs).
Proof.
  induction cs as [|c cs IH]; intros cur Hcs Hcur; cbn [fieldsLoop].
  - destruct cur as [w|]; constructor; [now apply Hcur|constructor].
  - inversion Hcs as [|c' cs' Hc Hcs']; subst.
    destruct (spaceChunk c).
    + destruct cur as [w|].
      * constructor; [now apply Hcur|]. apply IH; [exact Hcs'|discriminate].
      * apply IH; [exact Hcs'|discriminate].
    + destruct cur as [w|]; apply IH; try exact Hcs';
        intros w' Hw'; inversion Hw'; subst; [|exact Hc].
      intros Hx. apply app_eq_nil in Hx. now destruct Hx.
Qed.

Lemma Fields_nonempty text : Forall (fun w => w <> []) (Fields text).
Proof.
  unfold Fields. apply fieldsLoop_nonempty; [|discriminate].
  exact (Chunked_nonempty (chunks_Chunked text)).
Qed.

Lemma Join_snoc (sep w : gostring) : forall g,
  g <> [] -> Join (g ++ [w]) sep = Join g sep ++ sep ++ w.
Proof.
  induction g as [|a g IH]; [congruence|]. intros _.
  destruct g as [|b g].
  - reflexivity.
  - change (Join ((a :: b :: g) ++ [w]) sep)
      with (a ++ sep ++ Join ((b :: g) ++ [w]) sep).
    rewrite IH by discriminate.
    change (Join (a :: b :: g) sep) with (a ++ sep ++ Join (b :: g) sep).
    now rewrite <- !app_assoc.
Qed.

Lemma len_app (a b : gostring) : len (a ++ b) = len a + len b.
Proof. unfold len. rewrite length_app. lia. Qed.

Lemma len_pos (a : gostring) : a <> [] -> 0 < len a.
Proof. destruct a; [congruence|]. unfold len. cbn [length]. lia. Qed.

Lemma len_zero (a : gostring) : len a <= 0 -> a = [].
Proof. destruct a; [reflexivity|]. unfold len. cbn [length]. lia. Qed.

Variable width : Z.
Hypothesis width_pos : 0 < width.

Lemma hardSplit_S fuel lines word :
  hardSplit (S fuel) lines word width
  = if len word >? width then
      if width <? 0 then None
      else hardSplit fuel (lines ++ [firstn (Z.to_nat width) word])
                     (skipn (Z.to_nat width) word) width
    else Some (lines, word).
Proof. reflexivity. Qed.

Lemma chop_S fuel w word :
  chop (S fuel) w word
  = if (w <? length word)%nat
    then firstn w word :: chop fuel w (skipn w word)
    else [word].
Proof. reflexivity. Qed.

(** The inner loop returns the pieces of [chop]: all but the last one are
    lines of their own, of exactly [width] bytes. *)
Lemma hardSplit_chop : forall n word lines,
  (length word <= n)%nat ->
  exists ps rest,
    hardSplit (S n) lines word width = Some (lines ++ ps, rest)
    /\ chop n (Z.to_nat width) word = ps ++ [rest]
    /\ Forall (fun p => len p = width) ps
    /\ len rest <= width
    /\ (word <> [] -> rest <> []).
Proof.
  induction n as [|n IH]; intros word lines Hn.
  - destruct word; [|cbn [length] in Hn; lia].
    exists [], []. rewrite hardSplit_S. cbn [chop app].
    destruct (Z.gtb_spec (len (@nil ascii)) width) as [E|E];
      [unfold len in E; cbn [length] in E; lia|].
    rewrite app_nil_r. repeat split; auto.
  - rewrite hardSplit_S, chop_S.
    destruct (Z.gtb_spec (len word) width) as [Eg|Eg].
    + assert (Hlt : (Z.to_nat width < length word)%nat)
        by (unfold len in Eg; lia).
      replace (Z.to_nat width <? length word)%nat with true
        by (symmetry; apply Nat.ltb_lt; exact Hlt).
      destruct (Z.ltb_spec width 0) as [E0|E0]; [lia|].
      destruct (IH (skipn (Z.to_nat width) word)
                   (lines ++ [firstn (Z.to_nat width) word]))
        as (ps & rest & Hh & Hc & Hp & Hr & Hne).
      { rewrite length_skipn. lia. }
      exists (firstn (Z.to_nat width) word :: ps), rest.
      rewrite Hh, Hc, <- app_assoc. repeat split; auto.
      * constructor; [|exact Hp]. unfold len. rewrite length_firstn. lia.
      * intros _. apply Hne. intros Hx.
        apply (f_equal (@length ascii)) in Hx.
        rewrite length_skipn in Hx. cbn [length] in Hx. lia.
    + assert (Hle : (length word <= Z.to_nat width)%nat)
        by (unfold len in Eg; lia).
      replace (Z.to_nat width <? length word)%nat with false
        by (symmetry; apply Nat.ltb_ge; exact Hle).
      exists [], word. rewrite app_nil_r. repeat split; auto.
Qed.

Lemma chop_short n (word : gostring) :
  len word <= width -> chop n (Z.to_nat width) word = [word].
Proof.
  intros Hw. destruct n; [reflexivity|]. cbn [chop].
  replace (Z.to_nat width <? length word)%nat with false; [reflexivity|].
  symmetry. apply Nat.ltb_ge. unfold len in Hw. lia.
Qed.

Lemma wrapWord_wrapped groups group st word :
  wrapped width groups group st -> word <> [] ->
  exists groups' group' st',
    wrapWord width st word = Some st'
    /\ wrapped width groups' group' st'
    /\ concat groups' ++ group'
       = concat groups ++ group ++ pieces width word.
Proof.
  destruct st as [lines cur].
  intros (Hl & Hc & Hg & Hll & Hcl & Hne) Hw. cbn [fst snd] in *.
  pose proof (len_pos Hw) as Hwp.
  unfold wrapWord.
  destruct (Z.gtb_spec (len cur + len word + 1) width) as [Eover|Eover].
  - (* the word does not fit on the current line *)
    set (flushed := if len cur >? 0 then (lines ++ [cur], @nil ascii)
                    else (lines, cur)).
    assert (Hfl : exists groups1,
               flushed = (map lineOf groups1, [])
               /\ Forall (fun g => g <> []) groups1
               /\ Forall (fun l => 0 < len l <= width) (map lineOf groups1)
               /\ concat groups1 = concat groups ++ group).
    { unfold flushed. destruct (Z.gtb_spec (len cur) 0) as [Ec|Ec].
      - exists (groups ++ [group]).
        rewrite map_app, concat_app. cbn [map concat].
        rewrite app_nil_r, <- Hl, <- Hc. repeat split.
        + apply Forall_app. split; [exact Hg|]. constructor; [|constructor].
          intros ->. subst cur. unfold len in Ec. cbn in Ec. lia.
        + apply Forall_app. split; [exact Hll|].
          constructor; [lia|constructor].
      - exists groups.
        assert (Hgroup : group = []).
        { destruct group; [reflexivity|]. exfalso.
          apply Hne; [discriminate|]. apply len_zero. lia. }
        subst group. cbn in Hc. subst cur.
        rewrite app_nil_r, <- Hl. repeat split; auto. }
    destruct Hfl as (groups1 & -> & Hg1 & Hl1 & Hcat1).
    destruct (Z.gtb_spec (len word) width) as [Elong|Elong].
    + destruct (@hardSplit_chop (length word) word (map lineOf groups1)
                                (Nat.le_refl _))
        as (ps & rest & Hh & Hch & Hps & Hr & Hrn).
      rewrite Hh.
      pose proof (len_pos (Hrn Hw)) as Hrp.
      destruct (Z.gtb_spec (len rest) 0) as [Er|Er]; [|lia].
      exists (groups1 ++ map (fun p => [p]) ps), [rest], (map lineOf groups1 ++ ps, rest).
      split; [reflexivity|]. split.
      * unfold wrapped. cbn [fst snd]. repeat split.
        -- rewrite map_app, map_map. f_equal.
           clear. induction ps as [|p ps IH]; [reflexivity|].
           cbn [map]. now rewrite <- IH.
        -- apply Forall_app. split; [exact Hg1|].
           clear. induction ps; constructor; [discriminate|assumption].
        -- apply Forall_app. split; [exact Hl1|].
           eapply Forall_impl; [|exact Hps]. cbn. intros p Hp. lia.
        -- exact Hr.
        -- intros _. exact (Hrn Hw).
      * rewrite concat_app, Hcat1, <- !app_assoc. f_equal. f_equal.
        unfold pieces. rewrite Hch. f_equal.
        clear. induction ps as [|p ps IH]; [reflexivity|].
        cbn [map concat app]. now rewrite IH.
    + exists groups1, [word], (map lineOf groups1, word).
      split; [reflexivity|]. split.
      * unfold wrapped. cbn [fst snd]. repeat split; auto; try lia.
      * rewrite Hcat1, <- app_assoc. f_equal. f_equal.
        unfold pieces. symmetry. apply chop_short. lia.
  - (* the word is added to the current line *)
    exists groups, (group ++ [word]).
    destruct (Z.gtb_spec (len cur) 0) as [Ec|Ec].
    + exists (lines, (cur ++ go " ") ++ word).
      split; [reflexivity|].
      assert (Hgn : group <> []).
      { intros ->. subst cur. unfold len in Ec. cbn in Ec. lia. }
      split.
      * unfold wrapped. cbn [fst snd]. repeat split; auto.
        -- unfold lineOf. rewrite Join_snoc by exact Hgn.
           fold (lineOf group). rewrite <- Hc. now rewrite <- app_assoc.
        -- rewrite !len_app. change (len (go " ")) with 1. lia.
        -- intros _ Hx. apply app_eq_nil in Hx. destruct Hx. congruence.
      * f_equal. f_equal.
        unfold pieces. symmetry. apply chop_short. lia.
    + exists (lines, cur ++ word).
      split; [reflexivity|].
      assert (Hgroup : group = []).
      { destruct group; [reflexivity|]. exfalso.
        apply Hne; [discriminate|]. apply len_zero. lia. }
      subst group. cbn in Hc. subst cur.
      change (len (@nil ascii)) with 0 in *. split.
      * unfold wrapped. cbn [fst snd app]. repeat split; auto; try lia.
      * cbn [app]. f_equal. unfold pieces. symmetry. apply chop_short.
        lia.
Qed.

Lemma wrapWords_wrapped words : forall groups group st,
  wrapped width groups group st -> Forall (fun w => w <> []) words ->
  exists groups' group' st',
    wrapWords width st words = Some st'
    /\ wrapped width groups' group' st'
    /\ concat groups' ++ group'
       = concat groups ++ group ++ flat_map (pieces width) words.
Proof.
  induction words as [|w ws IH]; intros groups group st Hst Hws.
  - exists groups, group, st. cbn. rewrite app_nil_r. auto.
  - inversion Hws as [|w' ws' Hw Hws']; subst.
    destruct (@wrapWord_wrapped _ _ _ w Hst Hw)
      as (g1 & c1 & st1 & E1 & H1 & C1).
    destruct (IH _ _ _ H1 Hws') as (g2 & c2 & st2 & E2 & H2 & C2).
    exists g2, c2, st2. cbn [wrapWords flat_map]. rewrite E1.
    split; [exact E2|]. split; [exact H2|].
    rewrite C2. rewrite app_assoc, C1. now rewrite <- !app_assoc.
Qed.

Lemma chop_concat w : forall n word, concat (chop n w word) = word.
Proof.
  induction n as [|n IH]; intros word; [apply app_nil_r|].
  rewrite chop_S. destruct (w <? length word)%nat.
  - cbn [concat]. rewrite IH. apply firstn_skipn.
  - apply app_nil_r.
Qed.

(** C8 as amended: for a positive width, a text that is no longer than
    the width, or that holds no word, is returned as it is, as one line
    (which is longer than the width when the text is white space only).
    Otherwise the lines are the words of the text in order, a word longer
    than the width cut into pieces of exactly [width] bytes and a last
    piece of at most [width] bytes, each line made of consecutive pieces
    joined by single spaces, and every line has between 1 and [width]
    bytes.  The pieces of a word put together give the word back. *)
Theorem wrapText_lines text :
  (len text <= width \/ Fields text = [] ->
   wrapText text width = Some [text])
  /\ (width < len text -> Fields text <> [] ->
      exists groups,
        wrapText text width = Some (map lineOf groups)
        /\ concat groups = flat_map (pieces width) (Fields text)
        /\ Forall (fun g => g <> []) groups
        /\ Forall (fun l => 0 < len l <= width) (map lineOf groups))
  /\ (forall word,
         concat (pieces width word) = word
         /\ exists ps rest,
             pieces width word = ps ++ [rest]
             /\ Forall (fun p => len p = width) ps
             /\ len rest <= width).
Proof.
  split; [|split].
  - intros Hc. unfold wrapText.
    destruct (Z.leb_spec (len text) width) as [Hle|Hgt]; [reflexivity|].
    destruct Hc as [Hc|Hc]; [lia|]. rewrite Hc. reflexivity.
  - intros Hgt Hf. unfold wrapText.
    destruct (Z.leb_spec (len text) width) as [Hle|_]; [lia|].
    destruct (Z.eqb_spec (len (Fields text)) 0) as [Hz|_].
    { destruct (Fields text); [congruence|].
      unfold len in Hz. cbn [length] in Hz. lia. }
    assert (H0 : wrapped width [] [] ([], [])).
    { unfold wrapped. cbn [fst snd map].
      change (len (@nil ascii)) with 0.
      repeat split; auto; try lia; congruence. }
    destruct (wrapWords_wrapped H0 (Fields_nonempty text))
      as (groups & group & [lines cur] & Ew & Hw & Hcat).
    rewrite Ew. cbn [concat app] in Hcat.
    destruct Hw as (Hl & Hc & Hg & Hll & Hcl & Hne). cbn [fst snd] in *.
    destruct (Z.gtb_spec (len cur) 0) as [Ec|Ec].
    + exists (groups ++ [group]).
      rewrite map_app, concat_app. cbn [map concat].
      rewrite app_nil_r, <- Hl, <- Hc. repeat split; auto.
      * apply Forall_app. split; [exact Hg|]. constructor; [|constructor].
        intros ->. subst cur. unfold len in Ec. cbn in Ec. lia.
      * apply Forall_app. split; [exact Hll|].
        constructor; [lia|constructor].
    + exists groups.
      assert (Hgroup : group = []).
      { destruct group; [reflexivity|]. exfalso.
        apply Hne; [discriminate|]. apply len_zero. lia. }
      subst group. rewrite app_nil_r in Hcat. rewrite <- Hl.
      repeat split; auto.
  - intros word. split; [apply chop_concat|].
    destruct (@hardSplit_chop (length word) word [] (Nat.le_refl _))
      as (ps & rest & _ & Hch & Hps & Hr & _).
    exists ps, rest. auto.
Qed.

End WrapFacts.

(** [wrapText] on a line whose second word is longer than the width. *)
Example wrapText_hard_split :
  wrapText (go "hello wonderful world") 6
  = Some [go "hello"; go "wonder"; go "ful"; go "world"].
Proof. vm_compute. reflexivity. Qed.

(** C8, counterexample: a text of five spaces wrapped at width 3 comes
    back as one line of five bytes, and it holds no word at all. *)
Lemma wrapText_blank_counterexample :
  wrapText (go "     ") 3 = Some [go "     "]
  /\ Strings.Fields (go "     ") = []
  /\ ~ Forall (fun l => (len l <= 3)%Z) [go "     "].
Proof.
  split; [vm_compute; reflexivity|]. split; [vm_compute; reflexivity|].
  intros Hf. inversion Hf as [|l ls Hl _]; subst.
  vm_compute in Hl. apply Hl. reflexivity.
Qed.

(** The theorem at width 6 on a text of three words, the second longer
    than the width: the text is wrapped, the lines are the pieces of its
    words, and the word [wonderful] is cut in a piece of 6 bytes and a
    rest. *)
Lemma wrapText_lines_witness :
  let text := go "hello wonderful world" in
  (exists groups,
      wrapText text 6 = Some (map lineOf groups)
      /\ concat groups = flat_map (pieces 6) (Strings.Fields text)
      /\ Forall (fun g => g <> []) groups
      /\ Forall (fun l => (0 < len l <= 6)%Z) (map lineOf groups))
  /\ (concat (pieces 6 (go "wonderful")) = go "wonderful"
      /\ exists ps rest,
          pieces 6 (go "wonderful") = ps ++ [rest]
          /\ Forall (fun p => len p = 6%Z) ps
          /\ (len rest <= 6)%Z)
  /\ wrapText (go "hello") 6 = Some [go "hello"].
Proof.
  intros text.
  destruct (@wrapText_lines 6%Z eq_refl text) as (_ & Hwrap & Hpieces).
  split; [|split].
  - apply Hwrap.
    + vm_compute. reflexivity.
    + vm_compute. discriminate.
  - apply Hpieces.
  - apply (proj1 (@wrapText_lines 6%Z eq_refl (go "hello"))).
    left. vm_compute. discriminate.
Defined.

(** ** The library model on small inputs *)

Section LibraryExamples.

Context `{Utf8.CaseTables}.

Import Utf8 Strings Regexp.

Example DecodeRune_e_acute :
  DecodeRune [byteOf 0xC3; byteOf 0xA9; "x"%char] = (0xE9%N, 2).
Proof. reflexivity. Qed.

Example DecodeRune_overlong :
  DecodeRune [byteOf 0xC0; byteOf 0x80] = (RuneError, 1).
Proof. reflexivity. Qed.

Example EncodeRune_euro :
  EncodeRune 0x20AC%N = [byteOf 0xE2; byteOf 0x82; byteOf 0xAC].
Proof. reflexivity. Qed.

Example TrimSpace_ascii : TrimSpace (go "  a b  ") = go "a b".
Proof. vm_compute. reflexivity. Qed.

(** U+00A0, the no-break space, is white space for [TrimSpace]. *)
Example TrimSpace_nbsp :
  TrimSpace ([byteOf 0xC2; byteOf 0xA0] ++ go "x ") = go "x".
Proof. vm_compute. reflexivity. Qed.

Example Fields_words :
  Fields (go "  hello   world ") = [go "hello"; go "world"].
Proof. vm_compute. reflexivity. Qed.

Example ToUpper_ascii : ToUpper (go "Warn-1") = go "WARN-1".
Proof. vm_compute. reflexivity. Qed.

Example Replace1_first :
  Replace1 (go "a 12:00 b 12:00") (go "12:00") [] = go "a  b 12:00".
Proof. vm_compute. reflexivity. Qed.

Example timePattern_embedded :
  FindStringSubmatch timePattern (go "up since 12:34:56.7 today")
  = Some [go "12:34:56.7"; go "12:34:56.7"].
Proof. vm_compute. reflexivity. Qed.

Example normalizeLevel_table :
  map normalizeLevel [go "warning"; go " Err "; go "LOG"; []; go "trace"]
  = [go "WARN"; go "ERROR"; go "INFO"; go "INFO"; go "TRACE"].
Proof. vm_compute. reflexivity. Qed.

End LibraryExamples.

(** ** The examples of the classifier *)

Section ClassifierExamples.

Context `{Utf8.CaseTables} `{JsonDecoder}.

(** Every expression of [patterns], and [timePattern], is accepted by
    the compiler: each has a capturing group, which the [noMatch] of a
    failed compilation has not, so [MustCompile] never takes its second
    branch. *)
Lemma patterns_compile :
  Forall (fun p => Regexp.numSubexp (fst p)
                   <> Regexp.numSubexp Regexp.noMatch) patterns
  /\ Regexp.numSubexp timePattern <> Regexp.numSubexp Regexp.noMatch.
Proof.
  split; [|vm_compute; discriminate].
  unfold patterns.
  repeat (constructor; [vm_compute; discriminate|]). constructor.
Qed.

(** C10: the PostgreSQL line with a Docker timestamp of the
    specification is classified with the Docker timestamp as time, level
    ERROR, job identifier 100 and the text after the colon as message. *)
Theorem parseLogLine_postgres_error :
  parseLogLine postgresErrorLine
  = {| Time := go "2025-07-19T00:26:54.972365013Z";
       Level := go "ERROR";
       Message := go "relation " ++ [dquote] ++ go "mat_object"
                     ++ [dquote] ++ go " does not exist";
       JobID := go "100"; Error := []; Raw := [] |}.
Proof. vm_compute. reflexivity. Qed.

(** C5 as amended: the line without time stamp and structure is returned
    whole as the message, and its level is INFO: the key words of the
    classifier are error, failed, exception, warn and debug, and none
    occurs in it. *)
Theorem parseLogLine_refused_info :
  parseLogLine refusedLine
  = {| Time := []; Level := go "INFO"; Message := refusedLine;
       JobID := []; Error := []; Raw := [] |}.
Proof. vm_compute. reflexivity. Qed.

(** C4, the failing input: a PostgreSQL FATAL line is classified with
    level FATAL, which [normalizeLevel] canonicalizes to ERROR, and yet
    [isErrorLog] answers false for the record. *)
Theorem isErrorLog_misses_fatal :
  let entry := parseLogLine postgresFatalLine in
  Level entry = go "FATAL"
  /\ Message entry = go "the database system is shutting down"
  /\ normalizeLevel (Level entry) = go "ERROR"
  /\ isErrorLog entry = false.
Proof. vm_compute. repeat split; reflexivity. Qed.

End ClassifierExamples.

(** C5, counterexample: on the line of the example the level returned is
    not ERROR. *)
Lemma parseLogLine_refused_not_error :
  Level (@parseLogLine asciiCase noJson refusedLine) <> go "ERROR".
Proof. vm_compute. discriminate. Qed.

(** ** The viewer *)

Section ViewerProperties.

Context `{Utf8.CaseTables}.
Local Open Scope Z_scope.

Lemma wrap_in_range z : - 2 ^ 63 <= z < 2 ^ 63 -> GoInt.wrap z = z.
Proof.
  intros Hz. unfold GoInt.wrap.
  rewrite Z.mod_small; lia.
Qed.

Lemma wrap_add_l a b : GoInt.wrap (GoInt.wrap a + b) = GoInt.wrap (a + b).
Proof.
  unfold GoInt.wrap.
  replace ((a + 2 ^ 63) mod 2 ^ 64 - 2 ^ 63 + b + 2 ^ 63)
    with ((a + 2 ^ 63) mod 2 ^ 64 + b) by ring.
  rewrite Zplus_mod_idemp_l. f_equal. f_equal. ring.
Qed.

Lemma visibleEntries_all m :
  showErrorsOnly m = false -> visibleEntries m = logEntries m.
Proof.
  intros Hf. unfold visibleEntries. rewrite Hf. simpl.
  induction (logEntries m) as [|e l IH]; simpl; [reflexivity|].
  now rewrite IH.
Qed.

(** C2 as amended: after the key end or G the scroll offset is
    [len(logEntries) - height + 5], counted over the whole buffer and not
    over the entries that pass the errors-only filter, whenever that
    number is not negative (and is an int). *)
Theorem Update_end_scrollOffset m key :
  key = go "end" \/ key = go "G" ->
  0 <= len (logEntries m) - height m + 5 < 2 ^ 63 ->
  scrollOffset (fst (Update m (KeyMsg key)))
  = len (logEntries m) - height m + 5.
Proof.
  intros Hkey Hr.
  assert (Hupd : fst (Update m (KeyMsg key))
                 = setScroll m (GoInt.add (GoInt.sub (len (logEntries m))
                                                     (height m)) 5)).
  { destruct Hkey as [-> | ->]; reflexivity. }
  rewrite Hupd. simpl. unfold GoInt.add, GoInt.sub.
  rewrite wrap_add_l. apply wrap_in_range. lia.
Qed.

(** C6 as amended: with height 10, three records and the filter off,
    [View] shows the records from index [min(scrollOffset, 2)] to the
    end, for every scroll offset from 0 up to the last one for which
    [scrollOffset + 7] is still an int: all three at 0, the last two at
    1, the last one alone from 2 on. *)
Theorem visibleSlice_three_records m a b c :
  logEntries m = [a; b; c] ->
  height m = 10 ->
  showErrorsOnly m = false ->
  0 <= scrollOffset m < 2 ^ 63 - 7 ->
  visibleSlice m
  = Some (skipn (Z.to_nat (Z.min (scrollOffset m) 2)) [a; b; c]).
Proof.
  intros He Hh Hf Hs.
  unfold visibleSlice, viewBounds.
  rewrite (visibleEntries_all m Hf), He, Hh.
  unfold GoInt.add, GoInt.sub, len. simpl length.
  rewrite (@wrap_in_range (10 - 3)) by lia.
  rewrite (@wrap_in_range (scrollOffset m + (10 - 3))) by lia.
  rewrite (@wrap_in_range (Z.of_nat 3 - 1)) by lia.
  change (Z.of_nat 3) with 3.
  replace (scrollOffset m + (10 - 3) >? 3) with true by lia.
  destruct (Z.eq_dec (scrollOffset m) 0) as [E0|N0].
  { rewrite E0. reflexivity. }
  destruct (Z.eq_dec (scrollOffset m) 1) as [E1|N1].
  { rewrite E1. reflexivity. }
  destruct (Z.eq_dec (scrollOffset m) 2) as [E2|N2].
  { rewrite E2. reflexivity. }
  replace (scrollOffset m >=? 3) with true by lia.
  rewrite Z.min_r by lia. reflexivity.
Qed.

End ViewerProperties.

(** C2, counterexample: with 8 records, height 10 and the filter off the
    key end leaves the offset at 3, where the formula of the claim gives
    0. *)
Lemma Update_end_counterexample :
  let m := readyModel (repeat (plainEntry (go "x")) 8) 10 false 0 in
  scrollOffset (fst (Update m (KeyMsg (go "end")))) = 3%Z
  /\ Z.max 0 (len (@visibleEntries asciiCase m) - (height m - 3 + 5)) = 0%Z
  /\ scrollOffset (fst (Update m (KeyMsg (go "end"))))
     <> Z.max 0 (len (@visibleEntries asciiCase m) - (height m - 3 + 5)).
Proof. vm_compute. repeat split; discriminate. Qed.

(** The theorem at 8 records and height 10. *)
Lemma Update_end_witness :
  let m := readyModel (repeat (plainEntry (go "x")) 8) 10 false 0 in
  scrollOffset (fst (Update m (KeyMsg (go "end")))) = 3%Z.
Proof.
  intros m.
  apply (@Update_end_scrollOffset m (go "end")).
  - left; reflexivity.
  - vm_compute. split; [discriminate | reflexivity].
Defined.

(** C6, counterexample: with height 10, three records and the filter off,
    at scroll offset 1 only the last two records are shown. *)
Lemma visibleSlice_three_counterexample :
  let a := plainEntry (go "a") in
  let b := plainEntry (go "b") in
  let c := plainEntry (go "c") in
  let m := readyModel [a; b; c] 10 false 1 in
  @visibleSlice asciiCase m = Some [b; c]
  /\ @visibleSlice asciiCase m <> Some (logEntries m).
Proof. vm_compute. split; [reflexivity | discriminate]. Qed.

(** The theorem at scroll offset 5: only the last record is shown. *)
Lemma visibleSlice_three_witness :
  let a := plainEntry (go "a") in
  let b := plainEntry (go "b") in
  let c := plainEntry (go "c") in
  @visibleSlice asciiCase (readyModel [a; b; c] 10 false 5) = Some [c].
Proof.
  intros a b c.
  apply (@visibleSlice_three_records asciiCase
           (readyModel [a; b; c] 10 false 5) a b c);
    try reflexivity.
  vm_compute. split; [discriminate | reflexivity].
Defined.

(** C3, the failing trace: from the initial model of an 80x24 terminal,
    one record arrives and the key end is pressed.  The model is ready and
    holds no error, the offset is -18, and the slice expression of [View]
    is [visibleEntries[-18:1]], which panics. *)
Theorem View_slice_out_of_bounds :
  let m0 := initialModel None (go "0123456789abcdef") in
  let m1 := fst (Update m0 (logMsg (plainEntry (go "started")))) in
  let m2 := fst (Update m1 (KeyMsg (go "end"))) in
  reachable m0 m2
  /\ ready m2 = true /\ err m2 = None
  /\ scrollOffset m2 = (-18)%Z
  /\ @viewBounds asciiCase m2 = ((-18)%Z, 1%Z)
  /\ @visibleSlice asciiCase m2 = None.
Proof.
  intros m0 m1 m2. split.
  - unfold m2, m1. apply reach_step. apply reach_step. apply reach_init.
  - vm_compute. repeat split; reflexivity.
Qed.

(** ** The stream pump *)

Section PumpProperties.

Context `{Utf8.CaseTables} `{JsonDecoder}.
Local Open Scope Z_scope.

Lemma scanLoop_not_done done lines : forall i n,
  (forall j, (j < length lines)%nat -> done (i + j)%nat = false) ->
  scanLoop done i lines n
  = (map (fun l => Send (logMsg (parseLogLine l))) lines,
     Some (countedFrom n lines)).
Proof.
  induction lines as [|l ls IH]; intros i n Hd; simpl.
  - reflexivity.
  - assert (H0i : done i = false).
    { replace i with (i + 0)%nat by lia. apply Hd. simpl. lia. }
    rewrite H0i. rewrite (IH (S i) (GoInt.add n 1)).
    + reflexivity.
    + intros j Hj. replace (S i + j)%nat with (i + S j)%nat by lia.
      apply Hd. simpl. lia.
Qed.

Lemma sent_app a b : sent (a ++ b) = sent a ++ sent b.
Proof. unfold sent. apply flat_map_app. Qed.

Lemma sent_records (lines : list gostring) :
  sent (map (fun l => Send (logMsg (parseLogLine l))) lines)
  = map (fun l => logMsg (parseLogLine l)) lines.
Proof.
  induction lines as [|l ls IH]; [reflexivity|].
  unfold sent in *. cbn [map flat_map app]. now rewrite IH.
Qed.

Lemma filter_records_error (lines : list gostring) :
  filter isErrorMsg (map (fun l => logMsg (parseLogLine l)) lines) = [].
Proof. induction lines as [|l ls IH]; simpl; auto. Qed.

Lemma filter_records_log (lines : list gostring) :
  filter (fun m => negb (isLogMsg m))
         (map (fun l => logMsg (parseLogLine l)) lines) = [].
Proof. induction lines as [|l ls IH]; simpl; auto. Qed.

Lemma filter_logs_call_records (lines : list gostring) :
  filter isLogsCall (map (fun l => Send (logMsg (parseLogLine l))) lines)
  = [].
Proof. induction lines as [|l ls IH]; simpl; auto. Qed.

(** C7: when the log stream breaks with a read error after some lines
    (and the context is not cancelled while they are read), the pump sends
    the records of the lines read, then one informational message, then one
    error message, and nothing more: exactly one error message is sent, it
    is the last message, the messages that are not records are the last
    two, and [ContainerLogs] is called once, so nothing is retried. *)
Theorem streamLogs_read_error docker done tail stream e :
  newClient docker = None ->
  containerInspect docker = None ->
  containerLogs docker = inr stream ->
  scanErr stream = Some e ->
  (forall i, (i < length (scanned stream))%nat -> done i = false) ->
  let effects := streamLogs docker done tail in
  let msgs := sent effects in
  let records := map (fun l => logMsg (parseLogLine l)) (scanned stream) in
  let info := infoMsg (go "Read " ++ itoa (countedFrom 0 (scanned stream))
                          ++ go " lines from Docker API") in
  let failure := errorMsg (wrapError (go "error reading logs: ") e) in
  msgs = records ++ [info; failure]
  /\ length (filter isErrorMsg msgs) = 1%nat
  /\ last msgs otherMsg = failure
  /\ filter (fun m => negb (isLogMsg m)) msgs = [info; failure]
  /\ length (filter isLogsCall effects) = 1%nat.
Proof.
  intros Hc Hi Hl He Hd effects msgs records info failure.
  assert (Heff : effects
                 = [CallNewClient; CallContainerInspect;
                    CallContainerLogs
                      (if tail >? 0 then itoa tail else go "all")]
                   ++ map (fun l => Send (logMsg (parseLogLine l)))
                          (scanned stream)
                   ++ [Printf (go "DEBUG: Read "
                                 ++ itoa (countedFrom 0 (scanned stream))
                                 ++ go " lines from Docker API"
                                 ++ [ascii_of_nat 10]);
                       Send info; Send failure]).
  { unfold effects, streamLogs. rewrite Hc, Hi, Hl.
    rewrite (scanLoop_not_done done (scanned stream) 0 0) by exact Hd.
    rewrite He. simpl. reflexivity. }
  assert (Hmsgs : msgs = records ++ [info; failure]).
  { unfold msgs. rewrite Heff. rewrite !sent_app, sent_records.
    reflexivity. }
  split; [exact Hmsgs|].
  split.
  { rewrite Hmsgs, filter_app. unfold records.
    rewrite filter_records_error. reflexivity. }
  split.
  { rewrite Hmsgs.
    replace (records ++ [info; failure])
      with ((records ++ [info]) ++ [failure])
      by (rewrite <- app_assoc; reflexivity).
    apply last_last. }
  split.
  { rewrite Hmsgs, filter_app. unfold records.
    rewrite filter_records_log. reflexivity. }
  rewrite Heff. rewrite !filter_app, filter_logs_call_records.
  reflexivity.
Qed.

End PumpProperties.

(** The theorem on a stream of two lines that breaks. *)
Lemma streamLogs_read_error_witness :
  length (filter isErrorMsg
                 (sent (@streamLogs asciiCase noJson brokenDocker
                                    (fun _ => false) 0)))
  = 1%nat.
Proof.
  refine (proj1 (proj2 (@streamLogs_read_error asciiCase noJson brokenDocker
                          (fun _ => false) 0%Z _ _ _ _ _ _ _)));
    reflexivity.
Defined.


(** ** The event loop *)

Section EventLoop.

Local Open Scope Z_scope.

Lemma streq_eq (a : gostring) : forall b, streq a b = true <-> a = b.
Proof.
  induction a as [|x a IH]; intros [|y b]; cbn [streq];
    try (split; [discriminate|congruence]); [tauto|].
  rewrite andb_true_iff, Ascii.eqb_eq, IH. split.
  - intros [-> ->]. reflexivity.
  - intros E. inversion E. auto.
Qed.

Lemma runMsgs_app m a b : runMsgs m (a ++ b) = runMsgs (runMsgs m a) b.
Proof. unfold runMsgs. apply fold_left_app. Qed.

Lemma recordsOf_cons msg msgs :
  recordsOf (msg :: msgs) = recordsOf [msg] ++ recordsOf msgs.
Proof. unfold recordsOf. cbn [flat_map]. now rewrite app_nil_r. Qed.

Lemma Update_logEntries m msg :
  logEntries (fst (Update m msg))
  = logEntries m ++ recordsOf [msg].
Proof.
  destruct msg as [w h|key|e|e|s|]; cbn [recordsOf flat_map app];
    rewrite ?app_nil_r; try reflexivity.
  unfold Update.
  repeat match goal with
  | |- context [if keyIs ?k ?l then _ else _] => destruct (keyIs k l)
  | |- context [if ?c then setScroll _ _ else _] => destruct c
  end; reflexivity.
Qed.

(** X1: whatever the messages are, the buffer after them is the buffer
    before followed by the records received, in the order of arrival:
    nothing is dropped, reordered or removed, also after an error. *)
Theorem runMsgs_logEntries msgs : forall m,
  logEntries (runMsgs m msgs) = logEntries m ++ recordsOf msgs.
Proof.
  induction msgs as [|msg msgs IH]; intros m.
  - cbn. now rewrite app_nil_r.
  - change (runMsgs m (msg :: msgs))
      with (runMsgs (fst (Update m msg)) msgs).
    rewrite IH, Update_logEntries, (recordsOf_cons msg msgs).
    now rewrite app_assoc.
Qed.

Lemma Update_logCount m msg :
  logCount (fst (Update m msg))
  = GoInt.wrap (logCount m + len (recordsOf [msg]))
  \/ logCount (fst (Update m msg)) = logCount m /\ recordsOf [msg] = [].
Proof.
  destruct msg as [w h|key|e|e|s|]; try (right; split; reflexivity).
  - right. split; [|reflexivity]. unfold Update.
    repeat match goal with
    | |- context [if keyIs ?k ?l then _ else _] => destruct (keyIs k l)
    | |- context [if ?c then setScroll _ _ else _] => destruct c
    end; reflexivity.
  - left. reflexivity.
Qed.

(** X2: from the model that [RunLogs] starts with, the counter shown as
    "Loaded" is the number of records in the buffer (as an int, so modulo
    2^64), whatever messages arrive. *)
Theorem runMsgs_logCount termSize containerID errorsOnly tail msgs :
  let m := runMsgs (startModel termSize containerID errorsOnly tail) msgs in
  logCount m = GoInt.wrap (len (logEntries m)).
Proof.
  cbv zeta.
  assert (Hinv : forall msgs m,
             logCount m = GoInt.wrap (len (logEntries m)) ->
             logCount (runMsgs m msgs)
             = GoInt.wrap (len (logEntries (runMsgs m msgs)))).
  { clear. induction msgs as [|msg msgs IH]; intros m Hm; [exact Hm|].
    change (runMsgs m (msg :: msgs))
      with (runMsgs (fst (Update m msg)) msgs).
    apply IH. rewrite Update_logEntries.
    destruct (Update_logCount m msg) as [E|[E R]].
    - rewrite E, Hm, wrap_add_l. f_equal. unfold len.
      rewrite length_app. lia.
    - rewrite E, R, app_nil_r. exact Hm. }
  apply Hinv. unfold startModel, initialModel.
  destruct termSize as [[w h]|]; reflexivity.
Qed.

Lemma Update_up m key :
  key = go "up" \/ key = go "k" ->
  fst (Update m (KeyMsg key))
  = if scrollOffset m >? 0 then setScroll m (GoInt.sub (scrollOffset m) 1)
    else m.
Proof. intros [-> | ->]; reflexivity. Qed.

Lemma Update_home m key :
  key = go "home" \/ key = go "g" ->
  fst (Update m (KeyMsg key)) = setScroll m 0.
Proof. intros [-> | ->]; reflexivity. Qed.

Lemma Update_pageup m :
  fst (Update m (KeyMsg (go "pageup")))
  = if scrollOffset m >? height m
    then setScroll m (GoInt.sub (scrollOffset m) (height m))
    else setScroll m 0.
Proof. reflexivity. Qed.

(** X3: the keys that scroll towards the top (up, k, home, g, pageup)
    never take a non-negative offset below zero, and never increase it. *)
Theorem Update_scroll_up_bounds m key :
  In key [go "up"; go "k"; go "home"; go "g"; go "pageup"] ->
  0 <= scrollOffset m < 2 ^ 63 ->
  0 <= height m ->
  0 <= scrollOffset (fst (Update m (KeyMsg key))) <= scrollOffset m.
Proof.
  intros Hk Hs Hh. cbn [In] in Hk.
  destruct Hk as [<-|[<-|[<-|[<-|[<-|[]]]]]].
  - rewrite Update_up by auto.
    destruct (Z.gtb_spec (scrollOffset m) 0); cbn [scrollOffset setScroll];
      [|lia]. unfold GoInt.sub. rewrite wrap_in_range; lia.
  - rewrite Update_up by auto.
    destruct (Z.gtb_spec (scrollOffset m) 0); cbn [scrollOffset setScroll];
      [|lia]. unfold GoInt.sub. rewrite wrap_in_range; lia.
  - rewrite Update_home by auto. cbn [scrollOffset setScroll]. lia.
  - rewrite Update_home by auto. cbn [scrollOffset setScroll]. lia.
  - rewrite Update_pageup.
    destruct (Z.gtb_spec (scrollOffset m) (height m));
      cbn [scrollOffset setScroll]; [|lia].
    unfold GoInt.sub. rewrite wrap_in_range; lia.
Qed.

(** X4: [Update] asks the program to quit for the keys ctrl+c and q, and
    for nothing else; the model is then left as it is. *)
Theorem Update_quit m msg :
  (snd (Update m msg) = Quit
   <-> msg = KeyMsg (go "ctrl+c") \/ msg = KeyMsg (go "q"))
  /\ fst (Update m (KeyMsg (go "ctrl+c"))) = m
  /\ fst (Update m (KeyMsg (go "q"))) = m.
Proof.
  split; [|split; reflexivity]. split.
  - destruct msg as [w h|key|e|e|s|]; try discriminate.
    unfold Update. destruct (keyIs key [go "ctrl+c"; go "q"]) eqn:E.
    + intros _. unfold keyIs in E. cbn [existsb] in E.
      rewrite orb_false_r in E. apply orb_prop in E.
      destruct E as [E|E]; apply streq_eq in E; subst key; auto.
    + repeat match goal with
      | |- context [if keyIs ?k ?l then _ else _] => destruct (keyIs k l)
      end; discriminate.
  - intros [-> | ->]; reflexivity.
Qed.

Lemma Update_key_frame m key :
  ready (fst (Update m (KeyMsg key))) = ready m
  /\ err (fst (Update m (KeyMsg key))) = err m.
Proof.
  unfold Update.
  repeat match goal with
  | |- context [if keyIs ?k ?l then _ else _] => destruct (keyIs k l)
  | |- context [if ?c then setScroll _ _ else _] => destruct c
  end; split; reflexivity.
Qed.

(** X5: the error state is persistent.  Once an error is recorded no
    later message clears it (a later error replaces it), and a model that
    is ready stays ready; after the messages [msgs] the error is the last
    one received, or the one held before if none was received. *)
Theorem runMsgs_error_persistent msgs : forall m,
  (ready m = true -> ready (runMsgs m msgs) = true)
  /\ (err m <> None -> err (runMsgs m msgs) <> None)
  /\ err (runMsgs m msgs)
     = match lastError msgs with Some e => Some e | None => err m end.
Proof.
  assert (Hlast : forall msgs acc,
             fold_left (fun acc msg =>
                          match msg with errorMsg e => Some e | _ => acc end)
                       msgs acc
             = match lastError msgs with Some e => Some e | None => acc end).
  { clear. unfold lastError.
    induction msgs as [|msg msgs IH]; intros acc; [reflexivity|].
    cbn [fold_left]. rewrite IH.
    rewrite (IH (match msg with errorMsg e => Some e | _ => None end)).
    destruct (fold_left _ msgs None); [reflexivity|].
    destruct msg; reflexivity. }
  induction msgs as [|msg msgs IH]; intros m.
  - cbn. auto.
  - change (runMsgs m (msg :: msgs))
      with (runMsgs (fst (Update m msg)) msgs).
    destruct (IH (fst (Update m msg))) as (Hr & He & Hl).
    assert (Hstep : (ready m = true -> ready (fst (Update m msg)) = true)
                    /\ err (fst (Update m msg))
                       = match msg with
                         | errorMsg e => Some e
                         | _ => err m
                         end).
    { destruct msg as [w h|key|e|e|s|]; try (split; [auto|reflexivity]).
      destruct (Update_key_frame m key) as [-> ->]. auto. }
    destruct Hstep as [Sr Se].
    split; [auto|]. split.
    + intros Hm. apply He. rewrite Se. destruct msg; auto; discriminate.
    + rewrite Hl, Se. unfold lastError at 2. cbn [fold_left].
      rewrite Hlast. fold (lastError msgs).
      destruct (lastError msgs); [reflexivity|].
      destruct msg; reflexivity.
Qed.

End EventLoop.

Section ViewSlice.

Context `{Utf8.CaseTables}.
Local Open Scope Z_scope.

Lemma len_nonneg {A} (l : list A) : 0 <= len l.
Proof. unfold len. lia. Qed.

Lemma slice_some {A} (s : list A) low high :
  0 <= low <= high -> high <= len s ->
  slice s low high
  = Some (firstn (Z.to_nat (high - low)) (skipn (Z.to_nat low) s)).
Proof.
  intros H1 H2. unfold slice.
  destruct (Z.leb_spec 0 low); [|lia].
  destruct (Z.leb_spec low high); [|lia].
  destruct (Z.leb_spec high (len s)); [|lia].
  reflexivity.
Qed.

Lemma slice_none {A} (s : list A) low high :
  low < 0 \/ high < low \/ len s < high -> slice s low high = None.
Proof.
  intros H1. unfold slice.
  destruct (Z.leb_spec 0 low); [|reflexivity].
  destruct (Z.leb_spec low high); [|reflexivity].
  destruct (Z.leb_spec high (len s)); [|reflexivity].
  lia.
Qed.

(** The indices of [View] when its two sums do not overflow. *)
Lemma viewBounds_eq m :
  - 2 ^ 63 <= height m - 3 < 2 ^ 63 ->
  - 2 ^ 63 <= scrollOffset m + (height m - 3) < 2 ^ 63 ->
  len (visibleEntries m) < 2 ^ 63 ->
  viewBounds m
  = (if scrollOffset m <? len (visibleEntries m)
     then scrollOffset m
     else Z.max 0 (len (visibleEntries m) - 1),
     Z.min (scrollOffset m + (height m - 3)) (len (visibleEntries m))).
Proof.
  intros Hs Hh Hn.
  pose proof (len_nonneg (visibleEntries m)) as Hn0.
  pose proof (eq_refl : 2 ^ 63 = 4 * 2 ^ 61) as Hpow.
  unfold viewBounds, GoInt.add, GoInt.sub.
  rewrite (@wrap_in_range (height m - 3)) by lia.
  rewrite (@wrap_in_range (scrollOffset m + (height m - 3))) by lia.
  rewrite (@wrap_in_range (len (visibleEntries m) - 1)) by lia.
  f_equal.
  - destruct (Z.geb_spec (scrollOffset m) (len (visibleEntries m)));
      destruct (Z.ltb_spec (scrollOffset m) (len (visibleEntries m)));
      try lia.
    destruct (Z.ltb_spec (len (visibleEntries m) - 1) 0); lia.
  - destruct (Z.gtb_spec (scrollOffset m + (height m - 3))
                         (len (visibleEntries m))); lia.
Qed.

(** X6: when the slice expression of [View] panics, provided its sums do
    not overflow.  With [n] entries
    passing the filter, scroll offset [s] and height [h], the expression
    [visibleEntries[start:end]] is out of range exactly when [s] points
    into the entries and is negative or [h] is below 3, or when [s] is at
    or past the end and [s + h - 3] stays below the index of the last
    entry. *)
Theorem visibleSlice_panics_iff m :
  - 2 ^ 63 <= height m - 3 < 2 ^ 63 ->
  - 2 ^ 63 <= scrollOffset m + (height m - 3) < 2 ^ 63 ->
  len (visibleEntries m) < 2 ^ 63 ->
  visibleSlice m = None
  <-> (scrollOffset m < len (visibleEntries m)
       /\ (scrollOffset m < 0 \/ height m < 3))
      \/ (len (visibleEntries m) <= scrollOffset m
          /\ scrollOffset m + (height m - 3)
             < Z.max 0 (len (visibleEntries m) - 1)).
Proof.
  intros Hs Hh Hn.
  pose proof (len_nonneg (visibleEntries m)) as Hn0.
  unfold visibleSlice. rewrite (viewBounds_eq m Hs Hh Hn).
  destruct (Z.ltb_spec (scrollOffset m) (len (visibleEntries m)))
    as [Hlt|Hge].
  - split.
    + intros Hnone. left. split; [exact Hlt|].
      destruct (Z.lt_ge_cases (scrollOffset m) 0) as [|H0]; [now left|].
      destruct (Z.lt_ge_cases (height m) 3) as [|H3]; [now right|].
      rewrite slice_some in Hnone by lia. discriminate.
    + intros [[_ Hc]|[Hc _]]; [|lia].
      apply slice_none. lia.
  - split.
    + intros Hnone. right. split; [exact Hge|].
      destruct (Z.lt_ge_cases (scrollOffset m + (height m - 3))
                              (Z.max 0 (len (visibleEntries m) - 1)))
        as [|Hok]; [assumption|].
      rewrite slice_some in Hnone by lia. discriminate.
    + intros [[Hc _]|[_ Hc]]; [lia|].
      apply slice_none. lia.
Qed.

(** X7: what [View] renders when the slice expression does not panic: at
    most [max(1, height - 3)] entries, which are the [height - 3] entries
    from the scroll offset on when the offset points into the entries; when
    it points past them, the last entry alone, or nothing if
    [scrollOffset + height - 3] is the index of the last entry. *)
Theorem visibleSlice_content m l :
  - 2 ^ 63 <= height m - 3 < 2 ^ 63 ->
  - 2 ^ 63 <= scrollOffset m + (height m - 3) < 2 ^ 63 ->
  len (visibleEntries m) < 2 ^ 63 ->
  visibleSlice m = Some l ->
  l = (if scrollOffset m <? len (visibleEntries m)
       then firstn (Z.to_nat (height m - 3))
                   (skipn (Z.to_nat (scrollOffset m)) (visibleEntries m))
       else firstn (Z.to_nat (scrollOffset m + (height m - 3)
                              - (len (visibleEntries m) - 1)))
                   (skipn (Z.to_nat (len (visibleEntries m) - 1))
                          (visibleEntries m)))
  /\ len l <= Z.max 1 (height m - 3).
Proof.
  intros Hs Hh Hn Hsome.
  pose proof (len_nonneg (visibleEntries m)) as Hn0.
  unfold visibleSlice in Hsome. rewrite (viewBounds_eq m Hs Hh Hn) in Hsome.
  assert (Hlen : forall k, length (skipn k (visibleEntries m))
                           = (length (visibleEntries m) - k)%nat).
  { intros k. apply length_skipn. }
  destruct (Z.ltb_spec (scrollOffset m) (len (visibleEntries m)))
    as [Hlt|Hge].
  - assert (H0 : 0 <= scrollOffset m /\ 3 <= height m).
    { destruct (Z.lt_ge_cases (scrollOffset m) 0) as [Hc|];
        [|destruct (Z.lt_ge_cases (height m) 3) as [Hc|]; [|lia]].
      - rewrite slice_none in Hsome by lia. discriminate.
      - rewrite slice_none in Hsome by lia. discriminate. }
    rewrite slice_some in Hsome by lia.
    injection Hsome as <-.
    assert (Heq : firstn (Z.to_nat (Z.min (scrollOffset m + (height m - 3))
                                          (len (visibleEntries m))
                                    - scrollOffset m))
                         (skipn (Z.to_nat (scrollOffset m)) (visibleEntries m))
                  = firstn (Z.to_nat (height m - 3))
                           (skipn (Z.to_nat (scrollOffset m))
                                  (visibleEntries m))).
    { destruct (Z.le_gt_cases (scrollOffset m + (height m - 3))
                              (len (visibleEntries m))) as [Hle|Hgt].
      - rewrite Z.min_l by lia. f_equal. lia.
      - rewrite Z.min_r by lia.
        rewrite !firstn_all2; [reflexivity| |];
          rewrite Hlen; unfold len in *; lia. }
    rewrite Heq. split; [reflexivity|].
    unfold len. rewrite length_firstn. lia.
  - destruct (Z.lt_ge_cases (scrollOffset m + (height m - 3))
                            (Z.max 0 (len (visibleEntries m) - 1)))
      as [Hc|Hok].
    { rewrite slice_none in Hsome by lia. discriminate. }
    rewrite slice_some in Hsome by lia.
    injection Hsome as <-.
    assert (Heq : Z.to_nat (Z.max 0 (len (visibleEntries m) - 1))
                  = Z.to_nat (len (visibleEntries m) - 1)) by lia.
    rewrite Heq.
    assert (Hshort : (length (skipn (Z.to_nat (len (visibleEntries m) - 1))
                                    (visibleEntries m)) <= 1)%nat).
    { rewrite Hlen. unfold len in *. lia. }
    split.
    + destruct (Z.le_gt_cases (len (visibleEntries m))
                              (scrollOffset m + (height m - 3)))
        as [Hle|Hgt].
      * rewrite Z.min_r by lia.
        rewrite !firstn_all2; [reflexivity| |];
          rewrite Hlen; unfold len in *; lia.
      * rewrite Z.min_l by lia. f_equal. lia.
    + unfold len at 1. rewrite length_firstn. lia.
Qed.

End ViewSlice.

(** The theorem for the key pageup at offset 5 and height 10. *)
Lemma Update_scroll_up_witness :
  let m := readyModel (repeat (plainEntry (go "x")) 8) 10 false 5 in
  (0 <= scrollOffset (fst (Update m (KeyMsg (go "pageup"))))
   <= scrollOffset m)%Z.
Proof.
  intros m.
  apply (@Update_scroll_up_bounds m (go "pageup")).
  - cbn [In]. do 4 right. left. reflexivity.
  - vm_compute. split; [discriminate | reflexivity].
  - vm_compute. discriminate.
Defined.

(** The theorem at height 2, offset 0 and one record: [View] panics. *)
Lemma visibleSlice_panics_witness :
  @visibleSlice asciiCase (readyModel [plainEntry (go "x")] 2 false 0)
  = None.
Proof.
  refine (proj2 (@visibleSlice_panics_iff asciiCase
                   (readyModel [plainEntry (go "x")] 2 false 0) _ _ _) _).
  - vm_compute. split; [discriminate | reflexivity].
  - vm_compute. split; [discriminate | reflexivity].
  - vm_compute. reflexivity.
  - left. vm_compute. split; [reflexivity | right; reflexivity].
Defined.

(** The theorem at height 5 and offset 1 with three records. *)
Lemma visibleSlice_content_witness :
  let a := plainEntry (go "a") in
  let b := plainEntry (go "b") in
  let c := plainEntry (go "c") in
  [b; c] = [b; c] /\ (len [b; c] <= Z.max 1 (5 - 3))%Z.
Proof.
  intros a b c.
  apply (@visibleSlice_content asciiCase (readyModel [a; b; c] 5 false 1)
                               [b; c]).
  - vm_compute. split; [discriminate | reflexivity].
  - vm_compute. split; [discriminate | reflexivity].
  - vm_compute. reflexivity.
  - vm_compute. reflexivity.
Defined.


(** ** Word wrapping: when [wrapText] returns *)

Section WrapReturns.

Import Utf8 Strings.
Local Open Scope Z_scope.

Lemma hardSplit_O lines word width :
  hardSplit 0 lines word width
  = if len word >? width then None else Some (lines, word).
Proof. reflexivity. Qed.

(** With a width that is not positive the inner loop gives no result for
    a word that is not empty: a negative width makes the slice panic, a
    zero width leaves the word as it is, for ever. *)
Lemma hardSplit_stuck width word :
  width <= 0 -> word <> [] ->
  forall fuel lines, hardSplit fuel lines word width = None.
Proof.
  intros Hw Hne. pose proof (len_pos Hne) as Hp.
  induction fuel as [|fuel IH]; intros lines.
  - rewrite hardSplit_O.
    destruct (Z.gtb_spec (len word) width); [reflexivity|lia].
  - rewrite hardSplit_S.
    destruct (Z.gtb_spec (len word) width); [|lia].
    destruct (Z.ltb_spec width 0); [reflexivity|].
    assert (E0 : width = 0) by lia.
    rewrite E0 at 1 2. cbn [Z.to_nat skipn]. apply IH.
Qed.

Lemma wrapText_stuck text width :
  width <= 0 -> Fields text <> [] -> wrapText text width = None.
Proof.
  intros Hw Hf. unfold wrapText.
  destruct (Z.leb_spec (len text) width) as [Hle|_].
  { exfalso. apply Hf. rewrite (@len_zero text) by lia. reflexivity. }
  pose proof (Fields_nonempty text) as Hne.
  destruct (Fields text) as [|w ws]; [congruence|].
  inversion Hne as [|w' ws' Hw0 _]; subst.
  pose proof (len_pos Hw0) as Hp.
  destruct (Z.eqb_spec (len (w :: ws)) 0) as [Hz|_].
  { unfold len in Hz. cbn [length] in Hz. lia. }
  cbn [wrapWords]. unfold wrapWord.
  change (len (@nil ascii)) with 0.
  destruct (Z.gtb_spec (0 + len w + 1) width); [|lia].
  cbn [Z.gtb Z.compare].
  destruct (Z.gtb_spec (len w) width); [|lia].
  rewrite (@hardSplit_stuck width w Hw Hw0). reflexivity.
Qed.

Lemma wrapText_positive text width :
  0 < width -> exists lines, wrapText text width = Some lines.
Proof.
  intros Hw. unfold wrapText.
  destruct (len text <=? width); [eauto|].
  destruct (len (Fields text) =? 0); [eauto|].
  assert (H0 : wrapped width [] [] ([], [])).
  { unfold wrapped. cbn [fst snd map].
    change (len (@nil ascii)) with 0.
    repeat split; auto; try lia; congruence. }
  destruct (@wrapWords_wrapped width Hw (Fields text) [] [] ([], []) H0
              (Fields_nonempty text))
    as (groups & group & [lines cur] & Ew & _).
  rewrite Ew. destruct (len cur >? 0); eauto.
Qed.

(** X9: [wrapText] gives a result exactly when the width is positive or
    the text holds no word.  For a width of zero or less and a text with a
    word, the call panics (negative width) or never returns (width zero):
    that is the case in [View] when the terminal is at most two columns
    wide and word wrap is on. *)
Theorem wrapText_returns_iff text width :
  (exists lines, wrapText text width = Some lines)
  <-> 0 < width \/ Fields text = [].
Proof.
  split.
  - intros [lines Hl].
    destruct (Z.lt_ge_cases 0 width) as [Hw|Hw]; [now left|]. right.
    destruct (Fields text) as [|w ws] eqn:Ef; [reflexivity|].
    rewrite wrapText_stuck in Hl; [discriminate|lia|].
    rewrite Ef. discriminate.
  - intros [Hw|Hf].
    + now apply wrapText_positive.
    + exists [text]. unfold wrapText. rewrite Hf.
      destruct (len text <=? width); reflexivity.
Qed.

Lemma Join_app (sep : gostring) (b : list gostring) : forall a,
  a <> [] -> b <> [] ->
  Join (a ++ b) sep = Join a sep ++ sep ++ Join b sep.
Proof.
  intros a Ha Hb. induction a as [|x a IH]; [congruence|].
  destruct a as [|y a].
  - cbn [app]. destruct b; [congruence|]. reflexivity.
  - change (Join ((x :: y :: a) ++ b) sep)
      with (x ++ sep ++ Join ((y :: a) ++ b) sep).
    rewrite IH by discriminate.
    change (Join (x :: y :: a) sep) with (x ++ sep ++ Join (y :: a) sep).
    now rewrite <- !app_assoc.
Qed.

(** Lines of words joined again: the words of all lines, joined. *)
Lemma Join_lines (groups : list (list gostring)) :
  Forall (fun g => g <> []) groups ->
  Join (map lineOf groups) (go " ") = Join (concat groups) (go " ").
Proof.
  induction groups as [|g gs IH]; intros Hg; [reflexivity|].
  inversion Hg as [|g' gs' Hne Hgs]; subst.
  destruct gs as [|g2 gs].
  - cbn [map concat Join]. now rewrite app_nil_r.
  - change (Join (map lineOf (g :: g2 :: gs)) (go " "))
      with (lineOf g ++ go " " ++ Join (map lineOf (g2 :: gs)) (go " ")).
    rewrite IH by exact Hgs.
    assert (Hrest : concat (g2 :: gs) <> []).
    { inversion Hgs as [|g2' gs2 Hne2 _]; subst.
      cbn [concat]. destruct g2; [congruence|discriminate]. }
    change (concat (g :: g2 :: gs)) with (g ++ concat (g2 :: gs)).
    rewrite (@Join_app (go " ") (concat (g2 :: gs)) g Hne Hrest).
    reflexivity.
Qed.

Lemma pieces_fit width (words : list gostring) :
  0 < width ->
  Forall (fun w => len w <= width) words ->
  flat_map (pieces width) words = words.
Proof.
  intros Hpos.
  induction words as [|w ws IH]; intros Hf; [reflexivity|].
  inversion Hf as [|w' ws' Hw Hws]; subst.
  cbn [flat_map]. rewrite IH by exact Hws.
  unfold pieces. rewrite (@chop_short width Hpos) by exact Hw. reflexivity.
Qed.

(** X10: wrapping loses no text.  When every word of the text fits the
    width, the lines that [wrapText] makes of a text longer than the width
    give, joined by single spaces, the words of the text joined by single
    spaces: only white space is changed. *)
Theorem wrapText_round_trip text width :
  0 < width -> width < len text ->
  Fields text <> [] ->
  Forall (fun w => len w <= width) (Fields text) ->
  exists lines,
    wrapText text width = Some lines
    /\ Join lines (go " ") = Join (Fields text) (go " ").
Proof.
  intros Hw Hlong Hf Hfit. unfold wrapText.
  destruct (Z.leb_spec (len text) width) as [Hle|_]; [lia|].
  destruct (Z.eqb_spec (len (Fields text)) 0) as [Hz|_].
  { destruct (Fields text); [congruence|].
    unfold len in Hz. cbn [length] in Hz. lia. }
  assert (H0 : wrapped width [] [] ([], [])).
  { unfold wrapped. cbn [fst snd map].
    change (len (@nil ascii)) with 0.
    repeat split; auto; try lia; congruence. }
  destruct (@wrapWords_wrapped width Hw (Fields text) [] [] ([], []) H0
              (Fields_nonempty text))
    as (groups & group & [lines cur] & Ew & Hwr & Hcat).
  rewrite Ew. cbn [concat app] in Hcat.
  rewrite (pieces_fit Hw Hfit) in Hcat.
  destruct Hwr as (Hl & Hc & Hg & _ & _ & Hne). cbn [fst snd] in *.
  destruct (Z.gtb_spec (len cur) 0) as [Ec|Ec].
  - exists (lines ++ [cur]). split; [reflexivity|].
    assert (Hgroup : group <> []).
    { intros ->. subst cur. unfold len in Ec. cbn in Ec. lia. }
    rewrite Hl, Hc.
    change (map lineOf groups ++ [lineOf group])
      with (map lineOf groups ++ map lineOf [group]).
    rewrite <- map_app, Join_lines.
    + rewrite concat_app. cbn [concat]. rewrite app_nil_r. now rewrite Hcat.
    + apply Forall_app. split; [exact Hg|]. constructor; [exact Hgroup|].
      constructor.
  - exists lines. split; [reflexivity|].
    assert (Hgroup : group = []).
    { destruct group; [reflexivity|]. exfalso.
      apply Hne; [discriminate|]. apply len_zero. lia. }
    subst group. rewrite app_nil_r in Hcat.
    rewrite Hl, Join_lines by exact Hg. now rewrite Hcat.
Qed.

End WrapReturns.

(** The theorem on three short words and width 5. *)
Lemma wrapText_round_trip_witness :
  exists lines,
    wrapText (go "aa bb cc") 5 = Some lines
    /\ Strings.Join lines (go " ")
       = Strings.Join (Strings.Fields (go "aa bb cc")) (go " ").
Proof.
  apply (@wrapText_round_trip (go "aa bb cc") 5%Z).
  - reflexivity.
  - reflexivity.
  - vm_compute. discriminate.
  - vm_compute. repeat constructor; discriminate.
Defined.

(** ** The stream pump on every input *)

Section PumpShape.

Context `{Utf8.CaseTables} `{JsonDecoder}.
Local Open Scope Z_scope.

(** The loop sends the records of the first [k] lines, in order, and
    nothing else.  It stops early exactly at the first line at which the
    context is found cancelled. *)
Lemma scanLoop_prefix done lines : forall i n,
  exists k,
    (k <= length lines)%nat
    /\ fst (scanLoop done i lines n)
       = map (fun l => Send (logMsg (parseLogLine l))) (firstn k lines)
    /\ (forall j, (j < k)%nat -> done (i + j)%nat = false)
    /\ match snd (scanLoop done i lines n) with
       | None => (k < length lines)%nat /\ done (i + k)%nat = true
       | Some c => k = length lines /\ c = countedFrom n lines
       end.
Proof.
  induction lines as [|l ls IH]; intros i n.
  - exists 0%nat. cbn. repeat split; auto; intros j Hj; lia.
  - cbn [scanLoop]. destruct (done i) eqn:Ed.
    + exists 0%nat. cbn [fst snd firstn map length].
      rewrite Nat.add_0_r. repeat split; auto; try lia; intros j Hj; lia.
    + destruct (IH (S i) (GoInt.add n 1)) as (k & Hk & Hf & Hd & Hs).
      destruct (scanLoop done (S i) ls (GoInt.add n 1)) as [effs r].
      cbn [fst snd] in *. exists (S k).
      cbn [firstn map length]. rewrite Hf.
      split; [lia|]. split; [reflexivity|]. split.
      * intros [|j] Hj; [now rewrite Nat.add_0_r|].
        replace (i + S j)%nat with (S i + j)%nat by lia. apply Hd. lia.
      * destruct r as [c|].
        -- destruct Hs as [-> ->]. split; reflexivity.
        -- destruct Hs as [Hlt Hdk]. split; [lia|].
           replace (i + S k)%nat with (S i + k)%nat by lia. exact Hdk.
Qed.

Lemma recordsOf_app a b : recordsOf (a ++ b) = recordsOf a ++ recordsOf b.
Proof. unfold recordsOf. apply flat_map_app. Qed.

Lemma recordsOf_records (lines : list gostring) :
  recordsOf (map (fun l => logMsg (parseLogLine l)) lines)
  = map parseLogLine lines.
Proof.
  induction lines as [|l ls IH]; [reflexivity|].
  unfold recordsOf in *. cbn [map flat_map app]. now rewrite IH.
Qed.

Lemma In_records e (lines : list gostring) :
  ~ In (errorMsg e) (map (fun l => logMsg (parseLogLine l)) lines).
Proof.
  induction lines as [|l ls IH]; cbn [map In]; [tauto|].
  intros [Hc|Hc]; [discriminate|tauto].
Qed.

Lemma sent_calls tailStr (rest : list effect) :
  sent (CallNewClient :: CallContainerInspect
          :: CallContainerLogs tailStr :: rest)
  = sent rest.
Proof. reflexivity. Qed.

(** The lines that the Docker client hands over, none when a call
    fails. *)
Lemma streamLogs_cases docker done tail :
  let lines := match containerLogs docker with
               | inr stream => scanned stream
               | inl _ => []
               end in
  exists k tailMsgs,
    (k <= length lines)%nat
    /\ sent (streamLogs docker done tail)
       = map (fun l => logMsg (parseLogLine l)) (firstn k lines) ++ tailMsgs
    /\ (tailMsgs = []
        \/ (exists e, tailMsgs = [errorMsg e])
        \/ (exists s, tailMsgs = [infoMsg s])
        \/ (exists s e, tailMsgs = [infoMsg s; errorMsg e])).
Proof.
  intros lines. unfold streamLogs.
  destruct (newClient docker) as [e|].
  { exists 0%nat, [errorMsg (wrapError (go "failed to create Docker client: ")
                                      e)].
    split; [lia|]. split; [reflexivity|]. right. left. eauto. }
  destruct (containerInspect docker) as [e|].
  { exists 0%nat, [errorMsg (wrapError (go "container not found: ") e)].
    split; [lia|]. split; [reflexivity|]. right. left. eauto. }
  unfold lines. destruct (containerLogs docker) as [e|stream].
  { exists 0%nat,
      [errorMsg (wrapError (go "failed to get container logs: ") e)].
    split; [lia|]. split; [reflexivity|]. right. left. eauto. }
  destruct (scanLoop_prefix done (scanned stream) 0 0)
    as (k & Hk & Hf & _ & _).
  destruct (scanLoop done 0 (scanned stream) 0) as [effs r].
  cbn [fst] in Hf. subst effs. exists k.
  destruct r as [c|].
  - destruct (scanErr stream) as [e|].
    + exists [infoMsg (go "Read " ++ itoa c ++ go " lines from Docker API");
              errorMsg (wrapError (go "error reading logs: ") e)].
      split; [exact Hk|]. split.
      * rewrite sent_calls, !sent_app, sent_records. reflexivity.
      * right. right. right. eauto.
    + exists [infoMsg (go "Read " ++ itoa c ++ go " lines from Docker API")].
      split; [exact Hk|]. split.
      * rewrite sent_calls, !sent_app, sent_records. reflexivity.
      * right. right. left. eauto.
  - exists []. split; [exact Hk|]. split.
    + rewrite sent_calls, sent_records, app_nil_r. reflexivity.
    + now left.
Qed.

(** X11: what [streamLogs] sends, on every input.  The records sent are
    those of a prefix of the lines of the stream, in order; at most one
    error message is sent, and nothing is sent after it; and the call
    [ContainerLogs] is made at most once. *)
Theorem streamLogs_messages docker done tail :
  let effects := streamLogs docker done tail in
  let msgs := sent effects in
  let lines := match containerLogs docker with
               | inr stream => scanned stream
               | inl _ => []
               end in
  (exists k, recordsOf msgs = map parseLogLine (firstn k lines))
  /\ (length (filter isErrorMsg msgs) <= 1)%nat
  /\ (forall e, In (errorMsg e) msgs -> last msgs otherMsg = errorMsg e)
  /\ (length (filter isLogsCall effects) <= 1)%nat.
Proof.
  intros effects msgs lines.
  destruct (streamLogs_cases docker done tail)
    as (k & tailMsgs & Hk & Hs & Ht).
  fold lines in Hk, Hs. fold effects in Hs. fold msgs in Hs.
  split; [|split; [|split]].
  - exists k. rewrite Hs, recordsOf_app, recordsOf_records.
    destruct Ht as [->|[[e ->]|[[s ->]|(s & e & ->)]]];
      cbn; now rewrite app_nil_r.
  - rewrite Hs, filter_app, filter_records_error.
    destruct Ht as [->|[[e ->]|[[s ->]|(s & e & ->)]]]; cbn; lia.
  - intros e He. rewrite Hs in He |- *. apply in_app_or in He.
    destruct He as [He|He]; [now apply In_records in He|].
    destruct Ht as [->|[[e' ->]|[[s ->]|(s & e' & ->)]]].
    + destruct He.
    + destruct He as [He|[]]. rewrite last_last. exact He.
    + destruct He as [He|[]]. discriminate.
    + destruct He as [He|[He|[]]]; [discriminate|].
      change [infoMsg s; errorMsg e'] with ([infoMsg s] ++ [errorMsg e']).
      rewrite app_assoc, last_last. exact He.
  - unfold effects, streamLogs.
    destruct (newClient docker); [cbn; lia|].
    destruct (containerInspect docker); [cbn; lia|].
    destruct (containerLogs docker) as [e|stream]; [cbn; lia|].
    destruct (scanLoop_prefix done (scanned stream) 0 0)
      as (k' & _ & Hf & _ & _).
    destruct (scanLoop done 0 (scanned stream) 0) as [effs r].
    cbn [fst] in Hf. subst effs.
    destruct r as [c|].
    + cbn [filter isLogsCall length].
      rewrite !filter_app, filter_logs_call_records.
      destruct (scanErr stream); cbn; lia.
    + cbn [filter isLogsCall length].
      rewrite filter_logs_call_records. cbn. lia.
Qed.

(** X12: when the Docker client cannot be created or the container is
    not found, [ContainerLogs] is never called, no record is sent, and
    exactly one message is sent, an error message. *)
Theorem streamLogs_setup_failure docker done tail :
  newClient docker <> None \/ containerInspect docker <> None ->
  let effects := streamLogs docker done tail in
  filter isLogsCall effects = []
  /\ recordsOf (sent effects) = []
  /\ exists e, sent effects = [errorMsg e].
Proof.
  intros Hfail effects. unfold effects, streamLogs.
  destruct (newClient docker) as [e|].
  { repeat split. eexists. reflexivity. }
  destruct (containerInspect docker) as [e|].
  { repeat split. eexists. reflexivity. }
  destruct Hfail; congruence.
Qed.

(** X13: cancellation.  When the context is found cancelled at line
    number [k] of the stream (and not before), the records of the [k] lines
    before it have been sent and nothing else is: neither that line, nor
    the count of lines, nor a read error. *)
Theorem streamLogs_cancelled docker done tail stream k :
  newClient docker = None ->
  containerInspect docker = None ->
  containerLogs docker = inr stream ->
  (k < length (scanned stream))%nat ->
  done k = true ->
  (forall i, (i < k)%nat -> done i = false) ->
  sent (streamLogs docker done tail)
  = map (fun l => logMsg (parseLogLine l)) (firstn k (scanned stream)).
Proof.
  intros Hc Hi Hl Hk Hd Hb. unfold streamLogs. rewrite Hc, Hi, Hl.
  destruct (scanLoop_prefix done (scanned stream) 0 0)
    as (k' & Hk' & Hf & Hd' & Hs).
  destruct (scanLoop done 0 (scanned stream) 0) as [effs r].
  cbn [fst snd] in *. subst effs.
  assert (Hd0 : forall j, (j < k')%nat -> done j = false)
    by (intros j Hj; exact (Hd' j Hj)).
  assert (Hkk : k' = k).
  { destruct r as [c|].
    - destruct Hs as [-> _]. rewrite (Hd0 k Hk) in Hd. discriminate.
    - destruct Hs as [Hlt Hdk]. cbn [Nat.add] in Hdk.
      destruct (Nat.lt_trichotomy k' k) as [Hx|[Hx|Hx]]; [|exact Hx|].
      + rewrite (Hb k' Hx) in Hdk. discriminate.
      + rewrite (Hd0 k Hx) in Hd. discriminate. }
  subst k'. destruct r as [c|].
  - destruct Hs as [Hx _]. lia.
  - rewrite sent_calls. apply sent_records.
Qed.

(** X14: a stream that ends without a read error (and without
    cancellation): the records of all its lines are sent, then one
    informational message with the number of lines, and no error
    message. *)
Theorem streamLogs_end_of_stream docker done tail stream :
  newClient docker = None ->
  containerInspect docker = None ->
  containerLogs docker = inr stream ->
  scanErr stream = None ->
  (forall i, (i < length (scanned stream))%nat -> done i = false) ->
  sent (streamLogs docker done tail)
  = map (fun l => logMsg (parseLogLine l)) (scanned stream)
    ++ [infoMsg (go "Read " ++ itoa (countedFrom 0 (scanned stream))
                    ++ go " lines from Docker API")]
  /\ filter isErrorMsg (sent (streamLogs docker done tail)) = [].
Proof.
  intros Hc Hi Hl He Hd.
  assert (Hs : sent (streamLogs docker done tail)
               = map (fun l => logMsg (parseLogLine l)) (scanned stream)
                 ++ [infoMsg (go "Read "
                                 ++ itoa (countedFrom 0 (scanned stream))
                                 ++ go " lines from Docker API")]).
  { unfold streamLogs. rewrite Hc, Hi, Hl.
    rewrite (scanLoop_not_done done (scanned stream) 0 0) by exact Hd.
    rewrite He, sent_calls, !sent_app, sent_records. reflexivity. }
  split; [exact Hs|].
  rewrite Hs, filter_app, filter_records_error. reflexivity.
Qed.

(** What a sequence of messages does to the buffer, the error and the
    ready flag. *)
Lemma runMsgs_state msgs : forall m,
  logEntries (runMsgs m msgs) = logEntries m ++ recordsOf msgs
  /\ err (runMsgs m msgs)
     = match lastError msgs with Some e => Some e | None => err m end
  /\ ready (runMsgs m msgs)
     = ready m || existsb (fun msg => isLogMsg msg || isErrorMsg msg) msgs.
Proof.
  induction msgs as [|msg msgs IH] using rev_ind; intros m.
  - cbn. rewrite app_nil_r, orb_false_r. auto.
  - rewrite runMsgs_app. destruct (IH m) as (Hl & He & Hr).
    change (runMsgs (runMsgs m msgs) [msg])
      with (fst (Update (runMsgs m msgs) msg)).
    rewrite Update_logEntries, Hl, recordsOf_app, <- app_assoc.
    split; [reflexivity|].
    unfold lastError. rewrite fold_left_app. fold (lastError msgs).
    rewrite existsb_app. cbn [fold_left existsb].
    destruct msg as [w h|key|e|e|s0|];
      try (destruct (Update_key_frame (runMsgs m msgs) key) as [-> ->]);
      cbn [Update fst err ready isLogMsg isErrorMsg orb];
      rewrite ?He, ?Hr, ?orb_false_r, ?orb_true_r; auto.
Qed.





End PumpShape.

(** The theorem for a container that does not exist. *)
Lemma streamLogs_setup_failure_witness :
  let effects := @streamLogs asciiCase noJson missingDocker
                             (fun _ => false) 0 in
  filter isLogsCall effects = []
  /\ recordsOf (sent effects) = []
  /\ exists e, sent effects = [errorMsg e].
Proof.
  apply (@streamLogs_setup_failure asciiCase noJson missingDocker
                                   (fun _ => false) 0%Z).
  right. discriminate.
Defined.

(** The theorem for a cancellation found at the second line. *)
Lemma streamLogs_cancelled_witness :
  sent (@streamLogs asciiCase noJson brokenDocker (fun i => Nat.eqb i 1) 0)
  = [logMsg (@parseLogLine asciiCase noJson (go "12:00:01 starting"))].
Proof.
  refine (@streamLogs_cancelled asciiCase noJson brokenDocker
            (fun i => Nat.eqb i 1) 0%Z
            {| scanned := [go "12:00:01 starting"; go "12:00:02 ready"];
               scanErr := Some (errorString (go "unexpected EOF")) |}
            1%nat _ _ _ _ _ _);
    try reflexivity.
  - cbn. lia.
  - intros i Hi. destruct i; [reflexivity|lia].
Defined.

(** The theorem for a container that writes two lines and ends: two
    records, then the message with the count, and no error message. *)
Lemma streamLogs_end_of_stream_witness :
  let effects := @streamLogs asciiCase noJson cleanDocker (fun _ => false) 0 in
  sent effects
  = [logMsg (@parseLogLine asciiCase noJson (go "12:00:01 starting"));
     logMsg (@parseLogLine asciiCase noJson (go "12:00:02 ready"));
     infoMsg (go "Read 2 lines from Docker API")]
  /\ filter isErrorMsg (sent effects) = [].
Proof.
  refine (@streamLogs_end_of_stream asciiCase noJson cleanDocker
            (fun _ => false) 0%Z
            {| scanned := [go "12:00:01 starting"; go "12:00:02 ready"];
               scanErr := None |} _ _ _ _ _);
    reflexivity.
Defined.



(** ** The text of a submatch *)

Section MatchText.

Import Regexp.

Lemma runRep_lang k : forall s mn mx pos caps kont c,
  runRep k mn mx pos s caps kont = Some c ->
  exists m s', s = m ++ s' /\ kont (pos + length m)%nat s' caps = Some c
               /\ Lang (Rep k mn mx) m.
Proof.
  induction s as [|b t IH]; intros mn mx pos caps kont c Hr.
  - cbn [runRep] in Hr. destruct mn; [|discriminate].
    exists [], []. rewrite Nat.add_0_r. cbn [Lang length].
    repeat split; auto. destruct mx; [lia|exact I].
  - cbn [runRep] in Hr.
    assert (Hstop : match mn with
                    | O => kont pos (b :: t) caps
                    | S _ => None
                    end = Some c ->
                    exists m s', b :: t = m ++ s'
                                 /\ kont (pos + length m)%nat s' caps = Some c
                                 /\ Lang (Rep k mn mx) m).
    { intros Hk. destruct mn; [|discriminate].
      exists [], (b :: t). rewrite Nat.add_0_r. cbn [Lang length].
      repeat split; auto. destruct mx; [lia|exact I]. }
    destruct (inClass k b) eqn:Eb; [|now apply Hstop].
    destruct (match mx with Some 0 => false | _ => true end) eqn:Emx;
      [|now apply Hstop].
    cbn [andb] in Hr.
    destruct (runRep k (pred mn) (option_map pred mx) (S pos) t caps kont)
      as [c'|] eqn:E; [|now apply Hstop].
    inversion Hr; subst c'.
    destruct (IH _ _ _ _ _ _ E) as (m & s' & Hs & Hk & Hf & Hmn & Hmx).
    exists (b :: m), s'. cbn [app length]. subst t.
    replace (pos + S (length m))%nat with (S pos + length m)%nat by lia.
    split; [reflexivity|]. split; [exact Hk|].
    cbn [Lang length]. split; [constructor; assumption|]. split; [lia|].
    destruct mx as [[|x]|]; cbn [option_map pred] in Hmx;
      [discriminate|lia|exact I].
Qed.

Lemma run_lang r : forall pos s caps kont c,
  run r pos s caps kont = Some c ->
  exists m s' caps',
    s = m ++ s' /\ Lang r m /\ length caps' = length caps
    /\ kont (pos + length m)%nat s' caps' = Some c
    /\ forall g, nth g caps' [] = nth g caps []
                 \/ groupLang g r (nth g caps' []).
Proof.
  induction r as [k|k mn mx| | | |r1 IH1 r2 IH2|r1 IH1 r2 IH2|r1 IH1|i r1 IH1];
    intros pos s caps kont c Hr; cbn [run] in Hr.
  - destruct s as [|b t]; [discriminate|].
    destruct (inClass k b) eqn:Eb; [|discriminate].
    exists [b], t, caps. cbn [app length Lang].
    replace (pos + 1)%nat with (S pos) by lia.
    split; [reflexivity|]. split; [exists b; auto|].
    split; [reflexivity|]. split; [exact Hr|]. intros g. now left.
  - destruct (runRep_lang _ _ _ _ _ _ _ Hr) as (m & s' & Hs & Hk & Hm).
    exists m, s', caps.
    split; [exact Hs|]. split; [exact Hm|].
    split; [reflexivity|]. split; [exact Hk|]. intros g. now left.
  - destruct (Nat.eqb pos 0); [|discriminate].
    exists [], s, caps. rewrite Nat.add_0_r. cbn [Lang app].
    split; [reflexivity|]. split; [reflexivity|].
    split; [reflexivity|]. split; [exact Hr|]. intros g. now left.
  - destruct s; [|discriminate].
    exists [], [], caps. rewrite Nat.add_0_r. cbn [Lang app].
    split; [reflexivity|]. split; [reflexivity|].
    split; [reflexivity|]. split; [exact Hr|]. intros g. now left.
  - exists [], s, caps. rewrite Nat.add_0_r. cbn [Lang app].
    split; [reflexivity|]. split; [reflexivity|].
    split; [reflexivity|]. split; [exact Hr|]. intros g. now left.
  - destruct (IH1 _ _ _ _ _ Hr) as (m1 & s1 & c1 & Hs1 & Hm1 & Hl1 & Hk1 & Hg1).
    destruct (IH2 _ _ _ _ _ Hk1)
      as (m2 & s2 & c2 & Hs2 & Hm2 & Hl2 & Hk2 & Hg2).
    exists (m1 ++ m2), s2, c2. rewrite length_app, <- app_assoc.
    split; [congruence|]. split; [cbn [Lang]; eauto|].
    split; [congruence|]. split.
    { rewrite Nat.add_assoc. exact Hk2. }
    intros g. cbn [groupLang].
    destruct (Hg2 g) as [E2|G2]; [|now right; right].
    rewrite E2. destruct (Hg1 g) as [E1|G1]; [now left|now right; left].
  - destruct (run r1 pos s caps kont) as [c'|] eqn:E.
    + inversion Hr; subst c'.
      destruct (IH1 _ _ _ _ _ E) as (m1 & s1 & c1 & Hs1 & Hm1 & Hl1 & Hk1 & Hg1).
      exists m1, s1, c1. cbn [Lang groupLang].
      split; [exact Hs1|]. split; [now left|].
      split; [exact Hl1|]. split; [exact Hk1|].
      intros g. destruct (Hg1 g); auto.
    + destruct (IH2 _ _ _ _ _ Hr) as (m1 & s1 & c1 & Hs1 & Hm1 & Hl1 & Hk1 & Hg1).
      exists m1, s1, c1. cbn [Lang groupLang].
      split; [exact Hs1|]. split; [now right|].
      split; [exact Hl1|]. split; [exact Hk1|].
      intros g. destruct (Hg1 g); auto.
  - destruct (run r1 pos s caps kont) as [c'|] eqn:E.
    + inversion Hr; subst c'.
      destruct (IH1 _ _ _ _ _ E) as (m1 & s1 & c1 & Hs1 & Hm1 & Hl1 & Hk1 & Hg1).
      exists m1, s1, c1. cbn [Lang groupLang].
      split; [exact Hs1|]. split; [now left|].
      split; [exact Hl1|]. split; [exact Hk1|]. exact Hg1.
    + exists [], s, caps. rewrite Nat.add_0_r. cbn [Lang app].
      split; [reflexivity|]. split; [now right|].
      split; [reflexivity|]. split; [exact Hr|]. intros g. now left.
  - destruct (IH1 _ _ _ _ _ Hr) as (m1 & s1 & c1 & Hs1 & Hm1 & Hl1 & Hk1 & Hg1).
    exists m1, s1, (setNth i (firstn (pos + length m1 - pos) s) c1).
    split; [exact Hs1|]. split; [exact Hm1|].
    split; [rewrite setNth_length; exact Hl1|].
    split; [exact Hk1|].
    intros g. cbn [groupLang].
    replace (pos + length m1 - pos)%nat with (length m1) by lia.
    rewrite Hs1, firstn_app, Nat.sub_diag, firstn_O, app_nil_r, firstn_all.
    destruct (Nat.eq_dec g i) as [->|Hgi].
    + destruct (Nat.lt_ge_cases i (length c1)) as [Hlt|Hge].
      * rewrite setNth_same by exact Hlt. right. left. auto.
      * rewrite !nth_overflow; [now left| lia |].
        rewrite setNth_length. exact Hge.
    + rewrite setNth_other by exact Hgi.
      destruct (Hg1 g); auto.
Qed.

Lemma search_lang re g : forall s pos c,
  search re pos s = Some c ->
  nth g c [] = [] \/ groupLang g (Grp 0 (ast re)) (nth g c []).
Proof.
  assert (Hrun : forall pos s c,
             run (Grp 0 (ast re)) pos s (repeat [] (S (numSubexp re)))
                 (fun _ _ c => Some c) = Some c ->
             nth g c [] = [] \/ groupLang g (Grp 0 (ast re)) (nth g c [])).
  { intros pos s c E.
    destruct (run_lang _ _ _ _ _ E) as (m & s' & c1 & _ & _ & _ & Hk & Hg).
    inversion Hk; subst c1.
    destruct (Hg g) as [Eg|Gg]; [left|now right].
    rewrite Eg. apply nth_repeat. }
  induction s as [|b t IH]; intros pos c Hs; cbn [search] in Hs.
  - destruct (run _ _ _ _ _) as [c'|] eqn:E; [|discriminate].
    inversion Hs; subst c'. eapply Hrun; eassumption.
  - destruct (run _ _ _ _ _) as [c'|] eqn:E.
    + inversion Hs; subst c'. eapply Hrun; eassumption.
    + eapply IH; eassumption.
Qed.

Lemma FindStringSubmatch_lang re s m g :
  FindStringSubmatch re s = Some m ->
  nth g m [] = [] \/ groupLang g (Grp 0 (ast re)) (nth g m []).
Proof. unfold FindStringSubmatch. apply search_lang. Qed.

End MatchText.


(** ** Records of lines that are not JSON *)

Section PlainText.

Import Strings Regexp.

Context `{Utf8.CaseTables} `{JsonDecoder}.

Lemma canonical_word (k : gostring) :
  In k [go "WARN"; go "ERROR"; go "INFO"; go "DEBUG"] -> isWord k.
Proof.
  cbn [In]. intros [<-|[<-|[<-|[<-|[]]]]];
    (split; [discriminate|repeat constructor]).
Qed.

Lemma keywordLevel_canonical message :
  In (keywordLevel message) [go "WARN"; go "ERROR"; go "INFO"; go "DEBUG"].
Proof.
  unfold keywordLevel.
  repeat match goal with
  | |- context [if ?c then _ else _] => destruct c
  end; cbn [In]; auto.
Qed.

Lemma keywordLevelExc_canonical message :
  In (keywordLevelExc message)
     [go "WARN"; go "ERROR"; go "INFO"; go "DEBUG"].
Proof.
  unfold keywordLevelExc.
  repeat match goal with
  | |- context [if ?c then _ else _] => destruct c
  end; cbn [In]; auto.
Qed.

Ltac nextPattern t :=
  match goal with
  | |- context [FindStringSubmatch ?re t] =>
    let m := fresh "m" in
    let E := fresh "E" in
    destruct (FindStringSubmatch re t) as [m|] eqn:E
  end.

(** The submatch of a group [(\w+)] is a word. *)
Ltac groupWord E g :=
  let Hs := fresh "Hs" in
  let Hl := fresh "Hl" in
  assert (Hs := @FindStringSubmatch_sure _ _ _ g E);
  assert (Hl := @FindStringSubmatch_lang _ _ _ g E);
  match type of Hl with
  | context [ast ?p] =>
    let v := eval vm_compute in (ast p) in
    change (ast p) with v in Hl
  end;
  cbn [groupLang Lang] in Hl;
  unfold submatch; split;
  [ apply Hs; [vm_compute; reflexivity|vm_compute; lia]
  | intuition (try discriminate);
    match goal with
    | Hx : nth g _ [] = [] |- _ => rewrite Hx; constructor
    end ].

(** The record of a line that is not JSON: its level is a word, and it
    has neither an error field nor raw text. *)
Lemma parseUniversalLog_fields line :
  isWord (Level (parseUniversalLog line))
  /\ Error (parseUniversalLog line) = []
  /\ Raw (parseUniversalLog line) = [].
Proof.
  unfold parseUniversalLog.
  set (t := TrimSpace line). clearbody t.
  unfold patterns. cbn [tryPatterns].
  nextPattern t.
  { cbn [Level Error Raw]. split; [|auto]. groupWord E 4%nat. }
  nextPattern t.
  { cbn [Level Error Raw]. split; [|auto]. apply canonical_word.
    cbn [In]. auto. }
  nextPattern t.
  { cbn [Level Error Raw]. split; [|auto]. groupWord E1 3%nat. }
  nextPattern t.
  { cbn [Level Error Raw]. split; [|auto]. groupWord E2 4%nat. }
  nextPattern t.
  { cbn [Level Error Raw]. split; [|auto]. groupWord E3 3%nat. }
  nextPattern t.
  { cbn [Level Error Raw]. split; [|auto]. apply canonical_word.
    cbn [In]. auto. }
  nextPattern t.
  { cbn [Level Error Raw]. split; [|auto]. groupWord E5 2%nat. }
  nextPattern t.
  { cbn [Level Error Raw]. split; [|auto]. groupWord E6 2%nat. }
  nextPattern t.
  { cbn [Level Error Raw]. split; [|auto]. apply canonical_word.
    apply keywordLevelExc_canonical. }
  nextPattern t.
  { cbn [Level Error Raw]. split; [|auto]. apply canonical_word.
    apply keywordLevel_canonical. }
  nextPattern t.
  { cbn [Level Error Raw]. split; [|auto]. apply canonical_word.
    apply keywordLevel_canonical. }
  nextPattern t.
  { cbn [Level Error Raw]. split; [|auto]. apply canonical_word.
    apply keywordLevel_canonical. }
  cbn [Level Error Raw]. split; [|auto]. apply canonical_word.
  apply keywordLevelExc_canonical.
Qed.

(** X16: the record of a line that the JSON decoder does not take has a
    level that is a word (letters, digits, underscores; never empty, never
    with white space around it), and no error field. *)
Theorem parseLogLine_plain_level line :
  jsonEntry (TrimSpace (dropDockerHeader line)) = None ->
  isWord (Level (parseLogLine line))
  /\ Error (parseLogLine line) = [].
Proof.
  intros Hj. rewrite parseLogLine_json. cbv zeta. rewrite Hj.
  destruct (parseUniversalLog_fields (TrimSpace (dropDockerHeader line)))
    as (Hl & He & _).
  split; assumption.
Qed.

(** X17: for the record of a line that is not JSON, the error filter
    looks at the level and at the message only: the record is an error
    exactly when its level is ERROR in some case, or its message holds one
    of the key words. *)
Theorem isErrorLog_plain_text line :
  jsonEntry (TrimSpace (dropDockerHeader line)) = None ->
  let entry := parseLogLine line in
  isErrorLog entry
  = streq (ToUpper (Level entry)) (go "ERROR")
    || existsb (fun keyword => Contains (ToLower (Message entry)) keyword)
               errorKeywords.
Proof.
  intros Hj entry.
  assert (Hf : Error entry = [] /\ Raw entry = []).
  { unfold entry. rewrite parseLogLine_json. cbv zeta. rewrite Hj.
    destruct (parseUniversalLog_fields (TrimSpace (dropDockerHeader line)))
      as (_ & He & Hr).
    split; assumption. }
  destruct Hf as [He Hr]. unfold isErrorLog. rewrite He, Hr.
  cbn [isEmpty negb].
  destruct (streq (ToUpper (Level entry)) (go "ERROR")); [reflexivity|].
  cbn [orb].
  destruct (existsb _ errorKeywords); reflexivity.
Qed.

(** X18: the header that Docker puts before a line of a stream without
    terminal is transparent: a line with the 8-byte header of stdout or
    stderr is classified as the same line without it (the line itself not
    starting with the byte 1 or 2). *)
Theorem parseLogLine_docker_header (header payload : gostring) :
  length header = 8%nat ->
  match header with
  | b :: _ => byteN b = 1%N \/ byteN b = 2%N
  | [] => False
  end ->
  match payload with
  | b :: _ => byteN b <> 1%N /\ byteN b <> 2%N
  | [] => True
  end ->
  parseLogLine (header ++ payload) = parseLogLine payload.
Proof.
  intros Hlen Hh Hp.
  assert (E1 : dropDockerHeader (header ++ payload) = payload).
  { unfold dropDockerHeader.
    replace (8 <=? length (header ++ payload))%nat with true
      by (symmetry; apply Nat.leb_le; rewrite length_app; lia).
    destruct header as [|b rest]; [destruct Hh|].
    cbn [app].
    replace ((byteN b =? 1)%N || (byteN b =? 2)%N) with true.
    - change (b :: rest ++ payload) with ((b :: rest) ++ payload).
      rewrite skipn_app, Hlen, Nat.sub_diag, skipn_all2 by lia.
      reflexivity.
    - symmetry. apply orb_true_iff.
      destruct Hh as [Hb|Hb]; [left|right]; now apply N.eqb_eq. }
  assert (E2 : dropDockerHeader payload = payload).
  { unfold dropDockerHeader.
    destruct (8 <=? length payload)%nat; [|reflexivity].
    destruct payload as [|b rest]; [reflexivity|].
    destruct Hp as [H1 H2].
    apply N.eqb_neq in H1, H2. rewrite H1, H2. reflexivity. }
  unfold parseLogLine. rewrite E1, E2. reflexivity.
Qed.

(** X19: [normalizeLevel] never returns the empty string, and never one
    of the spellings it replaces (WARNING, ERR, INFORMATION, DBG, LOG,
    STATEMENT, STMT, NOTICE, FATAL, PANIC). *)
Theorem normalizeLevel_no_alias level :
  normalizeLevel level <> []
  /\ ~ In (normalizeLevel level) levelAliases.
Proof.
  unfold normalizeLevel.
  set (u := ToUpper (TrimSpace level)). clearbody u.
  unfold levelSwitch.
  repeat match goal with
  | |- context [if streq u ?k || streq u ?k' then _ else _] =>
    destruct (streq u k) eqn:?; cbn [orb];
    [split; [discriminate|vm_compute; intuition discriminate]|];
    destruct (streq u k') eqn:?;
    [split; [discriminate|vm_compute; intuition discriminate]|]
  | |- context [if streq u ?k then _ else _] =>
    destruct (streq u k) eqn:?;
    [split; [discriminate|vm_compute; intuition discriminate]|]
  end.
  destruct u as [|b u'].
  { cbn [isEmpty]. split; [discriminate|vm_compute; intuition discriminate]. }
  cbn [isEmpty]. split; [discriminate|].
  unfold levelAliases. cbn [In].
  intros Hin.
  repeat match goal with
  | Hin : _ \/ _ |- _ => destruct Hin as [Hin|Hin]
  | Hin : ?k = b :: u' |- _ =>
    symmetry in Hin; apply streq_eq in Hin; congruence
  end.
  exact Hin.
Qed.

End PlainText.

(** ** The text of a record *)

Section RecordText.

(** X20: the text of a record is empty only when the record has no
    message, no job, no error and no raw text; and for a record that has
    a message but neither job nor error it is the message, whatever the
    raw text is. *)
Theorem extractMessage_empty_iff entry :
  (extractMessage entry = []
   <-> Message entry = [] /\ JobID entry = [] /\ Error entry = []
       /\ Raw entry = [])
  /\ (Message entry <> [] -> JobID entry = [] -> Error entry = [] ->
      extractMessage entry = Message entry).
Proof.
  destruct entry as [t l m j e r]. cbn [Message JobID Error Raw].
  split.
  - unfold extractMessage. cbn [Message JobID Error Raw].
    destruct m as [|m0 m]; destruct j as [|j0 j]; destruct e as [|e0 e];
      destruct r as [|r0 r]; cbn;
      (split; [intros Hx | intros (H1 & H2 & H3 & H4)]);
      try discriminate; try reflexivity; auto.
    all: try (exfalso; revert Hx; destruct m; discriminate).
  - intros Hm -> ->. unfold extractMessage. cbn [Message JobID Error Raw].
    destruct m as [|m0 m]; [congruence|]. reflexivity.
Qed.

End RecordText.

(** The theorem on a line that no recognizer matches. *)
Lemma parseLogLine_plain_level_witness :
  isWord (Level (@parseLogLine asciiCase noJson refusedLine))
  /\ Error (@parseLogLine asciiCase noJson refusedLine) = [].
Proof.
  apply (@parseLogLine_plain_level asciiCase noJson refusedLine).
  reflexivity.
Defined.

(** The theorem on the same line: an error for the filter, by a key word
    of its message. *)
Lemma isErrorLog_plain_text_witness :
  let entry := @parseLogLine asciiCase noJson refusedLine in
  @isErrorLog asciiCase entry
  = streq (@Strings.ToUpper asciiCase (Level entry)) (go "ERROR")
    || existsb (fun keyword =>
                  Strings.Contains (@Strings.ToLower asciiCase (Message entry))
                                   keyword)
               errorKeywords.
Proof.
  apply (@isErrorLog_plain_text asciiCase noJson refusedLine).
  reflexivity.
Defined.

(** The theorem on a line of stdout with its header. *)
Lemma parseLogLine_docker_header_witness :
  @parseLogLine asciiCase noJson
                (map ascii_of_nat [1; 0; 0; 0; 0; 0; 0; 41]%nat ++ refusedLine)
  = @parseLogLine asciiCase noJson refusedLine.
Proof.
  apply (@parseLogLine_docker_header asciiCase noJson
           (map ascii_of_nat [1; 0; 0; 0; 0; 0; 0; 41]%nat) refusedLine).
  - reflexivity.
  - left. reflexivity.
  - split; discriminate.
Defined.


Section FormatTimeFacts.

Import Strings Regexp.

Example formatTime_pattern_compiles :
  Compile (go "(\d{2}:\d{2}:\d{2}(?:\.\d{2,3})?)")
  = Some {| ast :=
              Grp 1 (Cat (Rep Digit 2 (Some 2))
                    (Cat (One (Lit ":"))
                    (Cat (Rep Digit 2 (Some 2))
                    (Cat (One (Lit ":"))
                    (Cat (Rep Digit 2 (Some 2))
                         (Opt (Cat (One (Lit "."))
                                   (Rep Digit 2 (Some 3)))))))));
            numSubexp := 1 |}.
Proof. vm_compute. reflexivity. Qed.

Example formatTime_examples :
  @formatTime noTime (go "12:00:00.000") (go "at 07:08:09 sharp")
  = Some (go "07:08:09.000")
  /\ @formatTime noTime (go "12:00:00.000") (go "07:08:09.12")
     = Some (go "07:08:09.120")
  /\ @formatTime noTime (go "12:00:00.000") (go "07:08:09.1234")
     = Some (go "07:08:09.123")
  /\ @formatTime noTime (go "12:00:00.000") (go "yesterday")
     = Some (go "12:00:00.000").
Proof. vm_compute. repeat split; reflexivity. Qed.

Lemma Index_byte_none c (s : gostring) :
  Forall (fun b => Ascii.eqb c b = false) s -> Index s [c] = None.
Proof.
  induction 1 as [|b s Hb Hs IH]; [reflexivity|].
  cbn [Index hasPrefix]. rewrite Hb, IH. reflexivity.
Qed.

Lemma Index_byte_first c (post : gostring) : forall pre,
  Forall (fun b => Ascii.eqb c b = false) pre ->
  Index (pre ++ c :: post) [c] = Some (length pre).
Proof.
  induction 1 as [|b s Hb Hs IH].
  - cbn [app Index hasPrefix length]. rewrite Ascii.eqb_refl.
    destruct post; reflexivity.
  - cbn [app Index hasPrefix length]. rewrite Hb, IH. reflexivity.
Qed.

(** A text with one separator is split in two. *)
Lemma Split_two c (pre post : gostring) :
  Forall (fun b => Ascii.eqb c b = false) pre ->
  Forall (fun b => Ascii.eqb c b = false) post ->
  Split (pre ++ c :: post) [c] = [pre; post].
Proof.
  intros Hpre Hpost. unfold Split.
  rewrite length_app. cbn [length].
  replace (length pre + S (length post))%nat
    with (S (length pre + length post)) by lia.
  cbn [splitLoop]. rewrite (@Index_byte_first c post pre Hpre).
  rewrite firstn_app, Nat.sub_diag, firstn_O, app_nil_r, firstn_all.
  replace (length pre + length [c])%nat with (length pre + 1)%nat
    by reflexivity.
  rewrite skipn_app.
  replace (length pre + 1 - length pre)%nat with 1%nat by lia.
  rewrite skipn_all2 by lia. cbn [app skipn].
  destruct (length pre + length post)%nat; [reflexivity|].
  cbn [splitLoop]. rewrite (@Index_byte_none c post Hpost). reflexivity.
Qed.

Lemma digit_not (c b : ascii) :
  inClass Digit c = false -> inClass Digit b = true -> Ascii.eqb c b = false.
Proof.
  intros Hc Hb. destruct (Ascii.eqb_spec c b) as [->|]; congruence.
Qed.

Lemma two_of (P : ascii -> Prop) (l : gostring) :
  Forall P l -> (2 <= length l <= 2)%nat ->
  exists a b, l = [a; b] /\ P a /\ P b.
Proof.
  intros Hf Hl.
  destruct l as [|a [|b [|c l]]]; cbn [length] in Hl; try lia.
  inversion Hf as [|? ? Ha Hf']; subst.
  inversion Hf' as [|? ? Hb _]; subst.
  eauto.
Qed.

Lemma literal_byte (c b : ascii) : inClass (Lit c) b = true -> b = c.
Proof. cbn [inClass]. intros Hb. symmetry. now apply Ascii.eqb_eq. Qed.

(** The text that [timePattern] of [formatTime] finds: hours, minutes
    and seconds of two digits each, and possibly a fraction of two or
    three digits. *)
Lemma timePattern_shape timeStr m :
  FindStringSubmatch formatTime_timePattern timeStr = Some m ->
  exists d1 d2 d3 d4 d5 d6 frac,
    submatch m 1 = [d1; d2; ":"; d3; d4; ":"; d5; d6]%char ++ frac
    /\ Forall (fun b => inClass Digit b = true) [d1; d2; d3; d4; d5; d6]
    /\ (frac = []
        \/ exists ds, frac = "."%char :: ds
                      /\ Forall (fun b => inClass Digit b = true) ds
                      /\ (2 <= length ds <= 3)%nat).
Proof.
  intros E.
  assert (Hs := @FindStringSubmatch_sure _ _ _ 1%nat E).
  assert (Hl := @FindStringSubmatch_lang _ _ _ 1%nat E).
  match type of Hl with
  | context [ast ?p] =>
    let v := eval vm_compute in (ast p) in
    change (ast p) with v in Hl
  end.
  cbn [groupLang Lang] in Hl. unfold submatch.
  destruct Hl as [Hx|[[Hc _]|[[_ Hbody]|Hf]]].
  - exfalso. apply Hs; [vm_compute; reflexivity|vm_compute; lia|exact Hx].
  - discriminate.
  - destruct Hbody
      as (m1 & m2 & Hm & (F1 & L1) & m3 & m4 & -> & (b1 & -> & C1)
          & m5 & m6 & -> & (F2 & L2) & m7 & m8 & -> & (b2 & -> & C2)
          & m9 & m10 & -> & (F3 & L3) & Hfrac).
    destruct (two_of F1 L1) as (d1 & d2 & -> & D1 & D2).
    destruct (two_of F2 L2) as (d3 & d4 & -> & D3 & D4).
    destruct (two_of F3 L3) as (d5 & d6 & -> & D5 & D6).
    apply literal_byte in C1, C2. subst b1 b2.
    exists d1, d2, d3, d4, d5, d6, m10. rewrite Hm.
    split; [reflexivity|]. split; [repeat constructor; assumption|].
    destruct Hfrac as [(m11 & m12 & -> & (b & -> & Cb) & Fd & Ld) | -> ];
      [|now left].
    apply literal_byte in Cb. subst b.
    right. exists m12. auto.
  - repeat destruct Hf as [[]|Hf]. destruct Hf.
Qed.

Lemma tryFormats_some timeStr t `{TimePkg} : forall fs,
  tryFormats fs timeStr = Some t ->
  exists format, In format fs /\ ParseFormat format timeStr = Some t.
Proof.
  induction fs as [|f fs IH]; cbn [tryFormats]; [discriminate|].
  destruct (ParseFormat f timeStr) as [t'|] eqn:E.
  - intros Q; inversion Q; subst. exists f. cbn [In]. auto.
  - intros Q. destruct (IH Q) as (f' & Hin & Hp).
    exists f'. cbn [In]. auto.
Qed.

(** The text found by [timePattern] and what is added to it. *)
Lemma formatTime_padding timeStr m :
  FindStringSubmatch formatTime_timePattern timeStr = Some m ->
  exists zeros,
    (if negb (Contains (submatch m 1) (go "."))
     then Some (submatch m 1 ++ go ".000")
     else
       match nth_error (Split (submatch m 1) (go ".")) 1 with
       | Some fraction =>
         if (len fraction =? 2)%Z then Some (submatch m 1 ++ go "0")
         else Some (submatch m 1)
       | None => None
       end)
    = Some (submatch m 1 ++ zeros)
    /\ In zeros [go ".000"; go "0"; []]
    /\ clockShape (submatch m 1 ++ zeros) = true.
Proof.
  intros E.
  destruct (@timePattern_shape timeStr m E)
    as (d1 & d2 & d3 & d4 & d5 & d6 & frac & Hm & Hd & Hfrac).
  assert (Hdot : inClass Digit "."%char = false) by reflexivity.
  assert (Hcolon : Ascii.eqb "."%char ":"%char = false) by reflexivity.
  assert (Hhead : Forall (fun b => Ascii.eqb "."%char b = false)
                         [d1; d2; ":"; d3; d4; ":"; d5; d6]%char).
  { repeat match goal with
    | Hd : Forall _ (_ :: _) |- _ => inversion Hd; clear Hd; subst
    end.
    repeat constructor; try assumption; now apply digit_not. }
  assert (Hdigits : forall d, In d [d1; d2; d3; d4; d5; d6] ->
                              isDigitB d = true).
  { intros d Hin. rewrite Forall_forall in Hd. now apply Hd. }
  assert (Hshape : forall f1 f2 f3,
             isDigitB f1 = true -> isDigitB f2 = true ->
             isDigitB f3 = true ->
             clockShape ([d1; d2; ":"; d3; d4; ":"; d5; d6]%char
                           ++ ["."%char; f1; f2; f3]) = true).
  { intros f1 f2 f3 H1 H2 H3. cbn [app clockShape forallb].
    rewrite !Hdigits, H1, H2, H3 by (cbn [In]; auto 10). reflexivity. }
  rewrite Hm. change (go ".") with ["."%char].
  destruct Hfrac as [ -> | (ds & -> & Fd & Ld)].
  - rewrite app_nil_r. unfold Contains.
    rewrite (@Index_byte_none _ _ Hhead). cbn [negb].
    exists (go ".000"). split; [reflexivity|]. split; [cbn [In]; auto|].
    apply (Hshape "0"%char "0"%char "0"%char); reflexivity.
  - assert (Hds : Forall (fun b => Ascii.eqb "."%char b = false) ds).
    { eapply Forall_impl; [|exact Fd]. intros b. now apply digit_not. }
    unfold Contains.
    rewrite (@Index_byte_first _ ds _ Hhead). cbn [negb].
    rewrite (@Split_two _ _ _ Hhead Hds). cbn [nth_error].
    destruct ds as [|f1 [|f2 [|f3 [|f4 ds]]]]; cbn [length] in Ld; try lia.
    + inversion Fd as [|? ? F1 Fd']; subst.
      inversion Fd' as [|? ? F2 _]; subst.
      exists (go "0"). split; [reflexivity|]. split; [cbn [In]; auto|].
      rewrite <- app_assoc. apply (Hshape f1 f2 "0"%char); auto.
    + inversion Fd as [|? ? F1 Fd']; subst.
      inversion Fd' as [|? ? F2 Fd'']; subst.
      inversion Fd'' as [|? ? F3 _]; subst.
      exists []. rewrite !app_nil_r.
      split; [reflexivity|]. split; [cbn [In]; auto|].
      apply (Hshape f1 f2 f3); auto.
Qed.

Lemma formatTime_returns `{TimePkg} now timeStr :
  exists t, formatTime now timeStr = Some t.
Proof.
  unfold formatTime.
  destruct (isEmpty timeStr); [eauto|].
  destruct (tryFormats formats timeStr); [eauto|].
  destruct (FindStringSubmatch formatTime_timePattern timeStr) as [m|] eqn:E;
    [|eauto].
  destruct (@formatTime_padding timeStr m E) as (zeros & Hz & _).
  exists (submatch m 1 ++ zeros). exact Hz.
Qed.

(** X21: [formatTime] always returns (the index expression on the parts
    of the split text never panics), and what it returns is the reading
    of the clock, or what one of the eight layouts makes of the text, or
    the first time of day found in the text, brought to the form
    HH:MM:SS.mmm by zeros added at the end. *)
Theorem formatTime_result `{TimePkg} now timeStr :
  exists t,
    formatTime now timeStr = Some t
    /\ (t = now
        \/ (exists format,
               In format formats /\ ParseFormat format timeStr = Some t)
        \/ (clockShape t = true
            /\ exists m zeros,
                FindStringSubmatch formatTime_timePattern timeStr = Some m
                /\ t = submatch m 1 ++ zeros
                /\ In zeros [go ".000"; go "0"; []])).
Proof.
  unfold formatTime.
  destruct (isEmpty timeStr); [eauto|].
  destruct (tryFormats formats timeStr) as [t|] eqn:Ef.
  { exists t. split; [reflexivity|]. right. left.
    now apply (@tryFormats_some timeStr t _ formats). }
  destruct (FindStringSubmatch formatTime_timePattern timeStr) as [m|] eqn:E;
    [|eauto].
  destruct (@formatTime_padding timeStr m E) as (zeros & Hz & Hin & Hs).
  exists (submatch m 1 ++ zeros).
  split; [exact Hz|]. right. right. split; [exact Hs|].
  exists m, zeros. auto.
Qed.

End FormatTimeFacts.

(** ** The screen *)

Section ScreenExamples.

Example highlightErrorInMessage_examples :
  @highlightErrorInMessage markRender (go "job failed error=disk full") errorStyle
  = go "job failed <error=disk >full"
  /\ @highlightErrorInMessage markRender (go "error=a error=b") errorStyle
     = go "<error=a ><error=b>"
  /\ @highlightErrorInMessage markRender (go "error= x") errorStyle
     = go "<error= x>"
  /\ @highlightErrorInMessage markRender (go "no error here error=") errorStyle
     = go "no error here error=".
Proof. vm_compute. repeat split; reflexivity. Qed.

Example View_example :
  @View asciiCase noTime plainRender
        (readyModel [plainEntry (go "started"); jobEntry] 10 false 0) noon
  = Some (go "Container logs: 0123456789ab | Requested: 0 | Loaded: 2 logs"
             ++ newline
             ++ go "12:00:00.000 [INFO] started" ++ newline
             ++ go "12:00:00.000 [ERROR] job failed jobID=42 error=disk full"
             ++ newline
             ++ go "Press 'q' or Ctrl+C to quit | Word wrap: ON (press 'w' to toggle) | Error filter: OFF (press 'e' to toggle)").
Proof. vm_compute. reflexivity. Qed.

End ScreenExamples.

Section ScreenFacts.

Context `{Utf8.CaseTables} `{TimePkg} `{Lipgloss}.
Local Open Scope Z_scope.

Lemma firstn_skipn_mid {A} (s : list A) i n :
  firstn i s ++ firstn n (skipn i s) ++ skipn (i + n) s = s.
Proof.
  replace (i + n)%nat with (n + i)%nat by lia.
  rewrite <- skipn_skipn, firstn_skipn. apply firstn_skipn.
Qed.

Lemma replaceErrors_erased (repl : gostring -> gostring) :
  (forall text, repl text = text) ->
  forall fuel s, replaceErrors fuel repl s = s.
Proof.
  intros Hrepl. induction fuel as [|fuel IH]; intros s; [reflexivity|].
  cbn [replaceErrors].
  destruct (Strings.Index s (go "error=")) as [i|]; [|reflexivity].
  destruct (skipn (i + 6) s) as [|b t]; [reflexivity|].
  destruct (Regexp.inClass Regexp.Any b).
  - rewrite Hrepl, IH. apply firstn_skipn_mid.
  - rewrite IH. apply firstn_skipn.
Qed.

(** X22: highlighting adds styling and nothing else.  With a renderer
    that returns its text as it is, [highlightErrorInMessage] returns the
    message unchanged: no byte of the message is lost, repeated or moved
    by the replacement of the matches. *)
Theorem highlightErrorInMessage_erased message style :
  (forall st text, Render st text = text) ->
  highlightErrorInMessage message style = message.
Proof.
  intros Hplain. unfold highlightErrorInMessage.
  apply replaceErrors_erased. intros text. apply Hplain.
Qed.

Lemma renderEntry_returns m now entry :
  wrapLines m = false \/ 0 < GoInt.sub (width m) 2 ->
  exists lines, renderEntry m now entry = Some lines.
Proof.
  intros Hw. unfold renderEntry.
  destruct (formatTime_returns now (Time entry)) as [t ->].
  cbv zeta. destruct (wrapLines m); [|eauto].
  destruct Hw as [Hw|Hw]; [discriminate|].
  now apply wrapText_positive.
Qed.

Lemma renderEntries_returns m clock entries : forall i,
  wrapLines m = false \/ 0 < GoInt.sub (width m) 2 ->
  exists lines, renderEntries m clock i entries = Some lines.
Proof.
  induction entries as [|entry rest IH]; intros i Hw; cbn [renderEntries].
  - eauto.
  - destruct (renderEntry_returns m (clock i) entry Hw) as [lines ->].
    destruct (IH (S i) Hw) as [more ->]. eauto.
Qed.

Lemma visibleSlice_safe m :
  3 <= height m -> 0 <= scrollOffset m ->
  scrollOffset m + (height m - 3) < 2 ^ 63 ->
  len (visibleEntries m) < 2 ^ 63 ->
  exists entries, visibleSlice m = Some entries.
Proof.
  intros Hh Hs Hsum Hn.
  pose proof (len_nonneg (visibleEntries m)) as Hn0.
  unfold visibleSlice. rewrite viewBounds_eq by lia.
  destruct (Z.ltb_spec (scrollOffset m) (len (visibleEntries m)));
    rewrite slice_some by lia; eauto.
Qed.

Lemma viewLines_safe m clock :
  3 <= height m -> 0 <= scrollOffset m ->
  scrollOffset m + (height m - 3) < 2 ^ 63 ->
  len (visibleEntries m) < 2 ^ 63 ->
  wrapLines m = false \/ 2 < width m < 2 ^ 63 ->
  exists logLines,
    viewLines m clock = Some logLines
    /\ len logLines <= height m - 3.
Proof.
  intros Hh Hs Hsum Hn Hw.
  unfold viewLines.
  destruct (visibleSlice_safe m Hh Hs Hsum Hn) as [entries ->].
  assert (Hw' : wrapLines m = false \/ 0 < GoInt.sub (width m) 2).
  { destruct Hw as [Hw|Hw]; [now left|right].
    unfold GoInt.sub. rewrite wrap_in_range; lia. }
  destruct (renderEntries_returns m clock entries 0 Hw') as [logLines ->].
  cbv zeta. unfold GoInt.sub. rewrite wrap_in_range by lia.
  pose proof (len_nonneg logLines) as Hl0.
  destruct (Z.gtb_spec (len logLines) (height m - 3)) as [Hgt|Hle].
  - rewrite slice_some by lia. eexists. split; [reflexivity|].
    unfold len in *. rewrite length_firstn. cbn [Z.to_nat skipn]. lia.
  - eauto.
Qed.

Lemma View_safe m clock :
  12 <= len (containerID m) ->
  3 <= height m -> 0 <= scrollOffset m ->
  scrollOffset m + (height m - 3) < 2 ^ 63 ->
  len (visibleEntries m) < 2 ^ 63 ->
  wrapLines m = false \/ 2 < width m < 2 ^ 63 ->
  exists screen, View m clock = Some screen.
Proof.
  intros Hid Hh Hs Hsum Hn Hw. unfold View.
  destruct (err m) as [e|]; [eauto|].
  destruct (ready m); cbn [negb]; [|eauto].
  destruct (viewLines_safe m clock Hh Hs Hsum Hn Hw) as (logLines & -> & _).
  pose proof (len_nonneg (containerID m)).
  rewrite slice_some by lia. eauto.
Qed.

(** X23: where [View] is safe.  [View] returns a screen when the model
    holds an error or is not ready yet.  For a ready model without error
    it returns a screen when the container id has at least 12 bytes, the
    height is at least 3, the scroll offset is not negative (and the sum
    of both is an int), and word wrap is off or the width is more than 2;
    [logLines], the list that [View] joins with newlines, then has at most
    [height - 3] elements.  These are not rows of the screen: an element
    that holds a newline itself (a message with a newline, word wrap being
    off) takes more than one row. *)
Theorem View_returns m clock :
  err m <> None \/ ready m = false
  \/ (12 <= len (containerID m)
      /\ 3 <= height m /\ 0 <= scrollOffset m
      /\ scrollOffset m + (height m - 3) < 2 ^ 63
      /\ len (visibleEntries m) < 2 ^ 63
      /\ (wrapLines m = false \/ 2 < width m < 2 ^ 63)) ->
  (exists screen, View m clock = Some screen)
  /\ (ready m = true -> err m = None ->
      exists logLines,
        viewLines m clock = Some logLines
        /\ len logLines <= height m - 3).
Proof.
  intros Hcases. split.
  - destruct Hcases as [Hc|[Hc|(Hid & Hh & Hs & Hsum & Hn & Hw)]].
    + unfold View. destruct (err m); [eauto|congruence].
    + unfold View. destruct (err m); [eauto|].
      rewrite Hc. cbn [negb]. eauto.
    + now apply View_safe.
  - intros Hr He.
    destruct Hcases as [Hc|[Hc|(Hid & Hh & Hs & Hsum & Hn & Hw)]];
      [congruence|congruence|].
    now apply viewLines_safe.
Qed.

(** X24: where [View] panics.  For a ready model without error, [View]
    panics when the container id has fewer than 12 bytes (the header
    takes [containerID[:12]]), and when the height is below 3 (the slice
    of the entries or the cut [logLines[:availableHeight]] is out of
    range then), whatever the records are. *)
Theorem View_panics m clock :
  ready m = true -> err m = None ->
  len (containerID m) < 12 \/ - 2 ^ 63 + 3 <= height m < 3 ->
  View m clock = None.
Proof.
  intros Hr He Hbad. unfold View. rewrite He, Hr. cbn [negb].
  destruct Hbad as [Hid|Hh].
  - rewrite slice_none by lia. reflexivity.
  - destruct (slice (containerID m) 0 12); [|reflexivity].
    assert (Hv : viewLines m clock = None).
    { unfold viewLines.
      destruct (visibleSlice m) as [entries|]; [|reflexivity].
      destruct (renderEntries m clock 0 entries) as [logLines|];
        [|reflexivity].
      cbv zeta. unfold GoInt.sub. rewrite wrap_in_range by lia.
      pose proof (len_nonneg logLines) as Hl0.
      destruct (Z.gtb_spec (len logLines) (height m - 3)); [|lia].
      apply slice_none. lia. }
    rewrite Hv. reflexivity.
Qed.

End ScreenFacts.

(** The theorem for the plain renderer. *)
Lemma highlightErrorInMessage_erased_witness :
  @highlightErrorInMessage plainRender (go "job failed error=disk full")
                           errorStyle
  = go "job failed error=disk full".
Proof.
  apply (@highlightErrorInMessage_erased plainRender).
  intros st text. reflexivity.
Defined.

(** The theorem for two records on a terminal of 80 by 10. *)
Lemma View_returns_witness :
  let m := readyModel [plainEntry (go "started"); jobEntry] 10 false 0 in
  (exists screen, @View asciiCase noTime plainRender m noon = Some screen)
  /\ (ready m = true -> err m = None ->
      exists logLines,
        @viewLines asciiCase noTime plainRender m noon = Some logLines
        /\ (len logLines <= height m - 3)%Z).
Proof.
  intros m.
  apply (@View_returns asciiCase noTime plainRender m noon).
  right. right. vm_compute.
  repeat split; try discriminate; try reflexivity.
  right. split; reflexivity.
Defined.

(** The theorem for a container given by a short name: as soon as the
    first record has arrived, [View] panics. *)
Lemma View_panics_witness :
  let m := runMsgs (startModel None (go "web") false 0)
                   [logMsg (plainEntry (go "started"))] in
  @View asciiCase noTime plainRender m noon = None.
Proof.
  intros m.
  apply (@View_panics asciiCase noTime plainRender m noon).
  - reflexivity.
  - reflexivity.
  - left. reflexivity.
Defined.


(** ** Safety of the viewer *)

Section ViewerSafety.

Context {caseTables : Utf8.CaseTables} {timePkg : TimePkg}
        {lipgloss : Lipgloss}.
Local Open Scope Z_scope.

Ltac powers :=
  change (2 ^ 31) with 2147483648 in *;
  change (2 ^ 30) with 1073741824 in *;
  change (2 ^ 63) with 9223372036854775808 in *.

Lemma Update_viewerInv k m msg :
  viewerInv k m -> 0 <= k < 2 ^ 30 -> safeIn m msg = true ->
  viewerInv (k + 1) (fst (Update m msg)).
Proof.
  unfold viewerInv. intros (Hs & Hh & Hw & Hid & Hn) Hk Hsafe.
  pose proof (len_nonneg (logEntries m)) as Hn0.
  destruct msg as [w h|key|e|e|s|].
  - cbn [safeIn] in Hsafe. cbn [Update fst scrollOffset height width
                                  containerID logEntries].
    apply andb_prop in Hsafe. destruct Hsafe as [Hsafe H4].
    apply andb_prop in Hsafe. destruct Hsafe as [Hsafe H3].
    apply andb_prop in Hsafe. destruct Hsafe as [H1 H2].
    apply Z.ltb_lt in H1, H2, H4. apply Z.leb_le in H3.
    powers. lia.
  - cbn [safeIn] in Hsafe. unfold Update.
    repeat match goal with
    | |- context [if keyIs key ?l then _ else _] =>
      destruct (keyIs key l) eqn:?
    end;
      cbn [fst setScroll scrollOffset height width containerID logEntries];
      try (powers; lia).
    + destruct (Z.gtb_spec (scrollOffset m) 0);
        cbn [setScroll scrollOffset height width containerID logEntries];
        unfold GoInt.sub; rewrite ?wrap_in_range; powers; lia.
    + unfold GoInt.add. rewrite wrap_in_range; powers; lia.
    + apply Z.leb_le in Hsafe.
      unfold GoInt.add, GoInt.sub. rewrite wrap_add_l.
      rewrite wrap_in_range; powers; lia.
    + destruct (Z.gtb_spec (scrollOffset m) (height m));
        cbn [setScroll scrollOffset height width containerID logEntries];
        unfold GoInt.sub; rewrite ?wrap_in_range; powers; lia.
    + unfold GoInt.add. rewrite wrap_in_range; powers; lia.
  - cbn [Update fst scrollOffset height width containerID logEntries].
    assert (Hlen : len (logEntries m ++ [e]) = len (logEntries m) + 1).
    { unfold len. rewrite length_app. cbn [length]. lia. }
    rewrite Hlen. unfold GoInt.sub.
    rewrite (@wrap_in_range (height m - 3)) by (powers; lia).
    destruct (Z.gtb_spec (len (logEntries m) + 1) (height m - 3));
      rewrite ?wrap_in_range; powers; lia.
  - cbn [Update fst scrollOffset height width containerID logEntries].
    powers. lia.
  - cbn [Update fst]. powers. lia.
  - cbn [Update fst]. powers. lia.
Qed.

Lemma runMsgs_viewerInv msgs : forall m k,
  viewerInv k m -> 0 <= k -> k + len msgs < 2 ^ 30 ->
  allSafe m msgs = true ->
  viewerInv (k + len msgs) (runMsgs m msgs).
Proof.
  induction msgs as [|msg msgs IH]; intros m k Hinv Hk Hlen Hsafe.
  - change (len (@nil Msg)) with 0. rewrite Z.add_0_r. exact Hinv.
  - cbn [allSafe] in Hsafe. apply andb_prop in Hsafe.
    destruct Hsafe as [Hs1 Hs2].
    assert (Hl : len (msg :: msgs) = 1 + len msgs).
    { unfold len. cbn [length]. lia. }
    pose proof (len_nonneg msgs) as Hm0.
    rewrite Hl in *.
    change (runMsgs m (msg :: msgs))
      with (runMsgs (fst (Update m msg)) msgs).
    replace (k + (1 + len msgs)) with ((k + 1) + len msgs) by lia.
    apply IH; [|lia|lia|exact Hs2].
    apply Update_viewerInv; [exact Hinv|lia|exact Hs1].
Qed.

(** X25: safety of the viewer.  On a terminal of at least 3 rows and 3
    columns, for a container id of at least 12 bytes, [View] returns a
    screen after every sequence of messages (fewer than 2^30 of them) in
    which the terminal is never resized below 3 rows or 3 columns and the
    key end or G is pressed only when the buffer holds at least
    [height - 5] records: records, errors, all other keys and resizes
    cannot make it panic. *)
Theorem viewer_never_panics termSize id errorsOnly tail msgs clock :
  let m0 := startModel termSize id errorsOnly tail in
  2 < width m0 < 2 ^ 31 ->
  3 <= height m0 < 2 ^ 31 ->
  12 <= len id ->
  len msgs < 2 ^ 30 ->
  allSafe m0 msgs = true ->
  exists screen, View (runMsgs m0 msgs) clock = Some screen.
Proof.
  intros m0 Hw Hh Hid Hlen Hsafe.
  assert (H0 : viewerInv 0 m0).
  { unfold viewerInv. split; [|split; [exact Hh|split; [exact Hw|]]].
    - unfold m0, startModel, initialModel.
      destruct termSize as [[w h]|]; cbn; lia.
    - split.
      + unfold m0, startModel. cbn [containerID]. exact Hid.
      + unfold m0, startModel, initialModel.
        destruct termSize as [[w h]|]; cbn; lia. }
  pose proof (len_nonneg msgs) as Hm0.
  destruct (@runMsgs_viewerInv msgs m0 0 H0 (Z.le_refl 0)) as
      (Hs & Hh' & Hw' & Hid' & Hn); [lia|exact Hsafe|].
  rewrite Z.add_0_l in Hs, Hn.
  assert (Hvis : len (visibleEntries (runMsgs m0 msgs))
                 <= len (logEntries (runMsgs m0 msgs))).
  { unfold visibleEntries, len. apply inj_le. apply filter_length_le. }
  apply View_safe; lia.
Qed.

(** X26: after an error the screen is safe.  Once an error message has
    arrived, [View] returns the error screen, with the last error
    received, whatever else has arrived and whatever the size of the
    terminal and the scroll offset are. *)
Theorem View_after_error m msgs clock e :
  lastError msgs = Some e ->
  View (runMsgs m msgs) clock
  = Some (Render errorStyle
                 (go "Error: " ++ errorText e ++ newline ++ newline
                     ++ go "Press 'q' or Ctrl+C to quit")).
Proof.
  intros He.
  destruct (runMsgs_state msgs m) as (_ & Herr & _).
  rewrite He in Herr. unfold View. rewrite Herr. reflexivity.
Qed.

End ViewerSafety.

(** The theorem for a session on an 80x24 terminal: three records, the
    filter switched on, a page down, and a resize. *)
Lemma viewer_never_panics_witness :
  exists screen,
    @View asciiCase noTime plainRender
          (runMsgs (startModel None (go "0123456789abcdef") false 0)
                   [logMsg (plainEntry (go "a")); logMsg jobEntry;
                    KeyMsg (go "e"); logMsg (plainEntry (go "c"));
                    KeyMsg (go "pagedown"); WindowSizeMsg 40 5])
          noon
    = Some screen.
Proof.
  apply (@viewer_never_panics asciiCase noTime plainRender None
           (go "0123456789abcdef") false 0%Z
           [logMsg (plainEntry (go "a")); logMsg jobEntry;
            KeyMsg (go "e"); logMsg (plainEntry (go "c"));
            KeyMsg (go "pagedown"); WindowSizeMsg 40 5] noon).
  - vm_compute. split; reflexivity.
  - vm_compute. split; [discriminate|reflexivity].
  - vm_compute. discriminate.
  - vm_compute. reflexivity.
  - vm_compute. reflexivity.
Defined.

(** The theorem for a stream that breaks, on a terminal of one row. *)
Lemma View_after_error_witness :
  @View asciiCase noTime plainRender
        (runMsgs (startModel (Some (80, 1)%Z) (go "web") false 0)
                 (sent (@streamLogs asciiCase noJson brokenDocker
                                    (fun _ => false) 0)))
        noon
  = Some (go "Error: error reading logs: unexpected EOF" ++ newline
             ++ newline ++ go "Press 'q' or Ctrl+C to quit").
Proof.
  exact (@View_after_error asciiCase noTime plainRender
            (startModel (Some (80, 1)%Z) (go "web") false 0)
            (sent (@streamLogs asciiCase noJson brokenDocker
                               (fun _ => false) 0))
            noon
            (wrapError (go "error reading logs: ")
                       (errorString (go "unexpected EOF")))
            eq_refl).
Defined.


(** ** Scrolling back, and following with the filter on *)

Section ScrollFacts.

Context {caseTables : Utf8.CaseTables}.
Local Open Scope Z_scope.

Lemma setScroll_same m : setScroll m (scrollOffset m) = m.
Proof. destruct m; reflexivity. Qed.

Lemma setScroll_twice m a b : setScroll (setScroll m a) b = setScroll m b.
Proof. reflexivity. Qed.

(** X27: scrolling down and back.  From a scroll offset that is not
    negative, the key up (or k) undoes the key down (or j), and the key
    pageup undoes the key pagedown (for a height that is not negative);
    the keys w and e undo themselves.  The model is then the one before
    the two keys. *)
Theorem Update_undo m first second :
  0 <= scrollOffset m < 2 ^ 62 ->
  0 <= height m < 2 ^ 62 ->
  In (first, second)
     [ (go "down", go "up"); (go "j", go "k"); (go "down", go "k");
       (go "j", go "up"); (go "pagedown", go "pageup");
       (go "w", go "w"); (go "e", go "e") ] ->
  fst (Update (fst (Update m (KeyMsg first))) (KeyMsg second)) = m.
Proof.
  intros Hs Hh Hin.
  assert (Hdown : forall key, key = go "down" \/ key = go "j" ->
                              fst (Update m (KeyMsg key))
                              = setScroll m (scrollOffset m + 1)).
  { intros key Hkey.
    assert (E : fst (Update m (KeyMsg key))
                = setScroll m (GoInt.add (scrollOffset m) 1)).
    { destruct Hkey as [->| ->]; reflexivity. }
    rewrite E. unfold GoInt.add. rewrite wrap_in_range by lia.
    reflexivity. }
  assert (Hup : forall key m', key = go "up" \/ key = go "k" ->
                               0 < scrollOffset m' < 2 ^ 63 ->
                               fst (Update m' (KeyMsg key))
                               = setScroll m' (scrollOffset m' - 1)).
  { intros key m' Hkey Hm'.
    assert (E : fst (Update m' (KeyMsg key))
                = if scrollOffset m' >? 0
                  then setScroll m' (GoInt.sub (scrollOffset m') 1)
                  else m').
    { destruct Hkey as [->| ->]; reflexivity. }
    rewrite E. destruct (Z.gtb_spec (scrollOffset m') 0); [|lia].
    unfold GoInt.sub. rewrite wrap_in_range by lia. reflexivity. }
  assert (Hline : forall k1 k2,
             k1 = go "down" \/ k1 = go "j" -> k2 = go "up" \/ k2 = go "k" ->
             fst (Update (fst (Update m (KeyMsg k1))) (KeyMsg k2)) = m).
  { intros k1 k2 H1 H2. rewrite (Hdown k1 H1).
    rewrite (Hup k2 _ H2) by (cbn [setScroll scrollOffset]; lia).
    cbn [setScroll scrollOffset]. rewrite setScroll_twice.
    replace (scrollOffset m + 1 - 1) with (scrollOffset m) by lia.
    apply setScroll_same. }
  cbn [In] in Hin.
  destruct Hin as [Q|[Q|[Q|[Q|[Q|[Q|[Q|[]]]]]]]]; injection Q as <- <-;
    try solve [apply Hline; auto].
  - change (fst (Update (fst (Update m (KeyMsg (go "pagedown"))))
                         (KeyMsg (go "pageup"))) = m).
    assert (E1 : fst (Update m (KeyMsg (go "pagedown")))
                 = setScroll m (GoInt.add (scrollOffset m) (height m)))
      by reflexivity.
    rewrite E1. unfold GoInt.add. rewrite wrap_in_range by lia.
    assert (E2 : forall m',
               fst (Update m' (KeyMsg (go "pageup")))
               = if scrollOffset m' >? height m'
                 then setScroll m' (GoInt.sub (scrollOffset m') (height m'))
                 else setScroll m' 0) by reflexivity.
    rewrite E2. cbn [setScroll scrollOffset height].
    destruct (Z.gtb_spec (scrollOffset m + height m) (height m)).
    + unfold GoInt.sub. rewrite wrap_in_range by lia.
      rewrite setScroll_twice.
      replace (scrollOffset m + height m - height m) with (scrollOffset m)
        by lia.
      apply setScroll_same.
    + rewrite setScroll_twice.
      replace 0 with (scrollOffset m) by lia. apply setScroll_same.
  - destruct m as [? ? ? ? ? ? wl ? ? ? ?]. destruct wl; reflexivity.
  - destruct m as [? ? ? ? ? ? ? eo ? ? ?]. destruct eo; reflexivity.
Qed.

End ScrollFacts.

(** The theorem for a page down and back at offset 5. *)
Lemma Update_undo_witness :
  let m := readyModel (repeat (plainEntry (go "x")) 8) 10 false 5 in
  fst (Update (fst (Update m (KeyMsg (go "pagedown"))))
              (KeyMsg (go "pageup")))
  = m.
Proof.
  intros m.
  apply (@Update_undo m (go "pagedown") (go "pageup")).
  - vm_compute. split; [discriminate|reflexivity].
  - vm_compute. split; [discriminate|reflexivity].
  - cbn [In]. do 4 right. left. reflexivity.
Defined.


(** ** A pattern that another one hides *)

Section Shadowing.

Import Strings Regexp.

Lemma run_matches r : forall pos s caps kont c,
  run r pos s caps kont = Some c ->
  exists m rest caps',
    s = m ++ rest /\ Matches r pos m rest /\ length caps' = length caps
    /\ kont (pos + length m)%nat rest caps' = Some c.
Proof.
  induction r as [k|k mn mx| | | |r1 IH1 r2 IH2|r1 IH1 r2 IH2|r1 IH1|i r1 IH1];
    intros pos s caps kont c Hr; cbn [run] in Hr.
  - destruct s as [|b t]; [discriminate|].
    destruct (inClass k b) eqn:Eb; [|discriminate].
    exists [b], t, caps. cbn [app length Matches].
    replace (pos + 1)%nat with (S pos) by lia.
    split; [reflexivity|]. split; [exists b; auto|]. auto.
  - destruct (runRep_lang _ _ _ _ _ _ _ Hr) as (m & rest & Hs & Hk & Hm).
    exists m, rest, caps. auto.
  - destruct (Nat.eqb pos 0) eqn:Ep; [|discriminate].
    apply Nat.eqb_eq in Ep.
    exists [], s, caps. rewrite Nat.add_0_r. cbn [Matches app]. auto.
  - destruct s; [|discriminate].
    exists [], [], caps. rewrite Nat.add_0_r. cbn [Matches app]. auto.
  - exists [], s, caps. rewrite Nat.add_0_r. cbn [Matches app]. auto.
  - destruct (IH1 _ _ _ _ _ Hr) as (m1 & s1 & c1 & Hs1 & Hm1 & Hl1 & Hk1).
    destruct (IH2 _ _ _ _ _ Hk1) as (m2 & s2 & c2 & Hs2 & Hm2 & Hl2 & Hk2).
    exists (m1 ++ m2), s2, c2. rewrite length_app, <- app_assoc.
    split; [congruence|]. split.
    { cbn [Matches]. exists m1, m2. rewrite <- Hs2. auto. }
    split; [congruence|]. rewrite Nat.add_assoc. exact Hk2.
  - destruct (run r1 pos s caps kont) as [c'|] eqn:E.
    + inversion Hr; subst c'.
      destruct (IH1 _ _ _ _ _ E) as (m1 & s1 & c1 & Hs1 & Hm1 & Hl1 & Hk1).
      exists m1, s1, c1. cbn [Matches]. auto.
    + destruct (IH2 _ _ _ _ _ Hr) as (m1 & s1 & c1 & Hs1 & Hm1 & Hl1 & Hk1).
      exists m1, s1, c1. cbn [Matches]. auto.
  - destruct (run r1 pos s caps kont) as [c'|] eqn:E.
    + inversion Hr; subst c'.
      destruct (IH1 _ _ _ _ _ E) as (m1 & s1 & c1 & Hs1 & Hm1 & Hl1 & Hk1).
      exists m1, s1, c1. cbn [Matches]. auto.
    + exists [], s, caps. rewrite Nat.add_0_r. cbn [Matches app]. auto.
  - destruct (IH1 _ _ _ _ _ Hr) as (m1 & s1 & c1 & Hs1 & Hm1 & Hl1 & Hk1).
    exists m1, s1, (setNth i (firstn (pos + length m1 - pos) s) c1).
    rewrite setNth_length. cbn [Matches]. auto.
Qed.

(** The search tries every number of repetitions. *)
Lemma runRep_complete k rest caps kont : forall m mn mx pos,
  Forall (fun b => inClass k b = true) m ->
  (mn <= length m)%nat ->
  match mx with Some x => (length m <= x)%nat | None => True end ->
  kont (pos + length m)%nat rest caps <> None ->
  runRep k mn mx pos (m ++ rest) caps kont <> None.
Proof.
  induction m as [|b m IH]; intros mn mx pos Hf Hmn Hmx Hk.
  - cbn [length] in Hmn. assert (mn = 0)%nat by lia. subst mn.
    rewrite Nat.add_0_r in Hk. cbn [app].
    destruct rest as [|b t]; cbn [runRep]; [exact Hk|].
    destruct (inClass k b && _); [|exact Hk].
    destruct (runRep k _ _ _ _ _ _); [discriminate|exact Hk].
  - inversion Hf as [|? ? Hb Hf']; subst.
    cbn [app runRep]. rewrite Hb.
    assert (Emx : match mx with Some 0%nat => false | _ => true end = true).
    { destruct mx as [[|x]|]; cbn [length] in Hmx; [lia|reflexivity..]. }
    rewrite Emx. cbn [andb].
    assert (Hrec : runRep k (pred mn) (option_map pred mx) (S pos)
                          (m ++ rest) caps kont <> None).
    { apply IH; [exact Hf'|cbn [length] in Hmn; lia| |].
      - destruct mx as [x|]; cbn [option_map length] in *; [lia|exact I].
      - replace (S pos + length m)%nat with (pos + length (b :: m))%nat
          by (cbn [length]; lia).
        exact Hk. }
    destruct (runRep k (pred mn) (option_map pred mx) (S pos) (m ++ rest)
                     caps kont); [discriminate|congruence].
Qed.

(** The search finds a match whenever there is one: if [r] can match
    [m] and what is left to match goes through after it, the run
    succeeds. *)
Lemma run_complete r n : forall pos m rest kont,
  Matches r pos m rest ->
  (forall caps', length caps' = n ->
                 kont (pos + length m)%nat rest caps' <> None) ->
  forall caps, length caps = n -> run r pos (m ++ rest) caps kont <> None.
Proof.
  induction r as [k|k mn mx| | | |r1 IH1 r2 IH2|r1 IH1 r2 IH2|r1 IH1|i r1 IH1];
    intros pos m rest kont Hm Hk caps Hc; cbn [Matches] in Hm; cbn [run].
  - destruct Hm as (b & -> & Hb). cbn [app]. rewrite Hb.
    replace (S pos) with (pos + length [b])%nat by (cbn [length]; lia).
    now apply Hk.
  - destruct Hm as (Hf & Hmn & Hmx).
    apply runRep_complete; auto.
  - destruct Hm as [-> ->]. cbn [Nat.eqb app].
    specialize (Hk caps Hc). cbn [length] in Hk. exact Hk.
  - destruct Hm as [-> ->]. cbn [app].
    specialize (Hk caps Hc). cbn [length] in Hk.
    rewrite Nat.add_0_r in Hk. exact Hk.
  - subst m. cbn [app]. specialize (Hk caps Hc). cbn [length] in Hk.
    rewrite Nat.add_0_r in Hk. exact Hk.
  - destruct Hm as (m1 & m2 & -> & H1 & H2). rewrite <- app_assoc.
    apply (IH1 pos m1 (m2 ++ rest)); [exact H1| |exact Hc].
    intros caps' Hc'. apply (IH2 _ m2 rest); [exact H2| |exact Hc'].
    intros caps'' Hc''. rewrite <- Nat.add_assoc, <- length_app.
    now apply Hk.
  - destruct Hm as [H1|H2].
    + pose proof (IH1 pos m rest kont H1 Hk caps Hc) as Hr.
      destruct (run r1 pos (m ++ rest) caps kont); [discriminate|congruence].
    + destruct (run r1 pos (m ++ rest) caps kont); [discriminate|].
      now apply IH2.
  - destruct Hm as [H1| ->].
    + pose proof (IH1 pos m rest kont H1 Hk caps Hc) as Hr.
      destruct (run r1 pos (m ++ rest) caps kont); [discriminate|congruence].
    + cbn [app]. destruct (run r1 pos rest caps kont); [discriminate|].
      specialize (Hk caps Hc). cbn [length] in Hk.
      rewrite Nat.add_0_r in Hk. exact Hk.
  - apply IH1; [exact Hm| |exact Hc].
    intros caps' Hc'. apply Hk. rewrite setNth_length. exact Hc'.
Qed.

Lemma subsumes_refl r : subsumes r r.
Proof. intros pos m rest Hm. exact Hm. Qed.

Lemma subsumes_Cat a a' b b' :
  subsumes a a' -> subsumes b b' -> subsumes (Cat a b) (Cat a' b').
Proof.
  intros Ha Hb pos m rest (m1 & m2 & -> & H1 & H2).
  exists m1, m2. split; [reflexivity|]. split; [now apply Ha|now apply Hb].
Qed.

Lemma subsumes_Grp i j r r' : subsumes r r' -> subsumes (Grp i r) (Grp j r').
Proof. intros Hr pos m rest Hm. now apply Hr. Qed.

(** If every match of [re2] is a match of [re1], then [re2] finds
    nothing where [re1] finds nothing. *)
Lemma search_subsumed re1 re2 :
  subsumes (ast re2) (ast re1) ->
  forall s pos, search re1 pos s = None -> search re2 pos s = None.
Proof.
  intros Hsub.
  assert (Hrun : forall pos s,
             run (Grp 0 (ast re1)) pos s (repeat [] (S (numSubexp re1)))
                 (fun _ _ c => Some c) = None ->
             run (Grp 0 (ast re2)) pos s (repeat [] (S (numSubexp re2)))
                 (fun _ _ c => Some c) = None).
  { intros pos s E1.
    destruct (run (Grp 0 (ast re2)) pos s _ _) as [c|] eqn:E2;
      [|reflexivity].
    exfalso.
    destruct (run_matches _ _ _ _ _ E2) as (m & rest & c' & -> & Hm & _ & _).
    revert E1.
    apply (@run_complete (Grp 0 (ast re1)) (S (numSubexp re1)) pos m rest).
    - cbn [Matches] in *. now apply Hsub.
    - intros caps' _. discriminate.
    - apply repeat_length. }
  induction s as [|b t IH]; intros pos; cbn [search].
  - destruct (run (Grp 0 (ast re1)) pos [] _ _) eqn:E1; [discriminate|].
    intros _. rewrite (Hrun _ _ E1). reflexivity.
  - destruct (run (Grp 0 (ast re1)) pos (b :: t) _ _) eqn:E1; [discriminate|].
    intros Hs. rewrite (Hrun _ _ E1). now apply IH.
Qed.

Context `{Utf8.CaseTables}.

(** Every match of the second pattern (with the level STATEMENT) is a
    match of the first (with any word as level). *)
Lemma statement_subsumed :
  subsumes (ast (fst (nth 1 patterns (noMatch, fun _ => emptyEntry))))
           (ast (fst (nth 0 patterns (noMatch, fun _ => emptyEntry)))).
Proof.
  match goal with
  | |- subsumes ?a ?b =>
    let va := eval vm_compute in a in
    let vb := eval vm_compute in b in
    change (subsumes va vb)
  end.
  repeat first [ apply subsumes_refl | apply subsumes_Cat | apply subsumes_Grp ].
  intros pos m rest Hm. cbn [Matches] in Hm.
  repeat match goal with
  | Hm : exists _, _ |- _ => destruct Hm as [? Hm]
  | Hm : _ /\ _ |- _ =>
    let Hl := fresh "Hl" in destruct Hm as [Hl Hm]
  end.
  subst.
  repeat match goal with
  | Hx : inClass (Lit _) _ = true |- _ =>
    apply literal_byte in Hx; subst
  end.
  cbn [Matches app length]. split; [|lia].
  repeat constructor.
Qed.

(** X29: the pattern for PostgreSQL statements is dead.  The second
    pattern of [parseUniversalLog] differs from the first only in asking
    for the level STATEMENT where the first takes any word, and the first
    is tried before it.  So it finds nothing on a line on which the first
    finds nothing, and the classifier gives the same record with the
    second pattern taken away: no record gets its level INFO and the
    prefix [SQL: ] from it. *)
Theorem statement_pattern_dead :
  (forall t,
      FindStringSubmatch
        (fst (nth 0 patterns (noMatch, fun _ => emptyEntry))) t = None ->
      FindStringSubmatch
        (fst (nth 1 patterns (noMatch, fun _ => emptyEntry))) t = None)
  /\ (forall t,
         tryPatterns patterns t
         = tryPatterns (firstn 1 patterns ++ skipn 2 patterns) t).
Proof.
  assert (Hdead : forall t,
             FindStringSubmatch
               (fst (nth 0 patterns (noMatch, fun _ => emptyEntry))) t = None ->
             FindStringSubmatch
               (fst (nth 1 patterns (noMatch, fun _ => emptyEntry))) t = None).
  { intros t. unfold FindStringSubmatch.
    apply search_subsumed. exact statement_subsumed. }
  split; [exact Hdead|].
  intros t. specialize (Hdead t).
  unfold patterns in *. cbn [nth fst firstn skipn app tryPatterns] in *.
  destruct (FindStringSubmatch _ t) as [m|]; [reflexivity|].
  rewrite (Hdead eq_refl). reflexivity.
Qed.

End Shadowing.

(** A PostgreSQL statement line: it is the first pattern that takes it,
    so the record has the level STATEMENT and the statement as it is. *)
Example parseLogLine_statement :
  @parseLogLine asciiCase noJson
    (go "2025-07-19T00:26:54.972365013Z 2025-07-19 00:26:54.972 GMT [100] STATEMENT:  SELECT 1")
  = {| Time := go "2025-07-19T00:26:54.972365013Z"; Level := go "STATEMENT";
       Message := go "SELECT 1"; JobID := go "100"; Error := [];
       Raw := [] |}.
Proof. vm_compute. reflexivity. Qed.


(** ** The message of a record *)

Section MessageFacts.

Import Strings Regexp.

Lemma In_allBytes b : In b allBytes.
Proof.
  unfold allBytes. rewrite <- (ascii_nat_embedding b).
  apply in_map. apply in_seq. pose proof (nat_ascii_bounded b). lia.
Qed.

Lemma classWithin_sound p k b :
  classWithin p k = true -> inClass k b = true -> p b = true.
Proof.
  unfold classWithin. rewrite forallb_forall. intros Hall Hb.
  specialize (Hall b (In_allBytes b)). rewrite Hb in Hall. exact Hall.
Qed.

Lemma hasByte_sound p r : forall pos m rest,
  hasByte p r = true -> Matches r pos m rest ->
  Exists (fun b => p b = true) m.
Proof.
  induction r as [k|k mn mx| | | |r1 IH1 r2 IH2|r1 IH1 r2 IH2|r1 IH1|i r1 IH1];
    intros pos m rest Hh Hm; cbn [hasByte] in Hh; cbn [Matches] in Hm;
    try discriminate.
  - destruct Hm as (b & -> & Hb). constructor.
    eapply classWithin_sound; eassumption.
  - apply andb_prop in Hh. destruct Hh as [Hmn Hk].
    apply Nat.ltb_lt in Hmn. destruct Hm as (Hf & Hlen & _).
    destruct m as [|b m]; [cbn [length] in Hlen; lia|].
    inversion Hf; subst. constructor.
    eapply classWithin_sound; eassumption.
  - destruct Hm as (m1 & m2 & -> & H1 & H2).
    apply Exists_app. apply orb_prop in Hh. destruct Hh as [Hh|Hh].
    + left. eapply IH1; eassumption.
    + right. eapply IH2; eassumption.
  - apply andb_prop in Hh. destruct Hh as [Ha Hb].
    destruct Hm as [Hm|Hm]; [eapply IH1|eapply IH2]; eassumption.
  - eapply IH1; eassumption.
Qed.

Lemma onlyBytes_sound p r : forall pos m rest,
  onlyBytes p r = true -> Matches r pos m rest ->
  Forall (fun b => p b = true) m.
Proof.
  induction r as [k|k mn mx| | | |r1 IH1 r2 IH2|r1 IH1 r2 IH2|r1 IH1|i r1 IH1];
    intros pos m rest Hh Hm; cbn [onlyBytes] in Hh; cbn [Matches] in Hm.
  - destruct Hm as (b & -> & Hb). constructor; [|constructor].
    eapply classWithin_sound; eassumption.
  - destruct Hm as (Hf & _). eapply Forall_impl; [|exact Hf].
    intros b Hb. eapply classWithin_sound; eassumption.
  - destruct Hm as [-> _]. constructor.
  - destruct Hm as [-> _]. constructor.
  - subst m. constructor.
  - apply andb_prop in Hh. destruct Hh as [Ha Hb].
    destruct Hm as (m1 & m2 & -> & H1 & H2).
    apply Forall_app. split; [eapply IH1|eapply IH2]; eassumption.
  - apply andb_prop in Hh. destruct Hh as [Ha Hb].
    destruct Hm as [Hm|Hm]; [eapply IH1|eapply IH2]; eassumption.
  - destruct Hm as [Hm| ->]; [eapply IH1; eassumption|constructor].
  - eapply IH1; eassumption.
Qed.

Lemma startsBol_sound : forall r pos m rest,
  startsBol r = true -> Matches r pos m rest -> pos = 0%nat.
Proof.
  intros r pos m rest.
  destruct r as [| | | | |r1 r2| | |]; try discriminate.
  destruct r1; try discriminate. intros _ Hm. cbn [Matches] in Hm.
  destruct Hm as (m1 & m2 & _ & (_ & Hp) & _). exact Hp.
Qed.

Lemma endsEol_sound r : forall pos m rest,
  endsEol r = true -> Matches r pos m rest -> rest = [].
Proof.
  induction r as [k|k mn mx| | | |r1 IH1 r2 IH2|r1 IH1 r2 IH2|r1 IH1|i r1 IH1];
    intros pos m rest He Hm; cbn [endsEol] in He; try discriminate;
    cbn [Matches] in Hm.
  - destruct Hm as [_ Hr]. exact Hr.
  - destruct Hm as (m1 & m2 & _ & _ & H2). eapply IH2; eassumption.
Qed.

(** What the search finds is a match of the expression, somewhere in
    the text. *)
Lemma search_matches re : forall s pos c,
  search re pos s = Some c ->
  exists pre m rest,
    s = pre ++ m ++ rest /\ Matches (ast re) (pos + length pre) m rest.
Proof.
  induction s as [|b t IH]; intros pos c Hs; cbn [search] in Hs.
  - destruct (run _ _ _ _ _) as [c'|] eqn:E; [|discriminate].
    destruct (@run_matches _ _ _ _ _ _ E) as (m & rest & c1 & Hm & HM & _).
    exists [], m, rest. cbn [app length]. rewrite Nat.add_0_r. auto.
  - destruct (run _ _ _ _ _) as [c'|] eqn:E.
    + destruct (@run_matches _ _ _ _ _ _ E) as (m & rest & c1 & Hm & HM & _).
      exists [], m, rest. cbn [app length]. rewrite Nat.add_0_r. auto.
    + destruct (@IH _ _ Hs) as (pre & m & rest & Ht & HM).
      exists (b :: pre), m, rest. cbn [app length]. rewrite Ht.
      split; [reflexivity|].
      replace (pos + S (length pre))%nat with (S pos + length pre)%nat
        by lia.
      exact HM.
Qed.

(** A text found by an expression whose matches hold a byte of [p]
    holds such a byte. *)
Lemma FindStringSubmatch_hasByte p re t c :
  hasByte p (ast re) = true ->
  FindStringSubmatch re t = Some c ->
  Exists (fun b => p b = true) t.
Proof.
  intros Hh Hf. unfold FindStringSubmatch in Hf.
  destruct (@search_matches _ _ _ _ Hf) as (pre & m & rest & -> & HM).
  apply Exists_app. right. apply Exists_app. left.
  eapply hasByte_sound; eassumption.
Qed.

(** A text found by an expression between [^] and [$] whose matches are
    made of bytes of [p] is made of such bytes. *)
Lemma FindStringSubmatch_onlyBytes p re t c :
  startsBol (ast re) = true -> endsEol (ast re) = true ->
  onlyBytes p (ast re) = true ->
  FindStringSubmatch re t = Some c ->
  Forall (fun b => p b = true) t.
Proof.
  intros Hb He Ho Hf. unfold FindStringSubmatch in Hf.
  destruct (@search_matches _ _ _ _ Hf) as (pre & m & rest & -> & HM).
  pose proof (@startsBol_sound _ _ _ _ Hb HM) as Hp.
  pose proof (@endsEol_sound _ _ _ _ He HM) as Hr.
  destruct pre; [|cbn [length] in Hp; lia]. subst rest.
  cbn [app]. rewrite app_nil_r.
  eapply onlyBytes_sound; eassumption.
Qed.

Context `{Utf8.CaseTables} `{JsonDecoder}.

(** A bare Docker timestamp holds no white space, and each of the five
    patterns before the one that takes it asks for some: so that pattern
    is the first to match it, and the record has no message. *)
Lemma bareTimestamp_entry t c :
  FindStringSubmatch bareTimestamp t = Some c ->
  tryPatterns patterns t
  = Some {| Time := submatch c 1; Level := go "INFO"; Message := [];
            JobID := []; Error := []; Raw := [] |}.
Proof.
  intros Hb.
  assert (Hns : Forall (fun b => negb (isSpaceByte b) = true) t).
  { apply (@FindStringSubmatch_onlyBytes _ bareTimestamp t c);
      try exact Hb; vm_compute; reflexivity. }
  assert (Hno : forall re c',
             hasByte isSpaceByte (ast re) = true ->
             FindStringSubmatch re t = Some c' -> False).
  { intros re c' Hh Hf.
    pose proof (@FindStringSubmatch_hasByte _ _ _ _ Hh Hf) as Hex.
    apply Exists_exists in Hex. destruct Hex as (b & Hin & Hsp).
    rewrite Forall_forall in Hns. specialize (Hns b Hin).
    rewrite Hsp in Hns. discriminate. }
  unfold bareTimestamp in Hb. unfold patterns in *.
  cbn [nth fst] in Hb. cbn [tryPatterns].
  repeat match goal with
  | |- context [match FindStringSubmatch ?re t with _ => _ end] =>
    lazymatch type of Hb with
    | FindStringSubmatch re t = _ => fail
    | _ =>
      let E := fresh "E" in
      destruct (FindStringSubmatch re t) eqn:E;
      [exfalso; refine (@Hno re _ _ E); vm_compute; reflexivity|]
    end
  end.
  rewrite Hb. reflexivity.
Qed.

Lemma nothing_in_empty_line :
  tryPatterns patterns [] = None
  /\ FindStringSubmatch timePattern [] = None.
Proof. split; vm_compute; reflexivity. Qed.

(** C1 as amended: the classifier returns a record for every line.  When
    the line, without the Docker header and trimmed, is decoded as JSON,
    message and raw text are those of the decoder.  Otherwise the raw text
    is empty, and the message is empty in three cases and no other: the
    trimmed line is empty; it is a bare Docker timestamp; or no pattern
    matches it, it holds a time, and what is left of it when the time is
    taken out is white space only, as for a line that is a time of day
    and nothing else. *)
Theorem parseLogLine_message_or_raw line :
  let t := TrimSpace (dropDockerHeader line) in
  match jsonEntry t with
  | Some logEntry =>
    Message (parseLogLine line) = Message logEntry
    /\ Raw (parseLogLine line) = Raw logEntry
  | None =>
    Raw (parseLogLine line) = []
    /\ (Message (parseLogLine line) = []
        <-> t = []
            \/ FindStringSubmatch bareTimestamp t <> None
            \/ (tryPatterns patterns t = None
                /\ exists timeMatch,
                    FindStringSubmatch timePattern t = Some timeMatch
                    /\ TrimSpace (Replace1 t (submatch timeMatch 1) [])
                       = []))
    /\ (forall timeMatch,
           tryPatterns patterns t = None ->
           FindStringSubmatch timePattern t = Some timeMatch ->
           submatch timeMatch 1 = t ->
           Message (parseLogLine line) = [])
  end.
Proof.
  intros t. rewrite parseLogLine_json. cbv zeta. fold t.
  assert (Ht : TrimSpace t = t) by apply TrimSpace_idem.
  clearbody t.
  destruct (jsonEntry t) as [e|].
  { destruct (isEmpty (Time e) && _); split; reflexivity. }
  unfold parseUniversalLog. rewrite Ht.
  destruct (tryPatterns patterns t) as [e|] eqn:Ep.
  - pose proof Ep as Hentry. apply tryPatterns_entry in Hentry.
    destruct Hentry as [Hr Hm].
    split; [exact Hr|]. split.
    + split.
      * intros Hempty. right. left. intros Hb. now apply Hm.
      * intros [Hc|[Hc|[Hc _]]].
        -- subst t. rewrite (proj1 nothing_in_empty_line) in Ep.
           discriminate.
        -- destruct (FindStringSubmatch bareTimestamp t) as [c|] eqn:Eb;
             [|congruence].
           rewrite (@bareTimestamp_entry _ _ Eb) in Ep.
           inversion Ep; subst e. reflexivity.
        -- discriminate.
    + intros timeMatch Hc. discriminate.
  - destruct (FindStringSubmatch timePattern t) as [m|] eqn:Et.
    + cbn [Message Raw]. split; [reflexivity|]. split.
      * split.
        -- intros Hempty. right. right. split; [reflexivity|].
           exists m. auto.
        -- intros [Hc|[Hc|(_ & m' & Hm' & Hx)]].
           ++ subst t. rewrite (proj2 nothing_in_empty_line) in Et.
              discriminate.
           ++ destruct (FindStringSubmatch bareTimestamp t) as [c|] eqn:Eb;
                [|congruence].
              rewrite (@bareTimestamp_entry _ _ Eb) in Ep. discriminate.
           ++ inversion Hm'; subst m'. exact Hx.
      * intros m' _ Hm' Hwhole. inversion Hm'; subst m'.
        rewrite Hwhole. unfold Replace1.
        assert (Hidx : Index t t = Some 0%nat).
        { destruct t; cbn [Index hasPrefix].
          - reflexivity.
          - rewrite Ascii.eqb_refl.
            assert (Hp : forall s : gostring, hasPrefix s s = true).
            { induction s as [|b s IH]; [reflexivity|].
              cbn [hasPrefix]. now rewrite Ascii.eqb_refl. }
            rewrite Hp. reflexivity. }
        rewrite Hidx. cbn [firstn app Nat.add].
        rewrite skipn_all. reflexivity.
    + cbn [Message Raw]. split; [reflexivity|]. split.
      * split.
        -- intros Hempty. now left.
        -- intros [Hc|[Hc|(_ & m' & Hm' & _)]].
           ++ exact Hc.
           ++ destruct (FindStringSubmatch bareTimestamp t) as [c|] eqn:Eb;
                [|congruence].
              rewrite (@bareTimestamp_entry _ _ Eb) in Ep. discriminate.
           ++ discriminate.
      * intros m' _ Hm'. discriminate.
Qed.

End MessageFacts.

(** C1, counterexample: for a bare Docker timestamp, for the empty line,
    and for a line that is a time of day and nothing else, the record has
    neither message nor raw text. *)
Lemma parseLogLine_empty_message_and_raw :
  (Message (@parseLogLine asciiCase noJson bareTimestampLine) = []
   /\ Raw (@parseLogLine asciiCase noJson bareTimestampLine) = [])
  /\ (Message (@parseLogLine asciiCase noJson []) = []
      /\ Raw (@parseLogLine asciiCase noJson []) = [])
  /\ (Message (@parseLogLine asciiCase noJson timeOfDayLine) = []
      /\ Raw (@parseLogLine asciiCase noJson timeOfDayLine) = []).
Proof. vm_compute. repeat split; reflexivity. Qed.

(** The theorem on a line with a time of day in its middle, which no
    pattern matches: the record has a message, what is left of the line
    without the time; and on a line that is a time of day alone, whose
    record has none. *)
Lemma parseLogLine_message_witness :
  Message (@parseLogLine asciiCase noJson startedLine) <> []
  /\ Message (@parseLogLine asciiCase noJson timeOfDayLine) = [].
Proof.
  split.
  - intros Hempty.
    apply (proj1 (proj1 (proj2 (@parseLogLine_message_or_raw
                                  asciiCase noJson startedLine))))
      in Hempty.
    destruct Hempty as [Hc|[Hc|(_ & m & Hm & Hx)]].
    + vm_compute in Hc. discriminate.
    + apply Hc. vm_compute. reflexivity.
    + vm_compute in Hm. inversion Hm; subst m.
      vm_compute in Hx. discriminate.
  - apply (proj2 (proj1 (proj2 (@parseLogLine_message_or_raw
                                  asciiCase noJson timeOfDayLine)))).
    right. right. split; [vm_compute; reflexivity|].
    eexists. split; vm_compute; reflexivity.
Defined.


(** ** Following the stream on the screen *)

Section FollowFacts.

Context {caseTables : Utf8.CaseTables} {timePkg : TimePkg}
        {lipgloss : Lipgloss}.
Local Open Scope Z_scope.







End FollowFacts.


